(** * pyLDAvis [prepare.py]: a shallow embedding and its verified properties

    The module [pyLDAvis/prepare.py] turns the output of a topic model into
    the tables of the LDAvis client.  This development embeds its functions
    one by one and proves the properties of the specification about them.

    Conventions of the embedding.

    - A Python [int] is a [Z]; a position in a sequence, a label of a
      default index and the number [R] of terms to show are [nat]s.
    - A float64 is an exact rational ([Qc]); a value computed by a division
      is an [fnum]: a rational, or one of the values [+inf], [-inf], [nan]
      that numpy produces when it divides by zero.  Rounding error and the
      sign of zero are not modelled: every sum, product and quotient is the
      exact one, and no finite computation overflows.  A statement about a
      computed number is therefore a statement in exact arithmetic; where
      the code rounds (a sum of float64, the quotient from which [arange]
      counts its values, the products of [_term_topic_freq]) its number can
      differ from the exact one in the last place.
    - A [pandas.Series] on a default index is the list of its values; a
      [pandas.DataFrame] is a [frame]: its shape and its cells.  Labels are
      kept only where the code uses them (the topic labels of the reordered
      tables are the list [topic_order]).
    - A function that can raise returns an [outcome].
    - What the code takes from its libraries and the interpreter without the
      source fixing it (the builtin [round], [joblib.cpu_count], [numpy.log],
      [scipy.stats.entropy], a sum that skips [nan], the order in which a
      sort leaves equal keys) is a [Variable] of a section.  The contract of
      a sort ([sorts_descending], [sorts_by_term_topic]) is a hypothesis of
      the theorems that need it.
      The examples run the pipeline on the instances defined for them.

    The first part of the file is the embedding, the second its
    properties. *)

From Stdlib Require Import ZArith QArith Qcanon Qround Bool Arith Lia
  String Ascii DecimalString DecimalNat List Permutation Sorted.
Import ListNotations.

Set Implicit Arguments.

(** ** Exceptions and outcomes *)

Inductive exn : Type :=
| ValidationError (msg : string)
| ValueError
| ZeroDivisionError
| AssertionError.

Inductive outcome (A : Type) : Type :=
| Ok (a : A)
| Raise (e : exn).

Arguments Ok {A} a.
Arguments Raise {A} e.

Definition bind {A B : Type} (m : outcome A) (k : A -> outcome B) : outcome B :=
  match m with
  | Ok a => k a
  | Raise e => Raise e
  end.

Notation "x <- m ;; k" := (bind m (fun x => k))
  (at level 61, m at next level, right associativity).

(** ** Python sequences *)

Module Py.

Section Sequences.
Context {A : Type}.

Definition len (l : list A) : Z := Z.of_nat (length l).

(** A slice bound is counted from the end when it is negative and clipped
    to the sequence. *)
Definition clip (l : list A) (k : Z) : nat :=
  if (k <? 0)%Z then Z.to_nat (Z.max 0 (k + len l))
  else Z.to_nat (Z.min k (len l)).

(** [l[i:j]] *)
Definition slice (l : list A) (i j : Z) : list A :=
  firstn (clip l j - clip l i) (skipn (clip l i) l).
End Sequences.

(** [range(start, stop, step)]: [ValueError] for a zero step. *)
Definition range_len (start stop step : Z) : Z :=
  if (0 <? step)%Z then
    if (start <? stop)%Z then (stop - start + step - 1) / step else 0
  else
    if (stop <? start)%Z then (start - stop - step - 1) / (- step) else 0.

Definition range (start stop step : Z) : outcome (list Z) :=
  if (step =? 0)%Z then Raise ValueError
  else Ok (map (fun i => (start + Z.of_nat i * step)%Z)
               (seq 0 (Z.to_nat (range_len start stop step)))).

End Py.

(** ** Partitioning the sweep: [_chunks] and [_job_chunks] *)

Section Chunks.
Context {A : Type}.

(** [for i in range(0, len(l), n): yield l[i:i+n]] *)
Definition _chunks (l : list A) (n : Z) : outcome (list (list A)) :=
  starts <- Py.range 0 (Py.len l) n ;;
  Ok (map (fun i => Py.slice l i (i + n)) starts).

(** [joblib.cpu_count()] *)
Variable cpu_count : Z.

Definition _job_chunks (l : list A) (n_jobs : Z) : outcome (list (list A)) :=
  let n_chunks := if (n_jobs <? 0)%Z then (cpu_count + 1 - n_jobs)%Z else n_jobs in
  _chunks l n_chunks.
End Chunks.

(** The chunks of a positive size [n], by structural recursion on their
    number; the proofs relate [_chunks] to it. *)
Fixpoint chunks_from {A : Type} (l : list A) (n : nat) (start count : nat) : list (list A) :=
  match count with
  | O => []
  | S c => firstn n (skipn (start * n) l) :: chunks_from l n (S start) c
  end.


(** ** Numbers *)

Local Open Scope Qc_scope.

Definition Qc_leb (x y : Qc) : bool := Qle_bool x y.
Definition Qc_ltb (x y : Qc) : bool := negb (Qle_bool y x).

(** [sum] of a sequence of finite values. *)
Definition Qsum (l : list Qc) : Qc := fold_right Qcplus 0 l.

(** [int(x)]: truncation towards zero. *)
Definition py_int (x : Qc) : Z :=
  if Qc_leb 0 x then Qfloor x else Qceiling x.

(** A float64 that may be infinite or not a number. *)
Inductive fnum : Type :=
| Fin (q : Qc)
| PInf
| NInf
| NaN.

Definition fopp (x : fnum) : fnum :=
  match x with
  | Fin q => Fin (- q)
  | PInf => NInf
  | NInf => PInf
  | NaN => NaN
  end.

Definition fadd (x y : fnum) : fnum :=
  match x, y with
  | NaN, _ | _, NaN => NaN
  | Fin a, Fin b => Fin (a + b)
  | PInf, NInf | NInf, PInf => NaN
  | PInf, _ | _, PInf => PInf
  | NInf, _ | _, NInf => NInf
  end.

(** An infinity times a finite value: its sign follows the sign of the
    value, and [inf * 0] is [nan]. *)
Definition scale_inf (inf : fnum) (q : Qc) : fnum :=
  match q ?= 0 with
  | Eq => NaN
  | Gt => inf
  | Lt => fopp inf
  end.

Definition fmul (x y : fnum) : fnum :=
  match x, y with
  | NaN, _ | _, NaN => NaN
  | Fin a, Fin b => Fin (a * b)
  | Fin a, inf => scale_inf inf a
  | inf, Fin b => scale_inf inf b
  | PInf, PInf | NInf, NInf => PInf
  | PInf, NInf | NInf, PInf => NInf
  end.

Definition fdiv (x y : fnum) : fnum :=
  match x, y with
  | NaN, _ | _, NaN => NaN
  | Fin a, Fin b =>
      if Qc_eq_bool b 0 then
        match a ?= 0 with Eq => NaN | Gt => PInf | Lt => NInf end
      else Fin (a / b)
  | Fin _, _ => Fin 0
  | inf, Fin b => if Qc_ltb b 0 then fopp inf else inf
  | _, _ => NaN
  end.

(** [x <= y] and [x >= y]; a comparison with [nan] is false. *)
Definition fle (x y : fnum) : bool :=
  match x, y with
  | NaN, _ | _, NaN => false
  | NInf, _ | _, PInf => true
  | Fin a, Fin b => Qc_leb a b
  | _, _ => false
  end.

Definition fge (x y : fnum) : bool := fle y x.

Definition isnull (x : fnum) : bool :=
  match x with NaN => true | _ => false end.

(** [numpy.sum] of a sequence. *)
Definition fsum (l : list fnum) : fnum := fold_right fadd (Fin 0) l.

(** The instance of the examples for a sum of pandas, which skips [nan]: a
    sequence of nothing but [nan] sums to 0. *)
Definition nansum_zero (l : list fnum) : fnum :=
  fsum (filter (fun x => negb (isnull x)) l).

(** [numpy.round]: to the nearest integer, a tie to the even one. *)
Definition round_half_even (x : Qc) : Z :=
  let n := Qfloor x in
  match Qccompare (Qcminus x (Q2Qc (inject_Z n))) (Q2Qc (1 # 2)) with
  | Lt => n
  | Gt => (n + 1)%Z
  | Eq => if Z.even n then n else (n + 1)%Z
  end.

Definition fround (x : fnum) : fnum :=
  match x with
  | Fin q => Fin (Q2Qc (inject_Z (round_half_even q)))
  | _ => x
  end.

(** ** Series and frames *)

(** [s[i]] on a default index; the models below read inside the bounds, and
    [d] stands for no value. *)
Definition at_ {A : Type} (d : A) (s : list A) (i : nat) : A := nth i s d.

(** A [DataFrame] with numbered columns: [cell i j] is the entry at row
    position [i] and column [j]; [frame_index] holds the labels of the rows,
    in the order of the rows. *)
Record frame (A : Type) : Type := Frame {
  nrows : nat;
  ncols : nat;
  frame_index : list nat;
  cell : nat -> nat -> A
}.

Arguments Frame {A} nrows ncols frame_index cell.

Definition shape {A : Type} (f : frame A) : nat * nat := (nrows f, ncols f).

(** The frame of a list of rows of [w] columns, on a default index. *)
Definition frame_of_rows {A : Type} (d : A) (w : nat) (rows : list (list A)) : frame A :=
  Frame (length rows) w (seq 0 (length rows)) (fun i j => nth j (nth i rows []) d).

Definition row {A : Type} (f : frame A) (i : nat) : list A :=
  map (cell f i) (seq 0 (ncols f)).

Definition column {A : Type} (f : frame A) (j : nat) : list A :=
  map (fun i => cell f i j) (seq 0 (nrows f)).

(** The position of a label in an index ([length l] when it is absent). *)
Fixpoint position (x : nat) (l : list nat) : nat :=
  match l with
  | [] => O
  | y :: l' => if (x =? y)%nat then O else S (position x l')
  end.

(** [f.loc[label, j]] *)
Definition loc {A : Type} (f : frame A) (label j : nat) : A :=
  cell f (position label (frame_index f)) j.

(** ** Input validation: [__num_dist_rows__], [_input_check], [_input_validate] *)

Local Open Scope string_scope.

Definition nl : string := String (ascii_of_nat 10) EmptyString.

(** The six messages of [_input_check], in the order of its checks. *)
Definition msg_topics : string :=
  "Number of rows of topic_term_dists does not match number of columns of doc_topic_dists; both should be equal to the number of topics in the model.".
Definition msg_docs : string :=
  "Length of doc_lengths not equal to the number of rows in doc_topic_dists; both should be equal to the number of documents in the data.".
Definition msg_vocab : string :=
  "Number of terms in vocabulary does not match the number of columns of topic_term_dists (where each row of topic_term_dists is a probability distribution of terms for a given topic).".
Definition msg_term_frequency : string :=
  "Length of term_frequency not equal to the number of terms in the vocabulary (len of vocab).".
Definition msg_ttd_rows : string :=
  "Not all rows (distributions) in topic_term_dists sum to 1.".
Definition msg_dtd_rows : string :=
  "Not all rows (distributions) in doc_topic_dists sum to 1.".

(** The five inputs of [prepare], once [_df_with_names] and
    [_series_with_name] have made frames and series of them. *)
Record inputs : Type := Inputs {
  topic_term_dists : frame Qc;
  doc_topic_dists : frame Qc;
  doc_lengths : list Qc;
  vocab : list string;
  term_frequency : list Qc
}.

Section Validation.

(** The builtin [round(x, ndigits)] of the interpreter. *)
Variable round : Qc -> Z -> Qc.

(** [pd.DataFrame(array).sum(axis=1)] *)
Definition row_sums (array : frame Qc) : list Qc :=
  map (fun i => Qsum (row array i)) (seq 0 (nrows array)).

(** [int(pd.DataFrame(array).sum(axis=1).map(lambda x: round(x, ndigits)).sum())].
    The two sums are exact; the code adds float64 values, so that its total
    can miss an integer which the exact total reaches, and [int] raises
    [OverflowError] on an infinite total, which exact sums never give. *)
Definition __num_dist_rows__ (array : frame Qc) (ndigits : Z) : Z :=
  py_int (Qsum (map (fun x => round x ndigits) (row_sums array))).

(** [errors] is threaded through the checks; [err msg] appends to it. *)
Definition err (errors : list string) (msg : string) : list string :=
  errors ++ [msg].

Definition _input_check (i : inputs) : option (list string) :=
  let ttds := shape (topic_term_dists i) in
  let dtds := shape (doc_topic_dists i) in
  let errors := [] in
  let errors :=
    if negb (snd dtds =? fst ttds)%nat then err errors msg_topics else errors in
  let errors :=
    if negb (length (doc_lengths i) =? fst dtds)%nat then err errors msg_docs else errors in
  let W := length (vocab i) in
  let errors :=
    if negb (snd ttds =? W)%nat then err errors msg_vocab else errors in
  let errors :=
    if negb (length (term_frequency i) =? W)%nat
    then err errors msg_term_frequency else errors in
  let errors :=
    if negb (__num_dist_rows__ (topic_term_dists i) 2 =? Z.of_nat (fst ttds))%Z
    then err errors msg_ttd_rows else errors in
  let errors :=
    if negb (__num_dist_rows__ (doc_topic_dists i) 2 =? Z.of_nat (fst dtds))%Z
    then err errors msg_dtd_rows else errors in
  if (0 <? length errors)%nat then Some errors else None.

(** ['\n' + '\n'.join([' * ' + s for s in res])] *)
Definition bulleted (res : list string) : string :=
  nl ++ String.concat nl (map (fun s => " * " ++ s) res).

(** [if res:] is false for [None] and for an empty list. *)
Definition _input_validate (i : inputs) : outcome unit :=
  match _input_check i with
  | Some ((_ :: _) as res) => Raise (ValidationError (bulleted res))
  | _ => Ok tt
  end.

(** *** The checks as the specification words them *)

(** The stochasticity check of a matrix, from its entries alone: round each
    row's sum to 2 decimal places, sum the rounded sums over the rows,
    truncate to an integer, and compare with the row count. *)

(** The sum of the [width] first entries of row [i], entry by entry. *)
Fixpoint row_total (m : frame Qc) (i width : nat) : Qc :=
  match width with
  | O => 0%Qc
  | S j => (row_total m i j + cell m i j)%Qc
  end.

(** The sum, over the [n] first rows, of the row sums rounded to 2 decimal
    places. *)
Fixpoint rounded_total (m : frame Qc) (n : nat) : Qc :=
  match n with
  | O => 0%Qc
  | S i => (rounded_total m i + round (row_total m i (ncols m)) 2)%Qc
  end.

(** The truncation of a rational to an integer: the quotient of its
    numerator by its denominator, rounded towards zero. *)
Definition truncation (x : Qc) : Z := Z.quot (Qnum x) (Zpos (Qden x)).

Definition rows_sum_to_one (m : frame Qc) : Prop :=
  truncation (rounded_total m (nrows m)) = Z.of_nat (nrows m).

(** The six rules, each with its message; [true] marks a violated rule. *)
Definition violations (i : inputs) : list (bool * string) :=
  let ttd := topic_term_dists i in
  let dtd := doc_topic_dists i in
  [ (negb (ncols dtd =? nrows ttd)%nat, msg_topics);
    (negb (length (doc_lengths i) =? nrows dtd)%nat, msg_docs);
    (negb (ncols ttd =? length (vocab i))%nat, msg_vocab);
    (negb (length (term_frequency i) =? length (vocab i))%nat, msg_term_frequency);
    (negb (__num_dist_rows__ ttd 2 =? Z.of_nat (nrows ttd))%Z, msg_ttd_rows);
    (negb (__num_dist_rows__ dtd 2 =? Z.of_nat (nrows dtd))%Z, msg_dtd_rows) ].

Definition violated (i : inputs) : list string :=
  map snd (filter fst (violations i)).

End Validation.

(** The error text as its reader takes it apart: the lines of the text
    ([text.split('\n')]), and of each line that starts with the bullet
    [" * "] what follows the bullet. *)
Fixpoint lines (text : string) : list string :=
  match text with
  | EmptyString => [EmptyString]
  | String c rest =>
      if Ascii.eqb c (ascii_of_nat 10) then EmptyString :: lines rest
      else match lines rest with
           | [] => [String c EmptyString]
           | line :: more => String c line :: more
           end
  end.

Definition entry (line : string) : option string :=
  match line with
  | String " " (String "*" (String " " s)) => Some s
  | _ => None
  end.

Definition entries (text : string) : list string :=
  flat_map (fun line => match entry line with Some s => [s] | None => [] end)
           (lines text).

(** A text of one line: it holds no line feed. *)
Fixpoint one_line (s : string) : bool :=
  match s with
  | EmptyString => true
  | String c rest => negb (Ascii.eqb c (ascii_of_nat 10)) && one_line rest
  end.

(** ** Sorting *)

(** The pandas sorts the code calls are variables of the pipeline below,
    each with the contract of its documentation.  This section gives a
    stable insertion sort that meets these contracts; the examples run the
    pipeline on it. *)
Section InsertionSort.
Context {A : Type}.
Variable before : A -> A -> bool.

Fixpoint insert (x : A) (l : list A) : list A :=
  match l with
  | [] => [x]
  | y :: l' => if before x y then x :: l else y :: insert x l'
  end.

Definition isort (l : list A) : list A := fold_right insert [] l.

End InsertionSort.

(** The positions of [l] in the order of the keys: an argsort. *)
Definition argsort_by {A : Type} (before : A -> A -> bool) (d : A) (l : list A) : list nat :=
  isort (fun i j => before (nth i l d) (nth j l d)) (seq 0 (length l)).

(** What [Series.order(ascending=False)] promises of two values [x] before
    [y]: the nulls come last, the others in descending order. *)
Definition before_desc (x y : fnum) : bool :=
  isnull y || (negb (isnull x) && fge x y).

(** A sequence in descending order of [>=]. *)
Definition descending (l : list fnum) : Prop :=
  StronglySorted (fun x y => fge x y = true) l.

(** The instance of the examples for [Series.order(ascending=False)]. *)
Definition stable_argsort_desc (l : list fnum) : list nat :=
  argsort_by before_desc NaN l.

(** ** The pipeline of [prepare] *)

(** A series that carries an index of its own (labels), as a sorted series
    does.  A series on a default index is the list of its values. *)
Record series (A : Type) : Type := Series {
  index : list nat;
  values : list A
}.

Arguments Series {A} index values.

(** [s[labels]] for a series [s] on a default index. *)
Definition take {A : Type} (d : A) (s : list A) (labels : list nat) : list A :=
  map (at_ d s) labels.

(** [f.ix[labels]]: the rows of [f] in the order of [labels]. *)
Definition select_rows {A : Type} (f : frame A) (labels : list nat) : frame A :=
  Frame (length labels) (ncols f) labels (fun r c => loc f (at_ 0%nat labels r) c).

(** [f[labels]]: the columns of [f] in the order of [labels]. *)
Definition select_columns {A : Type} (f : frame A) (labels : list nat) : frame A :=
  Frame (nrows f) (length labels) (frame_index f)
        (fun r c => cell f r (at_ 0%nat labels c)).

(** [f.sum()]: the sum of each column. *)
Definition column_sums (f : frame Qc) : list Qc :=
  map (fun j => Qsum (column f j)) (seq 0 (ncols f)).

(** [(f.T * weights).T]: each row scaled by its weight.  The product aligns
    the weights with the rows by label; wherever [prepare] forms it the two
    carry the same labels in the same order. *)
Definition weight_rows (f : frame Qc) (weights : list Qc) : frame Qc :=
  Frame (nrows f) (ncols f) (frame_index f)
        (fun r c => (cell f r c * at_ 0%Qc weights r)%Qc).

(** [s / s.sum()] *)
Definition normalize (s : list Qc) : list fnum :=
  map (fun x => fdiv (Fin x) (Fin (Qsum s))) s.

(** [_df_with_names]: the data on a numbered index. *)
Definition _df_with_names {A : Type} (data : frame A) : frame A :=
  Frame (nrows data) (ncols data) (seq 0 (nrows data)) (cell data).

Definition named (i : inputs) : inputs :=
  Inputs (_df_with_names (topic_term_dists i)) (_df_with_names (doc_topic_dists i))
         (doc_lengths i) (vocab i) (term_frequency i).

(** The tables of [prepare] after its reordering of the topics. *)
Record reordered : Type := Reordered {
  topic_freq : list Qc;
  topic_proportion : series fnum;
  topic_order : list nat;
  topic_term_dists' : frame Qc;
  doc_topic_dists' : frame Qc
}.

(** [_term_topic_freq], its products and quotients exact. *)
Definition _term_topic_freq (topic_term_dists : frame Qc) (topic_freq : list Qc)
    (term_frequency : list Qc) : frame fnum :=
  let term_topic_freq := weight_rows topic_term_dists topic_freq in
  (* adjust to match term frequencies exactly (get rid of rounding error) *)
  let sums := column_sums term_topic_freq in
  let err := map (fun w => fdiv (Fin (at_ 0%Qc term_frequency w)) (Fin (at_ 0%Qc sums w)))
                 (seq 0 (ncols term_topic_freq)) in
  Frame (nrows term_topic_freq) (ncols term_topic_freq) (frame_index term_topic_freq)
        (fun k w => fmul (Fin (cell term_topic_freq k w)) (at_ NaN err w)).

(** [np.arange(start, stop, step)]: [ceil((stop - start) / step)] values
    from [start], spaced by [step].  The quotient is the exact one here;
    numpy counts with the rounded quotient, and can count one value more or
    less where the exact quotient is an integer or next to one. *)
Definition arange (start stop step : Qc) : outcome (list Qc) :=
  if Qc_eq_bool step 0 then Raise ZeroDivisionError
  else
    let n := Z.to_nat (Qceiling ((stop - start) / step)%Qc) in
    Ok (map (fun k => (start + Q2Qc (inject_Z (Z.of_nat k)) * step)%Qc) (seq 0 n)).

(** [10 ** d] *)
Definition pow10 (d : Z) : Qc :=
  if (0 <=? d)%Z then Q2Qc (inject_Z (10 ^ d)) else (/ Q2Qc (inject_Z (10 ^ (- d))))%Qc.

(** [x.round(d)] *)
Definition fround_to (d : Z) (x : fnum) : fnum :=
  match x with
  | Fin q => Fin (Q2Qc (inject_Z (round_half_even (q * pow10 d))) / pow10 d)%Qc
  | _ => x
  end.

(** The decimal writing of a number, for ['Topic%d']. *)
Definition decimal (n : nat) : string :=
  NilEmpty.string_of_uint (Nat.to_uint n).

(** The values in the order of their first occurrence: [unique()]. *)
Fixpoint unique (l : list nat) : list nat :=
  match l with
  | [] => []
  | x :: l' => x :: filter (fun y => negb (y =? x)%nat) (unique l')
  end.

(** [pd.concat(frames)], row-wise, of frames with the same columns. *)
Definition vstack {A : Type} (f g : frame A) : frame A :=
  Frame (nrows f + nrows g) (ncols f) (frame_index f ++ frame_index g)
        (fun r c => if (r <? nrows f)%nat then cell f r c else cell g (r - nrows f) c).

Fixpoint vstack_all {A : Type} (f : frame A) (fs : list (frame A)) : frame A :=
  match fs with
  | [] => f
  | g :: fs' => vstack f (vstack_all g fs')
  end.

Definition concat_frames {A : Type} (fs : list (frame A)) : outcome (frame A) :=
  match fs with
  | [] => Raise ValueError
  | f :: fs' => Ok (vstack_all f fs')
  end.

(** A row of the topic-info table; [ix] is its label, the number of the
    term. *)
Module Info.
Record row : Type := Row {
  ix : nat;
  Term : string;
  Freq : fnum;
  Total : Qc;
  logprob : fnum;
  loglift : fnum;
  Category : string
}.
End Info.

(** A row of the token table; [term] is its label. *)
Module Token.
Record row : Type := Row {
  term : nat;
  Topic : nat;
  Freq : fnum;
  Term : string
}.
End Token.

(** A row of the table of coordinates. *)
Module Coord.
Record row : Type := Row {
  label : nat;
  x : fnum;
  y : fnum;
  topics : nat;
  cluster : nat;
  Freq : fnum
}.
End Coord.

(** The values of the exported dictionary. *)
#[local] Unset Elimination Schemes.
Inductive value : Type :=
| VInt (n : Z)
| VNum (x : fnum)
| VStr (s : string)
| VList (l : list value)
| VDict (d : list (string * value)).
#[local] Set Elimination Schemes.

(** The named tuple [PreparedData]. *)
Module Prepared.
Record PreparedData : Type := Make {
  topic_coordinates : list Coord.row;
  topic_info : list Info.row;
  token_table : list Token.row;
  R : nat;
  lambda_step : Qc;
  plot_opts : list (string * value);
  topic_order : list nat
}.
End Prepared.

(** [f.head(n)] *)
Definition head {A : Type} (n : nat) (f : frame A) : frame A :=
  Frame (Nat.min n (nrows f)) (ncols f) (firstn n (frame_index f)) (cell f).

(** The outcomes of a list of tasks, in their order; the first exception
    ends the run. *)
Fixpoint map_outcome {A B : Type} (f : A -> outcome B) (l : list A) : outcome (list B) :=
  match l with
  | [] => Ok []
  | a :: l' => b <- f a ;; bs <- map_outcome f l' ;; Ok (b :: bs)
  end.

(** [enumerate(l, 1)] *)
Definition enumerate1 {A : Type} (l : list A) : list (nat * A) :=
  combine (seq 1 (length l)) l.

(** [range(1, K + 1)] as labels: the label of the row at position [k]. *)
Definition one_based (k : nat) : nat := k + 1.

Section Pipeline.

(** The builtin [round(x, ndigits)] of the interpreter. *)
Variable round : Qc -> Z -> Qc.

(** [joblib.cpu_count()] *)
Variable cpu_count : Z.

(** [numpy.log] *)
Variable log : fnum -> fnum.

(** [Series.sum()] of values that may be [nan]: pandas skips them, and the
    sum of nothing but [nan] depends on its version. *)
Variable nansum : list fnum -> fnum.

(** [Series.order(ascending=False)]: the positions of the values in the
    order of the result. *)
Variable order_desc : list fnum -> list nat.

(** [DataFrame.sort(column, ascending=False)]: the positions of the rows in
    the order of the result, from the values of the column. *)
Variable sort_desc : list fnum -> list nat.

(** [DataFrame.sort(['Term', 'Topic'])]: the same, from the two columns. *)
Variable sort_term_topic : list (string * nat) -> list nat.

Definition order (s : list fnum) : series fnum :=
  let positions := order_desc s in
  Series positions (map (at_ NaN s) positions).

(** [(doc_topic_dists.T * doc_lengths).T.sum()]: the unsorted masses of the
    topics. *)
Definition topic_mass (i : inputs) : list Qc :=
  column_sums (weight_rows (doc_topic_dists i) (doc_lengths i)).

(** Lines 194-200 of [prepare]. *)
Definition reorder (i : inputs) : reordered :=
  let topic_freq := topic_mass i in
  let topic_proportion := order (normalize topic_freq) in
  let topic_order := index topic_proportion in
  (* reorder all data based on new ordering of topics *)
  let topic_freq := take 0%Qc topic_freq topic_order in
  let topic_term_dists := select_rows (topic_term_dists i) topic_order in
  let doc_topic_dists := select_columns (doc_topic_dists i) topic_order in
  Reordered topic_freq topic_proportion topic_order topic_term_dists doc_topic_dists.

(** [lambda_ * log_ttd + (1 - lambda_) * log_lift] *)
Definition relevance (log_ttd log_lift : frame fnum) (lambda_ : Qc) : frame fnum :=
  Frame (nrows log_ttd) (ncols log_ttd) (frame_index log_ttd)
        (fun k w => fadd (fmul (Fin lambda_) (cell log_ttd k w))
                         (fmul (Fin (1 - lambda_)%Qc) (cell log_lift k w))).

(** [_find_relevance]: column [k] of the result holds the first [R] terms of
    topic [k] in the descending order of their relevance. *)
Definition _find_relevance (log_ttd log_lift : frame fnum) (R : nat) (lambda_ : Qc)
    : frame nat :=
  let relevance := relevance log_ttd log_lift lambda_ in
  head R (Frame (ncols relevance) (nrows relevance) (seq 0 (ncols relevance))
                (fun r k => at_ 0%nat (index (order (row relevance k))) r)).

Definition _find_relevance_chunks (log_ttd log_lift : frame fnum) (R : nat)
    (lambda_seq : list Qc) : outcome (frame nat) :=
  concat_frames (map (fun l => _find_relevance log_ttd log_lift R l) lambda_seq).

(** [topic_top_term_df], local to [_topic_info]. *)
Definition topic_top_term_df (vocab : list string) (term_frequency : list Qc)
    (term_topic_freq log_ttd log_lift : frame fnum)
    (tup : nat * (nat * list nat)) : list Info.row :=
  let '(new_topic_id, (original_topic_id, topic_terms)) := tup in
  let term_ix := unique topic_terms in
  map (fun t =>
         Info.Row t
                  (at_ "" vocab t)
                  (loc term_topic_freq original_topic_id t)
                  (at_ 0%Qc term_frequency t)
                  (fround_to 4 (loc log_ttd original_topic_id t))
                  (fround_to 4 (loc log_lift original_topic_id t))
                  ("Topic" ++ decimal new_topic_id))
      term_ix.

(** The rows of [top_terms.T]: a topic label and the terms of its column. *)
Definition iterrows_T (labels : list nat) (top_terms : frame nat) : list (nat * list nat) :=
  map (fun k => (at_ 0%nat labels k, column top_terms k)) (seq 0 (ncols top_terms)).

(** [_topic_info].  The series it combines have one entry for each of the
    [W] columns of [topic_term_dists] on a validated input. *)
Definition _topic_info (topic_term_dists : frame Qc) (topic_proportion : series fnum)
    (term_frequency : list Qc) (term_topic_freq : frame fnum) (vocab : list string)
    (lambda_step : Qc) (R : nat) (n_jobs : Z) : outcome (list Info.row) :=
  let K := nrows topic_term_dists in
  let W := ncols topic_term_dists in
  let topics := frame_index topic_term_dists in
  (* marginal distribution over terms (width of blue bars) *)
  let term_proportion := normalize term_frequency in
  (* compute the distinctiveness and saliency of the terms *)
  let sums := column_sums topic_term_dists in
  let topic_given_term :=
    Frame K W topics (fun k w => fdiv (Fin (cell topic_term_dists k w))
                                      (Fin (at_ 0%Qc sums w))) in
  let kernel :=
    Frame K W topics
          (fun k w => fmul (cell topic_given_term k w)
                           (log (fdiv (cell topic_given_term k w)
                                      (at_ NaN (values topic_proportion) k)))) in
  let distinctiveness := map (fun w => nansum (column kernel w)) (seq 0 W) in
  let saliency :=
    map (fun w => fmul (at_ NaN term_proportion w) (at_ NaN distinctiveness w))
        (seq 0 W) in
  (* Order the terms for the "default" view by decreasing saliency *)
  let default_terms := firstn R (sort_desc saliency) in
  (* ranks = np.arange(R, 0, -1), assigned to the two columns *)
  default_term_info <-
    (if (length default_terms =? R)%nat then
       Ok (map (fun '(j, w) =>
                  let rank := Fin (Q2Qc (inject_Z (Z.of_nat (R - j)))) in
                  Info.Row w (at_ "" vocab w)
                           (Fin (at_ 0%Qc term_frequency w))
                           (at_ 0%Qc term_frequency w)
                           rank rank "Default")
               (combine (seq 0 R) default_terms))
     else Raise ValueError) ;;
  (* compute relevance and top terms for each topic *)
  let log_lift :=
    Frame K W topics (fun k w => log (fdiv (Fin (cell topic_term_dists k w))
                                           (at_ NaN term_proportion w))) in
  let log_ttd :=
    Frame K W topics (fun k w => log (Fin (cell topic_term_dists k w))) in
  lambda_seq <- arange 0 (1 + lambda_step)%Qc lambda_step ;;
  chunks <- _job_chunks cpu_count lambda_seq n_jobs ;;
  results <- map_outcome (_find_relevance_chunks log_ttd log_lift R) chunks ;;
  top_terms <- concat_frames results ;;
  let topic_dfs :=
    map (topic_top_term_df vocab term_frequency term_topic_freq log_ttd log_lift)
        (enumerate1 (iterrows_T topics top_terms)) in
  Ok (default_term_info ++ concat topic_dfs)%list.

(** [_token_table] *)
Definition _token_table (topic_info : list Info.row) (term_topic_freq : frame fnum)
    (vocab : list string) (term_frequency : list Qc) : list Token.row :=
  (* term-topic frequency table of unique terms across all topics and all
     values of lambda *)
  let term_ix := isort Nat.leb (unique (map Info.ix topic_info)) in
  let top_topic_terms_freq := select_columns term_topic_freq term_ix in
  (* use the new ordering for the topics *)
  let K := nrows term_topic_freq in
  (* unstack and reset_index: a row for each term and each topic *)
  let token_table :=
    flat_map (fun c => map (fun k => (at_ 0%nat term_ix c, one_based k,
                                      cell top_topic_terms_freq k c))
                           (seq 0 K))
             (seq 0 (length term_ix)) in
  (* we filter to Freq >= 0.5 to avoid sending too much data to the browser *)
  let token_table :=
    filter (fun '(term, Topic, Freq) => fge Freq (Fin (Q2Qc (1 # 2)))) token_table in
  let token_table :=
    map (fun '(term, Topic, Freq) => (term, Topic, fround Freq)) token_table in
  let token_table :=
    map (fun '(term, Topic, Freq) => Token.Row term Topic Freq (at_ "" vocab term))
        token_table in
  (* Normalize token frequencies *)
  let token_table :=
    map (fun r => Token.Row (Token.term r) (Token.Topic r)
                            (fdiv (Token.Freq r)
                                  (Fin (at_ 0%Qc term_frequency (Token.term r))))
                            (Token.Term r))
        token_table in
  map (at_ (Token.Row 0 0 NaN "") token_table)
      (sort_term_topic (map (fun r => (Token.Term r, Token.Topic r)) token_table)).

(** [_topic_coordinates]; the strategy [mds] returns a two-dimensional
    array, and the interpreter checks the assertions. *)
Definition _topic_coordinates (mds : frame Qc -> frame fnum)
    (topic_term_dists : frame Qc) (topic_proportion : series fnum)
    : outcome (list Coord.row) :=
  let K := fst (shape topic_term_dists) in
  let mds_res := mds topic_term_dists in
  if ((fst (shape mds_res) =? K) && (snd (shape mds_res) =? 2))%nat then
    (* the frame takes the index of the series; its arrays have K entries *)
    if (length (values topic_proportion) =? K)%nat then
      Ok (map (fun k => Coord.Row (at_ 0%nat (index topic_proportion) k)
                                  (cell mds_res k 0)
                                  (cell mds_res k 1)
                                  (one_based k)
                                  1
                                  (fmul (at_ NaN (values topic_proportion) k)
                                        (Fin (Q2Qc (inject_Z 100)))))
              (seq 0 K))
    else Raise ValueError
  else Raise AssertionError.

(** [prepare] *)
Definition prepare (i : inputs) (R : nat) (lambda_step : Qc)
    (mds : frame Qc -> frame fnum) (plot_opts : list (string * value)) (n_jobs : Z)
    : outcome Prepared.PreparedData :=
  let i := named i in
  _ <- _input_validate round i ;;
  let r := reorder i in
  let topic_freq := topic_freq r in
  let topic_proportion := topic_proportion r in
  let topic_order := topic_order r in
  let topic_term_dists := topic_term_dists' r in
  (* token counts for each term-topic combination (widths of red bars) *)
  let term_topic_freq := _term_topic_freq topic_term_dists topic_freq (term_frequency i) in
  topic_info <- _topic_info topic_term_dists topic_proportion (term_frequency i)
                            term_topic_freq (vocab i) lambda_step R n_jobs ;;
  let token_table := _token_table topic_info term_topic_freq (vocab i) (term_frequency i) in
  topic_coordinates <- _topic_coordinates mds topic_term_dists topic_proportion ;;
  let client_topic_order := map (fun x => x + 1)%nat topic_order in
  Ok (Prepared.Make topic_coordinates topic_info token_table R lambda_step plot_opts
                    client_topic_order).

End Pipeline.

Definition VNat (n : nat) : value := VInt (Z.of_nat n).

(** [PreparedData.to_dict]; a table is exported by columns
    ([to_dict(orient='list')]). *)
Definition to_dict (self : Prepared.PreparedData) : list (string * value) :=
  let coords := Prepared.topic_coordinates self in
  let info := Prepared.topic_info self in
  let tokens := Prepared.token_table self in
  [ ("mdsDat",
     VDict [ ("Freq", VList (map (fun r => VNum (Coord.Freq r)) coords));
             ("cluster", VList (map (fun r => VNat (Coord.cluster r)) coords));
             ("topics", VList (map (fun r => VNat (Coord.topics r)) coords));
             ("x", VList (map (fun r => VNum (Coord.x r)) coords));
             ("y", VList (map (fun r => VNum (Coord.y r)) coords)) ]);
    ("tinfo",
     VDict [ ("Category", VList (map (fun r => VStr (Info.Category r)) info));
             ("Freq", VList (map (fun r => VNum (Info.Freq r)) info));
             ("Term", VList (map (fun r => VStr (Info.Term r)) info));
             ("Total", VList (map (fun r => VNum (Fin (Info.Total r))) info));
             ("loglift", VList (map (fun r => VNum (Info.loglift r)) info));
             ("logprob", VList (map (fun r => VNum (Info.logprob r)) info)) ]);
    ("token.table",
     VDict [ ("Topic", VList (map (fun r => VNat (Token.Topic r)) tokens));
             ("Freq", VList (map (fun r => VNum (Token.Freq r)) tokens));
             ("Term", VList (map (fun r => VStr (Token.Term r)) tokens)) ]);
    ("R", VNat (Prepared.R self));
    ("lambda.step", VNum (Fin (Prepared.lambda_step self)));
    ("plot.opts", VDict (Prepared.plot_opts self));
    ("topic.order", VList (map VNat (Prepared.topic_order self))) ].

(** [d[key]] *)
Fixpoint lookup (key : string) (d : list (string * value)) : option value :=
  match d with
  | [] => None
  | (k, v) :: d' => if String.eqb key k then Some v else lookup key d'
  end.

(** ** The distance of the default strategy: [jensen_shannon] *)

(** [a + b] for two one-dimensional arrays: elementwise; an array of one
    element is broadcast, and other lengths that differ raise
    [ValueError]. *)
Definition array_add (a b : list fnum) : outcome (list fnum) :=
  if (length a =? length b)%nat then
    Ok (map (fun '(x, y) => fadd x y) (combine a b))
  else
    match a, b with
    | [x], _ => Ok (map (fadd x) b)
    | _, [y] => Ok (map (fun x => fadd x y) a)
    | _, _ => Raise ValueError
    end.

Section JensenShannon.

(** [scipy.stats.entropy(pk, qk)] *)
Variable entropy : list fnum -> list fnum -> outcome fnum.

Definition jensen_shannon (_P _Q : list fnum) : outcome fnum :=
  s <- array_add _P _Q ;;
  let _M := map (fmul (Fin (Q2Qc (1 # 2)))) s in
  a <- entropy _P _M ;;
  b <- entropy _Q _M ;;
  Ok (fmul (Fin (Q2Qc (1 # 2))) (fadd a b)).

End JensenShannon.

(** ** The contracts of the sorts *)

(** [Series.order(ascending=False)] and [DataFrame.sort(column,
    ascending=False)] return the positions of their argument, each once,
    with the values in descending order and the nulls last. *)
Definition sorts_descending (sort : list fnum -> list nat) : Prop :=
  (forall l, Permutation (sort l) (seq 0 (length l))) /\
  (forall l, StronglySorted (fun x y => before_desc x y = true)
               (map (at_ NaN l) (sort l))).

(** The order of [DataFrame.sort(['Term', 'Topic'])]: by term, then by
    topic. *)
Definition term_topic_leb (a b : string * nat) : bool :=
  String.ltb (fst a) (fst b) || (String.eqb (fst a) (fst b) && (snd a <=? snd b)%nat).

Definition sorts_by_term_topic (sort : list (string * nat) -> list nat) : Prop :=
  (forall l, Permutation (sort l) (seq 0 (length l))) /\
  (forall l, StronglySorted (fun a b => term_topic_leb a b = true)
               (map (at_ (""%string, 0%nat) l) (sort l))).

(** ** The notions of the specification *)

Section Relevance.
Variable log : fnum -> fnum.
Variable order_desc : list fnum -> list nat.

(** [relevance(lambda, term) = lambda * log(TopicTermDist(topic, term))
    + (1 - lambda) * log(TopicTermDist(topic, term) / term_proportion(term))],
    with [term_proportion = TermFrequency / sum(TermFrequency)]. *)
Definition relevance_of (topic_term_dists : frame Qc) (term_frequency : list Qc)
    (lambda_ : Qc) (topic term : nat) : fnum :=
  let p := Fin (cell topic_term_dists topic term) in
  let term_proportion := at_ NaN (normalize term_frequency) term in
  fadd (fmul (Fin lambda_) (log p))
       (fmul (Fin (1 - lambda_)%Qc) (log (fdiv p term_proportion))).

(** The top-[R] terms of a topic, ranked descending by relevance. *)
Definition top_terms_of (topic_term_dists : frame Qc) (term_frequency : list Qc)
    (R : nat) (lambda_ : Qc) (topic : nat) : list nat :=
  firstn R (order_desc (map (relevance_of topic_term_dists term_frequency lambda_ topic)
                            (seq 0 (ncols topic_term_dists)))).

End Relevance.

(** The terms that the topic-info table holds for the topic of a number. *)
Definition topic_terms (info : list Info.row) (topic_id : nat) : list nat :=
  map Info.ix
      (filter (fun r => String.eqb (Info.Category r) ("Topic" ++ decimal topic_id)) info).

(** The sweep [0, step, 2 * step, ..., n * step]. *)
Definition sweep (step : Qc) (n : nat) : list Qc :=
  map (fun k => (0 + Q2Qc (inject_Z (Z.of_nat k)) * step)%Qc) (seq 0 (S n)).

(** A count: a non-negative integer. *)
Definition is_count (x : Qc) : Prop :=
  exists n : nat, x = Q2Qc (inject_Z (Z.of_nat n)).

(** ** Definitions named for the proofs *)

(** The two tables of logarithms of [_topic_info], named for the proofs. *)
Definition log_ttd_of (log : fnum -> fnum) (topic_term_dists : frame Qc) : frame fnum :=
  Frame (nrows topic_term_dists) (ncols topic_term_dists) (frame_index topic_term_dists)
        (fun k w => log (Fin (cell topic_term_dists k w))).

Definition log_lift_of (log : fnum -> fnum) (topic_term_dists : frame Qc)
    (term_frequency : list Qc) : frame fnum :=
  Frame (nrows topic_term_dists) (ncols topic_term_dists) (frame_index topic_term_dists)
        (fun k w => log (fdiv (Fin (cell topic_term_dists k w))
                              (at_ NaN (normalize term_frequency) w))).

(** The rows of [_token_table] before its final sort, named for the
    proofs. *)
Definition token_rows (topic_info : list Info.row) (term_topic_freq : frame fnum)
    (vocab : list string) (term_frequency : list Qc) : list Token.row :=
  let term_ix := isort Nat.leb (unique (map Info.ix topic_info)) in
  let top_topic_terms_freq := select_columns term_topic_freq term_ix in
  let K := nrows term_topic_freq in
  let token_table :=
    flat_map (fun c => map (fun k => (at_ 0%nat term_ix c, one_based k,
                                      cell top_topic_terms_freq k c))
                           (seq 0 K))
             (seq 0 (length term_ix)) in
  let token_table :=
    filter (fun '(term, Topic, Freq) => fge Freq (Fin (Q2Qc (1 # 2)))) token_table in
  let token_table :=
    map (fun '(term, Topic, Freq) => (term, Topic, fround Freq)) token_table in
  let token_table :=
    map (fun '(term, Topic, Freq) => Token.Row term Topic Freq (at_ "" vocab term))
        token_table in
  map (fun r => Token.Row (Token.term r) (Token.Topic r)
                          (fdiv (Token.Freq r)
                                (Fin (at_ 0%Qc term_frequency (Token.term r))))
                          (Token.Term r))
      token_table.

(** The saliency of the terms in [_topic_info], named for the proofs. *)
Definition saliency_of (log : fnum -> fnum) (nansum : list fnum -> fnum)
    (topic_term_dists : frame Qc) (topic_proportion : series fnum)
    (term_frequency : list Qc) : list fnum :=
  let K := nrows topic_term_dists in
  let W := ncols topic_term_dists in
  let topics := frame_index topic_term_dists in
  let term_proportion := normalize term_frequency in
  let sums := column_sums topic_term_dists in
  let topic_given_term :=
    Frame K W topics (fun k w => fdiv (Fin (cell topic_term_dists k w))
                                      (Fin (at_ 0%Qc sums w))) in
  let kernel :=
    Frame K W topics
          (fun k w => fmul (cell topic_given_term k w)
                           (log (fdiv (cell topic_given_term k w)
                                      (at_ NaN (values topic_proportion) k)))) in
  let distinctiveness := map (fun w => nansum (column kernel w)) (seq 0 W) in
  map (fun w => fmul (at_ NaN term_proportion w) (at_ NaN distinctiveness w))
      (seq 0 W).

(** The rows of the default view in [_topic_info], named for the proofs:
    the terms [default_terms] with the ranks [R, R - 1, ...]. *)
Definition default_rows (vocab : list string) (term_frequency : list Qc) (R : nat)
    (default_terms : list nat) : list Info.row :=
  map (fun '(j, w) =>
         let rank := Fin (Q2Qc (inject_Z (Z.of_nat (R - j)))) in
         Info.Row w (at_ "" vocab w)
                  (Fin (at_ 0%Qc term_frequency w))
                  (at_ 0%Qc term_frequency w)
                  rank rank "Default")
      (combine (seq 0 R) default_terms).

(** Equality of two values, decided. *)
Definition fnum_eqb (x y : fnum) : bool :=
  match x, y with
  | Fin a, Fin b => Qc_eq_bool a b
  | PInf, PInf | NInf, NInf | NaN, NaN => true
  | _, _ => false
  end.

(** ** The instances and the inputs of the examples *)

(** The instance for [DataFrame.sort(['Term', 'Topic'])]. *)
Definition stable_sort_term_topic (l : list (string * nat)) : list nat :=
  argsort_by term_topic_leb (""%string, 0%nat) l.

(** The builtin [round] of Python 3: to [ndigits] decimals, a tie to the
    even neighbour. *)
Definition round_py3 (x : Qc) (ndigits : Z) : Qc :=
  (Q2Qc (inject_Z (round_half_even (x * pow10 ndigits))) / pow10 ndigits)%Qc.

(** A rational stand-in for [numpy.log] in the examples: the lower bound
    [1 - 1/x] of the logarithm, with its values at [0] and at infinity. *)
Definition log_lower (x : fnum) : fnum :=
  match x with
  | Fin q =>
      match (q ?= 0)%Qc with
      | Eq => NInf
      | Lt => NaN
      | Gt => Fin (1 - / q)%Qc
      end
  | PInf => PInf
  | NInf => NaN
  | NaN => NaN
  end.

(** Rationals and input tables of the examples. *)
Definition qc (n : Z) (d : positive) : Qc := Q2Qc (n # d).

Definition table (w : nat) (rows : list (list Qc)) : frame Qc :=
  frame_of_rows 0%Qc w rows.

(** A strategy for the examples: the first two columns of the matrix. *)
Definition first_two_columns (f : frame Qc) : frame fnum :=
  Frame (nrows f) 2 (frame_index f) (fun k c => Fin (cell f k c)).

(** The example of the specification: two topics, three terms, two
    documents. *)
Definition example_inputs : inputs :=
  Inputs (table 3 [[qc 7 10; qc 2 10; qc 1 10]; [qc 1 10; qc 3 10; qc 6 10]])
         (table 2 [[qc 9 10; qc 1 10]; [qc 2 10; qc 8 10]])
         [qc 10 1; qc 20 1]
         ["a"; "b"; "c"]
         [qc 5 1; qc 10 1; qc 15 1].

(** The run of the examples: four cpus, two terms for each topic, a sweep
    of step [1/4], the default [n_jobs]. *)
Definition example_run : outcome Prepared.PreparedData :=
  prepare round_py3 4 log_lower nansum_zero stable_argsort_desc stable_argsort_desc
          stable_sort_term_topic example_inputs 2 (qc 1 4) first_two_columns
          [("xlab", VStr "PC1"); ("ylab", VStr "PC2")] (-1).

(** [_topic_info] on the reordered tables of [example_inputs]. *)
Definition example_topic_info : outcome (list Info.row) :=
  let r := reorder stable_argsort_desc (named example_inputs) in
  _topic_info 4 log_lower nansum_zero stable_argsort_desc stable_argsort_desc
              (topic_term_dists' r) (topic_proportion r)
              (term_frequency example_inputs)
              (_term_topic_freq (topic_term_dists' r) (topic_freq r)
                                (term_frequency example_inputs))
              (vocab example_inputs) (qc 1 4) 2 (-1).

(** A topic-info table for the examples that refers to the terms 0 and 2. *)
Definition two_term_info : list Info.row :=
  [ Info.Row 0 "a" NaN (qc 5 1) NaN NaN "Default";
    Info.Row 2 "c" NaN (qc 15 1) NaN NaN "Topic1" ].

(** Two topics and one document of length zero: every check passes, and the
    total mass of the topics is zero. *)
Definition massless_inputs : inputs :=
  Inputs (table 1 [[qc 1 1]; [qc 1 1]])
         (table 2 [[qc 1 2; qc 1 2]])
         [qc 0 1]
         ["a"]
         [qc 1 1].

(** One topic, two terms; the second term has probability zero in the topic
    and occurs three times in the corpus. *)
Definition zero_term_inputs : inputs :=
  Inputs (table 2 [[qc 1 1; qc 0 1]])
         (table 1 [[qc 1 1]])
         [qc 10 1]
         ["a"; "b"]
         [qc 5 1; qc 3 1].

(** One topic and one term, with a fractional term frequency. *)
Definition fractional_inputs : inputs :=
  Inputs (table 1 [[qc 1 1]])
         (table 1 [[qc 1 1]])
         [qc 3 2]
         ["a"]
         [qc 3 2].

(** The run of [prepare] on [fractional_inputs], one term for each topic. *)
Definition fractional_run : outcome Prepared.PreparedData :=
  prepare round_py3 4 log_lower nansum_zero stable_argsort_desc stable_argsort_desc
          stable_sort_term_topic fractional_inputs 1 (qc 1 4) first_two_columns
          [] (-1).

(** A stand-in for [numpy.log] that is exact where its argument is a power
    of two: the logarithm to base 2.  [numpy.log] is this logarithm times
    [ln 2], a positive number, so it ranks the terms in the same order.  On
    another positive rational the difference of the integer logarithms of
    the numerator and the denominator stands for it. *)
Definition log_binary (x : fnum) : fnum :=
  match x with
  | Fin q =>
      match (q ?= 0)%Qc with
      | Eq => NInf
      | Lt => NaN
      | Gt => Fin (Q2Qc (inject_Z (Z.log2 (Qnum q) - Z.log2 (Zpos (Qden q)))))
      end
  | PInf => PInf
  | NInf => NaN
  | NaN => NaN
  end.

(** One topic and four terms.  The topic gives the terms the probabilities
    1/2, 1/4, 1/4 and 0; the corpus holds them 16 times, once, 256 times and
    239 times, so that the proportions of the first three are 1/32, 1/512
    and 1/2.  Every logarithm that [_topic_info] takes on this input is the
    logarithm of a power of two, or of zero. *)
Definition skewed_inputs : inputs :=
  Inputs (table 4 [[qc 1 2; qc 1 4; qc 1 4; qc 0 1]])
         (table 1 [[qc 1 1]])
         [qc 512 1]
         ["a"; "b"; "c"; "d"]
         [qc 16 1; qc 1 1; qc 256 1; qc 239 1].

(** The run of [prepare] on [skewed_inputs]: one term for each topic, and a
    sweep of step [2/3]. *)
Definition skewed_run : outcome Prepared.PreparedData :=
  prepare round_py3 4 log_binary nansum_zero stable_argsort_desc stable_argsort_desc
          stable_sort_term_topic skewed_inputs 1 (qc 2 3) first_two_columns
          [] (-1).

(** A rational stand-in for [scipy.stats.entropy] in the examples: the two
    arrays are normalized and the terms [p * log (p / q)] summed, with
    [log_lower] for the logarithm; arrays of different lengths raise
    [ValueError]. *)
Definition entropy_lower (pk qk : list fnum) : outcome fnum :=
  if (length pk =? length qk)%nat then
    let p := map (fun x => fdiv x (fsum pk)) pk in
    let q := map (fun x => fdiv x (fsum qk)) qk in
    Ok (fsum (map (fun '(x, y) => fmul x (log_lower (fdiv x y))) (combine p q)))
  else Raise ValueError.

(** The inputs of the example with a vocabulary of two terms for its three
    columns. *)
Definition short_vocab_inputs : inputs :=
  Inputs (topic_term_dists example_inputs) (doc_topic_dists example_inputs)
         (doc_lengths example_inputs) ["a"; "b"] (term_frequency example_inputs).

(** Three topics, each with a term of its own, and three documents, each of
    one topic; the first document is as long as the two others together.
    The proportions of the topics are 1/2, 1/4 and 1/4, those of the terms
    1/4, 1/2 and 1/4: the saliencies of the terms differ, and every
    logarithm taken is that of a power of two, or of zero. *)
Definition exclusive_inputs : inputs :=
  Inputs (table 3 [[qc 1 1; qc 0 1; qc 0 1]; [qc 0 1; qc 1 1; qc 0 1];
                   [qc 0 1; qc 0 1; qc 1 1]])
         (table 3 [[qc 1 1; qc 0 1; qc 0 1]; [qc 0 1; qc 1 1; qc 0 1];
                   [qc 0 1; qc 0 1; qc 1 1]])
         [qc 2 1; qc 1 1; qc 1 1]
         ["a"; "b"; "c"]
         [qc 1 1; qc 2 1; qc 1 1].

(** [_topic_info] on the reordered tables of [exclusive_inputs], two terms
    for each topic. *)
Definition exclusive_topic_info : outcome (list Info.row) :=
  let r := reorder stable_argsort_desc (named exclusive_inputs) in
  _topic_info 4 log_binary nansum_zero stable_argsort_desc stable_argsort_desc
              (topic_term_dists' r) (topic_proportion r)
              (term_frequency exclusive_inputs)
              (_term_topic_freq (topic_term_dists' r) (topic_freq r)
                                (term_frequency exclusive_inputs))
              (vocab exclusive_inputs) (qc 1 4) 2 (-1).
(** * Properties *)

Local Open Scope list_scope.

(** ** The partition of the sweep *)

Section ChunksFacts.
Context {A : Type}.

Lemma slice_nonneg (l : list A) (i n : nat) :
  Py.slice l (Z.of_nat i) (Z.of_nat i + Z.of_nat n) = firstn n (skipn i l).
Proof.
  unfold Py.slice, Py.clip, Py.len.
  destruct (Z.ltb_spec (Z.of_nat i) 0); [lia|].
  destruct (Z.ltb_spec (Z.of_nat i + Z.of_nat n) 0); [lia|].
  destruct (Nat.le_gt_cases (length l) i) as [Hi|Hi].
  - rewrite !skipn_all2 by lia. now rewrite !firstn_nil.
  - replace (Z.to_nat (Z.min (Z.of_nat i) (Z.of_nat (length l)))) with i by lia.
    destruct (Nat.le_gt_cases (length l) (i + n)) as [Hn|Hn].
    + replace (Z.to_nat (Z.min (Z.of_nat i + Z.of_nat n) (Z.of_nat (length l))))
        with (length l) by lia.
      rewrite !firstn_all2; trivial; rewrite length_skipn; lia.
    + replace (Z.to_nat (Z.min (Z.of_nat i + Z.of_nat n) (Z.of_nat (length l))))
        with (i + n)%nat by lia.
      f_equal. lia.
Qed.

Lemma chunks_from_map (l : list A) (n : nat) (count start : nat) :
  map (fun i => Py.slice l i (i + Z.of_nat n))
      (map (fun i => (0 + Z.of_nat i * Z.of_nat n)%Z) (seq start count))
  = chunks_from l n start count.
Proof.
  revert start. induction count as [|c IH]; intros start; simpl; trivial.
  rewrite IH. f_equal.
  replace (Z.of_nat start * Z.of_nat n)%Z with (Z.of_nat (start * n)) by lia.
  apply slice_nonneg.
Qed.

Lemma range_len_pos (m n : nat) :
  (0 < n)%nat ->
  Z.to_nat (Py.range_len 0 (Z.of_nat m) (Z.of_nat n)) = ((m + n - 1) / n)%nat.
Proof.
  intros Hn. unfold Py.range_len.
  destruct (Z.ltb_spec 0 (Z.of_nat n)); [|lia].
  destruct (Z.ltb_spec 0 (Z.of_nat m)).
  - replace (Z.of_nat m - 0 + Z.of_nat n - 1)%Z with (Z.of_nat (m + n - 1)) by lia.
    rewrite <- Nat2Z.inj_div. apply Nat2Z.id.
  - assert (m = 0)%nat by lia. subst m. simpl.
    rewrite Nat.div_small; lia.
Qed.

Lemma _chunks_pos (l : list A) (n : nat) :
  (0 < n)%nat ->
  _chunks l (Z.of_nat n)
  = Ok (chunks_from l n 0 ((length l + n - 1) / n)).
Proof.
  intros Hn. unfold _chunks, Py.range.
  destruct (Z.eqb_spec (Z.of_nat n) 0); [lia|]. simpl.
  unfold Py.len. rewrite range_len_pos by trivial.
  now rewrite chunks_from_map.
Qed.

Lemma concat_chunks_from (l : list A) (n : nat) (count start : nat) :
  (0 < n)%nat ->
  (length l <= (start + count) * n)%nat ->
  concat (chunks_from l n start count) = skipn (start * n) l.
Proof.
  intros Hn. revert start. induction count as [|c IH]; intros start Hlen; simpl.
  - rewrite skipn_all2; trivial. lia.
  - rewrite IH by lia.
    etransitivity; [|apply (firstn_skipn n)].
    f_equal. rewrite skipn_skipn. reflexivity.
Qed.

Lemma length_chunks_from (l : list A) (n count start : nat) :
  length (chunks_from l n start count) = count.
Proof. revert start. induction count; intros; simpl; auto. Qed.

Lemma chunks_from_sizes (l : list A) (n count start : nat) :
  Forall (fun c => (length c <= n)%nat) (chunks_from l n start count).
Proof.
  revert start. induction count as [|c IH]; intros s; simpl; constructor; auto.
  rewrite length_firstn. lia.
Qed.

Lemma cover_bound (m n : nat) : (0 < n)%nat -> (m <= (m + n - 1) / n * n)%nat.
Proof.
  intros Hn.
  pose proof (Nat.div_mod_eq (m + n - 1) n) as E.
  pose proof (Nat.mod_upper_bound (m + n - 1) n ltac:(lia)) as B.
  nia.
Qed.
End ChunksFacts.

(** C10.  For a positive chunk size [n], [_chunks l n] returns chunks whose
  concatenation, in order, is [l]: each element of the sweep is in exactly
  one chunk, and none is duplicated or dropped. *)
Theorem chunks_concat (A : Type) (l : list A) (n : Z) :
(0 < n)%Z ->
exists cs, _chunks l n = Ok cs /\ concat cs = l.
Proof.
intros Hn.
replace n with (Z.of_nat (Z.to_nat n)) by lia.
rewrite _chunks_pos by lia.
eexists; split; [reflexivity|].
  rewrite concat_chunks_from; [reflexivity|lia|].
  apply cover_bound. lia.
Qed.

Lemma chunks_concat_witness :
(0 < 2)%Z /\
exists cs, _chunks [1; 2; 3; 4; 5]%nat 2 = Ok cs /\ concat cs = [1; 2; 3; 4; 5]%nat.
Proof. split; [lia | apply (@chunks_concat nat [1; 2; 3; 4; 5]%nat 2); lia]. Defined.

(** The number of chunks [_chunks] makes for a positive [n]: [n] is the SIZE
    of a chunk, so there are [ceil (len l / n)] of them. *)
Lemma chunks_count (A : Type) (l : list A) (n : Z) :
  (0 < n)%Z ->
  exists cs, _chunks l n = Ok cs /\
             Z.of_nat (length cs) = ((Py.len l + n - 1) / n)%Z /\
             Forall (fun c => (Py.len c <= n)%Z) cs.
Proof.
  intros Hn.
  pose proof (@_chunks_pos A l (Z.to_nat n) ltac:(lia)) as E.
  rewrite Z2Nat.id in E by lia. rewrite E.
  eexists; split; [reflexivity|]. split.
  - rewrite length_chunks_from. unfold Py.len.
    rewrite Nat2Z.inj_div. f_equal; lia.
  - eapply Forall_impl; [|apply chunks_from_sizes].
    intros c Hc. simpl in Hc. unfold Py.len. lia.
Qed.

(** The number of chunks of [_job_chunks]: the sweep is cut into chunks of
    [n_jobs] values, or of [cpu_count + 1 - n_jobs] values when [n_jobs] is
    negative. *)
Lemma job_chunks_count (A : Type) (cpu_count : Z) (l : list A) (n_jobs : Z) :
  (0 < n_jobs ->
   exists cs, _job_chunks cpu_count l n_jobs = Ok cs /\
              Z.of_nat (length cs) = (Py.len l + n_jobs - 1) / n_jobs)%Z /\
  (n_jobs < 0 -> 0 < cpu_count ->
   exists cs, _job_chunks cpu_count l n_jobs = Ok cs /\
              Z.of_nat (length cs)
              = (Py.len l + (cpu_count + 1 - n_jobs) - 1) / (cpu_count + 1 - n_jobs))%Z.
Proof.
  unfold _job_chunks. split.
  - intros Hn. destruct (Z.ltb_spec n_jobs 0); [lia|].
    destruct (@chunks_count A l n_jobs Hn) as (cs & E & Hlen & _). eauto.
  - intros Hn Hcpu. destruct (Z.ltb_spec n_jobs 0); [|lia].
    destruct (@chunks_count A l (cpu_count + 1 - n_jobs)%Z ltac:(lia))
      as (cs & E & Hlen & _). eauto.
Qed.

(** C7 (evaluated on the code).  With 4 cpus, a sweep of five values and
    [n_jobs = 2], [_job_chunks] makes three chunks of at most two values, not
    two chunks; with [n_jobs = -1] it takes [4 + 1 - (-1) = 6] as the chunk
    size and makes a single chunk, not [4 + 1 + (-1) = 4] chunks. *)
Theorem job_chunks_sizes_not_counts :
  _job_chunks 4 [0; 1; 2; 3; 4]%Z 2 = Ok [[0; 1]; [2; 3]; [4]]%Z /\
  _job_chunks 4 [0; 1; 2; 3; 4]%Z (-1) = Ok [[0; 1; 2; 3; 4]]%Z.
Proof. split; reflexivity. Qed.

(** ** Numbers *)

Local Open Scope Qc_scope.

Lemma Qc_leb_le (x y : Qc) : Qc_leb x y = true <-> x <= y.
Proof. apply Qle_bool_iff. Qed.

Lemma Qc_ltb_lt (x y : Qc) : Qc_ltb x y = true <-> x < y.
Proof.
  unfold Qc_ltb. rewrite negb_true_iff, <- not_true_iff_false.
  change (Qle_bool y x = true) with (Qc_leb y x = true).
  rewrite Qc_leb_le. split.
  - apply Qcnot_le_lt.
  - apply Qclt_not_le.
Qed.

Lemma Qc_eq_bool_iff (x y : Qc) : Qc_eq_bool x y = true <-> x = y.
Proof.
  split; [apply Qc_eq_bool_correct|].
  intros ->. unfold Qc_eq_bool. now destruct (Qc_eq_dec y y).
Qed.

Lemma fnum_eqb_eq (x y : fnum) : fnum_eqb x y = true -> x = y.
Proof.
  destruct x, y; simpl; try discriminate; trivial.
  intros H. f_equal. now apply Qc_eq_bool_correct.
Qed.

Lemma fnums_eq (l l' : list fnum) :
  Forall2 (fun x y => fnum_eqb x y = true) l l' -> l = l'.
Proof.
  induction 1 as [|x y l l' Hxy _ IH]; [reflexivity|].
  apply fnum_eqb_eq in Hxy. congruence.
Qed.

Lemma Qc_list_eq (l l' : list Qc) : map this l = map this l' -> l = l'.
Proof.
  revert l'. induction l as [|x l IH]; intros [|y l'] H; try discriminate; trivial.
  cbn [map] in H. injection H as Hxy Hl.
  f_equal; [|now apply IH].
  apply Qc_is_canon. rewrite Hxy. reflexivity.
Qed.

(** ** Validation *)

Lemma Qsum_snoc (l : list Qc) (x : Qc) : Qsum (l ++ [x]) = Qsum l + x.
Proof.
  unfold Qsum. induction l as [|y l IH]; cbn [app fold_right]; [ring|].
  rewrite IH. ring.
Qed.

(** [int] truncates: the quotient of the numerator by the denominator,
    towards zero. *)
Lemma truncation_int (x : Qc) : truncation x = py_int x.
Proof.
  destruct x as [[n d] Hc]. unfold truncation, py_int, Qc_leb. cbn [this Qnum Qden].
  destruct (Qle_bool _ (n # d)) eqn:E.
  - apply Qle_bool_iff in E. unfold Qle in E. cbn in E.
    unfold Qfloor. apply Z.quot_div_nonneg; lia.
  - assert (Hn : (n < 0)%Z).
    { destruct (Z.ltb_spec n 0) as [|Hge]; trivial.
      apply not_true_iff_false in E. elim E.
      apply Qle_bool_iff. unfold Qle. cbn. lia. }
    unfold Qceiling, Qfloor. cbn [Qopp Qnum Qden].
    rewrite <- (Z.opp_involutive n) at 1.
    rewrite Z.quot_opp_l by lia. f_equal.
    apply Z.quot_div_nonneg; lia.
Qed.

Section ValidationFacts.
Variable round : Qc -> Z -> Qc.

Lemma row_total_sum (m : frame Qc) (i width : nat) :
  row_total m i width = Qsum (map (cell m i) (seq 0 width)).
Proof.
  induction width as [|j IH]; [reflexivity|].
  rewrite seq_S, map_app. cbn [map Nat.add row_total].
  now rewrite Qsum_snoc, IH.
Qed.

Lemma rounded_total_sum (m : frame Qc) (n : nat) :
  rounded_total round m n
  = Qsum (map (fun x => round x 2) (map (fun i => Qsum (row m i)) (seq 0 n))).
Proof.
  induction n as [|i IH]; [reflexivity|].
  rewrite seq_S, !map_app. cbn [map Nat.add rounded_total].
  rewrite Qsum_snoc, IH. unfold row. now rewrite row_total_sum.
Qed.

Lemma num_dist_rows_spec (m : frame Qc) :
  (__num_dist_rows__ round m 2 =? Z.of_nat (nrows m))%Z = true
  <-> rows_sum_to_one round m.
Proof.
  unfold rows_sum_to_one, __num_dist_rows__, row_sums.
  rewrite truncation_int, rounded_total_sum. apply Z.eqb_eq.
Qed.

Lemma input_check_violated (i : inputs) :
  _input_check round i = match violated round i with [] => None | res => Some res end.
Proof.
  unfold _input_check, violated, violations, err, shape; simpl.
  destruct (negb (ncols (doc_topic_dists i) =? nrows (topic_term_dists i))%nat),
    (negb (length (doc_lengths i) =? nrows (doc_topic_dists i))%nat),
    (negb (ncols (topic_term_dists i) =? length (vocab i))%nat),
    (negb (length (term_frequency i) =? length (vocab i))%nat),
    (negb (__num_dist_rows__ round (topic_term_dists i) 2
           =? Z.of_nat (nrows (topic_term_dists i)))%Z),
    (negb (__num_dist_rows__ round (doc_topic_dists i) 2
           =? Z.of_nat (nrows (doc_topic_dists i)))%Z);
    reflexivity.
Qed.

Lemma input_validate_violated (i : inputs) :
  _input_validate round i =
  match violated round i with
  | [] => Ok tt
  | res => Raise (ValidationError (bulleted res))
  end.
Proof.
  unfold _input_validate. rewrite input_check_violated.
  now destruct (violated round i).
Qed.

End ValidationFacts.

Lemma messages_distinct :
  NoDup [msg_topics; msg_docs; msg_vocab; msg_term_frequency; msg_ttd_rows; msg_dtd_rows].
Proof.
  repeat constructor; simpl; intuition;
    match goal with
    | H : _ = _ |- _ => apply String.eqb_eq in H; vm_compute in H; discriminate H
    end.
Qed.

Lemma flagged_NoDup {B : Type} (checks : list (bool * B)) :
  NoDup (map snd checks) -> NoDup (map snd (filter fst checks)).
Proof.
  induction checks as [|[flag m] checks IH]; simpl; intros H; [constructor|].
  inversion H as [|? ? Hn Hd]; subst.
  destruct flag; simpl; auto.
  constructor; auto.
  intros Hin. apply Hn.
  apply in_map_iff in Hin as (c & E & Hc).
  apply filter_In in Hc as [Hc _].
  rewrite <- E. now apply in_map.
Qed.

Lemma in_flagged {B : Type} (l : list (bool * B)) (m : B) :
  In m (map snd (filter fst l)) <-> In (true, m) l.
Proof.
  rewrite in_map_iff. split.
  - intros ([b m'] & E & Hin). simpl in E; subst m'.
    apply filter_In in Hin as [Hin Hb]. simpl in Hb. now subst b.
  - intros Hin. exists (true, m). split; trivial.
    apply filter_In. now split.
Qed.

Lemma violations_messages (round : Qc -> Z -> Qc) (i : inputs) :
  map snd (violations round i)
  = [msg_topics; msg_docs; msg_vocab; msg_term_frequency; msg_ttd_rows; msg_dtd_rows].
Proof. reflexivity. Qed.

Lemma flag_of_message {B : Type} (l : list (bool * B)) (b b' : bool) (m : B) :
  NoDup (map snd l) -> In (b, m) l -> In (b', m) l -> b = b'.
Proof.
  induction l as [|[c x] l IH]; simpl; intros Hnd H1 H2; [contradiction|].
  inversion Hnd as [|? ? Hn Hd]; subst.
  destruct H1 as [E1|H1], H2 as [E2|H2].
  - congruence.
  - inversion E1; subst. exfalso. apply Hn.
    change m with (snd (b', m)). now apply in_map.
  - inversion E2; subst. exfalso. apply Hn.
    change m with (snd (b, m)). now apply in_map.
  - auto.
Qed.

(** *** The text of the error *)

Lemma lines_app (s t : string) :
  one_line s = true -> lines (s ++ nl ++ t)%string = s :: lines t.
Proof.
  induction s as [|c s IH]; intros Hs; [reflexivity|].
  cbn [one_line] in Hs. apply andb_true_iff in Hs as [Hc Hs].
  apply negb_true_iff in Hc.
  cbn [String.append lines]. rewrite Hc.
  change (s ++ String (ascii_of_nat 10) t)%string with (s ++ nl ++ t)%string.
  now rewrite IH.
Qed.

Lemma lines_one_line (s : string) : one_line s = true -> lines s = [s].
Proof.
  induction s as [|c s IH]; intros Hs; [reflexivity|].
  cbn [one_line] in Hs. apply andb_true_iff in Hs as [Hc Hs].
  apply negb_true_iff in Hc. cbn [lines]. rewrite Hc. now rewrite IH.
Qed.

Lemma lines_concat (bs : list string) :
  Forall (fun b => one_line b = true) bs -> bs <> [] ->
  lines (String.concat nl bs) = bs.
Proof.
  induction bs as [|b bs IH]; intros Hall Hne; [now elim Hne|].
  inversion Hall as [|? ? Hb Hbs]; subst.
  destruct bs as [|b' bs].
  - cbn [String.concat]. now apply lines_one_line.
  - change (String.concat nl (b :: b' :: bs))
      with (b ++ nl ++ String.concat nl (b' :: bs))%string.
    rewrite lines_app by exact Hb. f_equal. apply IH; [exact Hbs|discriminate].
Qed.

(** The entries of the text that [_input_validate] raises are the messages
    it was made of, one for each and in their order. *)
Lemma entries_bulleted (res : list string) :
  Forall (fun m => one_line m = true) res -> entries (bulleted res) = res.
Proof.
  intros Hall. unfold entries, bulleted.
  change (nl ++ String.concat nl (map (fun s => " * " ++ s) res))%string
    with ("" ++ nl ++ String.concat nl (map (fun s => " * " ++ s) res))%string.
  rewrite lines_app by reflexivity. cbn [flat_map entry app].
  destruct res as [|m res]; [reflexivity|].
  rewrite lines_concat.
  - clear Hall. generalize (m :: res). intros l.
    induction l as [|x l IH]; [reflexivity|].
    cbn [map flat_map]. rewrite IH. reflexivity.
  - rewrite Forall_map. eapply Forall_impl; [|exact Hall].
    intros x Hx. exact Hx.
  - discriminate.
Qed.

Lemma string_app_assoc (a b c : string) : ((a ++ b) ++ c = a ++ b ++ c)%string.
Proof. induction a as [|x a IH]; cbn [String.append]; congruence. Qed.

(** The text written out: a line feed and a bullet before each message. *)
Lemma bulleted_text (res : list string) :
  res <> [] ->
  bulleted res = String.concat "" (map (fun m => nl ++ " * " ++ m)%string res).
Proof.
  induction res as [|m res IH]; intros Hne; [now elim Hne|].
  destruct res as [|m' res]; [reflexivity|].
  assert (IH' := IH ltac:(discriminate)). clear IH.
  unfold bulleted in *.
  change (String.concat "" (map (fun m => nl ++ " * " ++ m)%string (m :: m' :: res)))
    with ((nl ++ " * " ++ m) ++ "" ++
          String.concat "" (map (fun m => nl ++ " * " ++ m)%string (m' :: res)))%string.
  rewrite <- IH'.
  change (String.concat nl (map (fun s => " * " ++ s)%string (m :: m' :: res)))
    with ((" * " ++ m) ++ nl ++
          String.concat nl (map (fun s => " * " ++ s)%string (m' :: res)))%string.
  rewrite !string_app_assoc. reflexivity.
Qed.

Lemma violated_one_line (round : Qc -> Z -> Qc) (i : inputs) :
  Forall (fun m => one_line m = true) (violated round i).
Proof.
  apply Forall_forall. intros m Hm. unfold violated in Hm.
  apply in_flagged in Hm.
  assert (Hin : In m (map snd (violations round i))).
  { change m with (snd (true, m)). now apply in_map. }
  rewrite violations_messages in Hin. cbn [In] in Hin.
  decompose [or] Hin; subst; try reflexivity. contradiction.
Qed.


(** C4.  [_input_check] evaluates its six checks whatever the outcome of the
    others, and collects one message for each violated check, in the order
    of the checks; [_input_validate] raises one [ValidationError], carrying
    all of them, exactly when a check is violated, and returns otherwise.
    The text of the error is a line feed and [" * "] before each message;
    read bullet by bullet it gives the messages of the violated checks
    back, one entry for each. *)
Theorem validation_collects (round : Qc -> Z -> Qc) (i : inputs) :
  length (violations round i) = 6%nat /\
  (forall b m, In (b, m) (violations round i) ->
     (In m (violated round i) <-> b = true)) /\
  NoDup (violated round i) /\
  _input_check round i
  = match violated round i with [] => None | res => Some res end /\
  _input_validate round i
  = match violated round i with
    | [] => Ok tt
    | res => Raise (ValidationError (bulleted res))
    end /\
  ((exists b m, In (b, m) (violations round i) /\ b = true)
   <-> exists msg, _input_validate round i = Raise (ValidationError msg)) /\
  ((forall b m, In (b, m) (violations round i) -> b = false)
   <-> _input_validate round i = Ok tt) /\
  (forall text, _input_validate round i = Raise (ValidationError text) ->
     text = String.concat "" (map (fun m => nl ++ " * " ++ m)%string (violated round i)) /\
     entries text = violated round i /\
     length (entries text) = length (filter fst (violations round i)) /\
     forall b m, In (b, m) (violations round i) ->
       (In m (entries text) <-> b = true)).
Proof.
  assert (Hflag : forall b m, In (b, m) (violations round i) ->
                    (In m (violated round i) <-> b = true)).
  { intros b m Hin. unfold violated. rewrite in_flagged. split.
    - intros Ht. eapply flag_of_message; eauto.
      rewrite violations_messages. apply messages_distinct.
    - now intros ->. }
  split; [reflexivity|]. split; [exact Hflag|]. split.
  { unfold violated. apply flagged_NoDup.
    rewrite violations_messages. apply messages_distinct. }
  split; [apply input_check_violated|].
  split; [apply input_validate_violated|].
  rewrite input_validate_violated. split; [split|split; [split|]].
  - intros (b & m & Hin & ->).
    apply Hflag in Hin. destruct Hin as [_ Hin]. specialize (Hin eq_refl).
    destruct (violated round i); [contradiction|]. eauto.
  - intros [msg Hmsg].
    destruct (violated round i) as [|s l] eqn:E; [discriminate|].
    assert (Hs : In s (violated round i)) by (rewrite E; now left).
    unfold violated in Hs. apply in_flagged in Hs. eauto.
  - intros Hall.
    destruct (violated round i) as [|s l] eqn:E; [reflexivity|].
    assert (Hs : In s (violated round i)) by (rewrite E; now left).
    unfold violated in Hs. apply in_flagged in Hs.
    apply Hall in Hs. discriminate.
  - intros Hok b m Hin.
    destruct b; trivial.
    apply Hflag in Hin. destruct Hin as [_ Hin]. specialize (Hin eq_refl).
    destruct (violated round i); [contradiction|discriminate].
  - intros text Htext.
    pose proof (entries_bulleted (violated_one_line round i)) as Hentries.
    assert (E : text = bulleted (violated round i)).
    { destruct (violated round i); [discriminate|]. now inversion Htext. }
    subst text. rewrite Hentries. split; [|split; [reflexivity|split]].
    + destruct (violated round i) as [|s l]; [discriminate|].
      apply bulleted_text. discriminate.
    + unfold violated. now rewrite length_map.
    + exact Hflag.
Qed.

(** ** Sorting *)

Section InsertionSortFacts.
Context {A : Type}.
Variable before : A -> A -> bool.

Lemma insert_perm (x : A) (l : list A) : Permutation (insert before x l) (x :: l).
Proof.
  induction l as [|y l IH]; simpl; [reflexivity|].
  destruct (before x y); [reflexivity|].
  rewrite IH. apply perm_swap.
Qed.

Lemma isort_perm (l : list A) : Permutation (isort before l) l.
Proof.
  induction l as [|x l IH]; simpl; [reflexivity|].
  rewrite insert_perm. now constructor.
Qed.

Hypothesis before_total : forall x y, before x y = true \/ before y x = true.

Lemma insert_sorted (x : A) (l : list A) :
  Sorted (fun a b => before a b = true) l ->
  Sorted (fun a b => before a b = true) (insert before x l).
Proof.
  induction l as [|y l IH]; simpl; intros Hs.
  - repeat constructor.
  - destruct (before x y) eqn:E.
    + constructor; [assumption|]. now constructor.
    + inversion Hs as [|? ? Hs' Hd]; subst.
      constructor; [auto|].
      destruct l as [|z l]; simpl.
      * constructor. destruct (before_total x y); congruence.
      * destruct (before x z).
        -- constructor. destruct (before_total x y); congruence.
        -- constructor. now inversion Hd.
Qed.

Lemma isort_sorted (l : list A) :
  Sorted (fun a b => before a b = true) (isort before l).
Proof.
  induction l as [|x l IH]; simpl; [constructor|].
  now apply insert_sorted.
Qed.

Hypothesis before_trans :
  forall x y z, before x y = true -> before y z = true -> before x z = true.

Lemma isort_strongly_sorted (l : list A) :
  StronglySorted (fun a b => before a b = true) (isort before l).
Proof.
  apply Sorted_StronglySorted; [|apply isort_sorted].
  intros x y z. apply before_trans.
Qed.

End InsertionSortFacts.

Lemma argsort_by_perm {A : Type} (before : A -> A -> bool) (d : A) (l : list A) :
  Permutation (argsort_by before d l) (seq 0 (length l)).
Proof. apply isort_perm. Qed.

Lemma StronglySorted_map {A B : Type} (f : A -> B) (R : B -> B -> Prop) (l : list A) :
  StronglySorted (fun a b => R (f a) (f b)) l -> StronglySorted R (map f l).
Proof.
  induction 1 as [|a l Hs IH Hall]; simpl; constructor; auto.
  rewrite Forall_map. exact Hall.
Qed.

Lemma argsort_by_sorted {A : Type} (before : A -> A -> bool) (d : A) (l : list A) :
  (forall x y, before x y = true \/ before y x = true) ->
  (forall x y z, before x y = true -> before y z = true -> before x z = true) ->
  StronglySorted (fun a b => before a b = true)
    (map (fun i => nth i l d) (argsort_by before d l)).
Proof.
  intros Htot Htrans. apply StronglySorted_map.
  apply isort_strongly_sorted.
  - intros i j. apply Htot.
  - intros i j k. apply Htrans.
Qed.

Lemma Qc_leb_total (x y : Qc) : Qc_leb x y = true \/ Qc_leb y x = true.
Proof.
  rewrite !Qc_leb_le.
  destruct (Qclt_le_dec x y) as [H|H]; [left; now apply Qclt_le_weak|now right].
Qed.

Lemma Qc_leb_trans (x y z : Qc) :
  Qc_leb x y = true -> Qc_leb y z = true -> Qc_leb x z = true.
Proof. rewrite !Qc_leb_le. apply Qcle_trans. Qed.

Lemma before_desc_total (x y : fnum) :
  before_desc x y = true \/ before_desc y x = true.
Proof.
  destruct x as [a| | |], y as [b| | |]; simpl; auto.
  unfold before_desc, fge; simpl. apply or_comm, Qc_leb_total.
Qed.

Lemma before_desc_trans (x y z : fnum) :
  before_desc x y = true -> before_desc y z = true -> before_desc x z = true.
Proof.
  destruct x as [a| | |], y as [b| | |], z as [c| | |];
    unfold before_desc, fge; simpl; auto; try discriminate.
  intros H1 H2. eapply Qc_leb_trans; eauto.
Qed.

Lemma stable_argsort_desc_sorted (l : list fnum) :
  StronglySorted (fun x y => before_desc x y = true)
    (map (at_ NaN l) (stable_argsort_desc l)).
Proof.
  apply (argsort_by_sorted before_desc NaN l).
  - apply before_desc_total.
  - apply before_desc_trans.
Qed.

Lemma StronglySorted_weaken {A : Type} (R R' : A -> A -> Prop) (l : list A) :
  (forall x y, In x l -> In y l -> R x y -> R' x y) ->
  StronglySorted R l -> StronglySorted R' l.
Proof.
  intros Himp Hs. induction Hs as [|a l Hs IH Hall]; constructor.
  - apply IH. intros x y Hx Hy. apply Himp; now right.
  - rewrite Forall_forall in *. intros y Hy.
    apply Himp; [now left|now right|auto].
Qed.

Lemma before_desc_descending (l : list fnum) :
  Forall (fun x => isnull x = false) l ->
  StronglySorted (fun x y => before_desc x y = true) l ->
  descending l.
Proof.
  intros Hfin. apply StronglySorted_weaken.
  intros x y Hx Hy. rewrite Forall_forall in Hfin.
  unfold before_desc. rewrite (Hfin x Hx), (Hfin y Hy). simpl. trivial.
Qed.


(** ** The reordering of the topics *)

Lemma position_seq (s n l : nat) : (l < n)%nat -> position (s + l) (seq s n) = l.
Proof.
  revert s l. induction n as [|n IH]; intros s l Hl; [lia|]. simpl.
  destruct l as [|l].
  - now rewrite Nat.add_0_r, Nat.eqb_refl.
  - destruct (Nat.eqb_spec (s + S l) s) as [E|_]; [lia|].
    f_equal. replace (s + S l)%nat with (S s + l)%nat by lia.
    apply IH. lia.
Qed.

Lemma position_nth (l : list nat) (j : nat) :
  NoDup l -> (j < length l)%nat -> position (nth j l 0%nat) l = j.
Proof.
  revert j. induction l as [|x l IH]; intros j Hnd Hj; simpl in *; [lia|].
  inversion Hnd as [|? ? Hx Hnd']; subst.
  destruct j as [|j].
  - now rewrite Nat.eqb_refl.
  - destruct (Nat.eqb_spec (nth j l 0%nat) x) as [E|_].
    + exfalso. apply Hx. rewrite <- E. apply nth_In. lia.
    + f_equal. apply IH; trivial. lia.
Qed.

Lemma length_normalize (s : list Qc) : length (normalize s) = length s.
Proof. unfold normalize. apply length_map. Qed.

Lemma length_column_sums (f : frame Qc) : length (column_sums f) = ncols f.
Proof. unfold column_sums. now rewrite length_map, length_seq. Qed.

Lemma length_topic_mass (i : inputs) : length (topic_mass i) = ncols (doc_topic_dists i).
Proof. unfold topic_mass. now rewrite length_column_sums. Qed.

Lemma fdiv_finite (a b : Qc) : b <> 0%Qc -> fdiv (Fin a) (Fin b) = Fin (a / b)%Qc.
Proof.
  intros Hb. simpl. destruct (Qc_eq_bool b 0) eqn:E; trivial.
  apply Qc_eq_bool_iff in E. contradiction.
Qed.

Lemma normalize_finite (s : list Qc) :
  Qsum s <> 0%Qc -> Forall (fun x => isnull x = false) (normalize s).
Proof.
  intros Hs. unfold normalize. rewrite Forall_map.
  apply Forall_forall. intros x _. now rewrite fdiv_finite.
Qed.

Lemma validated_shapes (round : Qc -> Z -> Qc) (i : inputs) :
  _input_check round i = None ->
  ncols (doc_topic_dists i) = nrows (topic_term_dists i) /\
  length (doc_lengths i) = nrows (doc_topic_dists i) /\
  ncols (topic_term_dists i) = length (vocab i) /\
  length (term_frequency i) = length (vocab i) /\
  rows_sum_to_one round (topic_term_dists i) /\
  rows_sum_to_one round (doc_topic_dists i).
Proof.
  rewrite input_check_violated. unfold violated, violations. simpl.
  rewrite <- !num_dist_rows_spec.
  destruct (Nat.eqb_spec (ncols (doc_topic_dists i)) (nrows (topic_term_dists i)));
    simpl; [|discriminate].
  destruct (Nat.eqb_spec (length (doc_lengths i)) (nrows (doc_topic_dists i)));
    simpl; [|discriminate].
  destruct (Nat.eqb_spec (ncols (topic_term_dists i)) (length (vocab i)));
    simpl; [|discriminate].
  destruct (Nat.eqb_spec (length (term_frequency i)) (length (vocab i)));
    simpl; [|discriminate].
  destruct (__num_dist_rows__ round (topic_term_dists i) 2
            =? Z.of_nat (nrows (topic_term_dists i)))%Z; simpl; [|discriminate].
  destruct (__num_dist_rows__ round (doc_topic_dists i) 2
            =? Z.of_nat (nrows (doc_topic_dists i)))%Z; simpl; [|discriminate].
  auto 10.
Qed.

Lemma permutation_seq_bound (l : list nat) (n j : nat) :
  Permutation l (seq 0 n) -> (j < n)%nat -> (nth j l 0 < n)%nat.
Proof.
  intros Hp Hj.
  assert (Hin : In (nth j l 0%nat) l).
  { apply nth_In. now rewrite (Permutation_length Hp), length_seq. }
  eapply Permutation_in in Hin; [|exact Hp].
  apply in_seq in Hin. lia.
Qed.

Lemma permutation_seq_NoDup (l : list nat) (n : nat) :
  Permutation l (seq 0 n) -> NoDup l.
Proof.
  intros Hp. eapply Permutation_NoDup; [symmetry; exact Hp|apply seq_NoDup].
Qed.

Lemma topic_order_perm (round : Qc -> Z -> Qc) (order_desc : list fnum -> list nat)
    (i : inputs) :
  sorts_descending order_desc ->
  _input_check round (named i) = None ->
  Permutation (topic_order (reorder order_desc (named i)))
              (seq 0 (nrows (topic_term_dists i))).
Proof.
  intros [Hperm _] Hval.
  apply validated_shapes in Hval. destruct Hval as (HK & _). simpl in HK.
  simpl.
  replace (nrows (topic_term_dists i))
    with (length (normalize (topic_mass (named i)))); [apply Hperm|].
  rewrite length_normalize, length_topic_mass. exact HK.
Qed.

(** C5 (amended).  On a validated input, [topic_order] is a permutation of
    the [K] topic numbers, the sorted [topic_proportion] reads the
    normalized masses along it, the rows of [topic_term_dists] and the
    columns of [doc_topic_dists] are permuted by it; and when the total mass
    of the topics is not zero, the proportions along [topic_order] are in
    descending order. *)
Theorem topic_order_sorted (round : Qc -> Z -> Qc) (order_desc : list fnum -> list nat)
    (i : inputs) :
  sorts_descending order_desc ->
  _input_check round (named i) = None ->
  let r := reorder order_desc (named i) in
  let K := nrows (topic_term_dists i) in
  let proportion := normalize (topic_mass (named i)) in
  Permutation (topic_order r) (seq 0 K) /\
  index (topic_proportion r) = topic_order r /\
  values (topic_proportion r) = map (at_ NaN proportion) (topic_order r) /\
  (Qsum (topic_mass (named i)) <> 0%Qc -> descending (values (topic_proportion r))) /\
  topic_freq r = map (at_ 0%Qc (topic_mass (named i))) (topic_order r) /\
  (shape (topic_term_dists' r) = (K, ncols (topic_term_dists i)) /\
   forall j w, (j < K)%nat ->
     cell (topic_term_dists' r) j w
     = cell (topic_term_dists i) (at_ 0%nat (topic_order r) j) w) /\
  (shape (doc_topic_dists' r) = (nrows (doc_topic_dists i), K) /\
   forall d j,
     cell (doc_topic_dists' r) d j
     = cell (doc_topic_dists i) d (at_ 0%nat (topic_order r) j)).
Proof.
  intros Hsort Hval r K proportion.
  pose proof (@topic_order_perm round order_desc i Hsort Hval) as Hp. fold r K in Hp.
  destruct Hsort as [Hperm Hsorted].
  assert (Hlen : length (topic_order r) = K).
  { now rewrite (Permutation_length Hp), length_seq. }
  split; [exact Hp|]. split; [reflexivity|]. split; [reflexivity|].
  split; [|split; [reflexivity|split; split]].
  - intros Hmass. simpl. apply before_desc_descending; [|apply Hsorted].
    rewrite Forall_map. apply Forall_forall. intros j Hj.
    pose proof (@normalize_finite _ Hmass) as Hfin.
    rewrite Forall_forall in Hfin. apply Hfin. apply nth_In.
    apply (Permutation_in j (Hperm _)) in Hj. apply in_seq in Hj. lia.
  - unfold shape. f_equal. exact Hlen.
  - intros j w Hj. simpl. unfold loc. simpl. f_equal.
    apply (position_seq 0). unfold at_.
    eapply permutation_seq_bound; eauto.
  - unfold shape. f_equal. exact Hlen.
  - reflexivity.
Qed.

Lemma stable_argsort_desc_sorts : sorts_descending stable_argsort_desc.
Proof.
  split.
  - intros l. apply argsort_by_perm.
  - apply stable_argsort_desc_sorted.
Qed.

Lemma Qc_neq_by_compute (x y : Qc) : Qeq_bool x y = false -> x <> y.
Proof.
  intros H E. subst y. unfold Qeq_bool in H.
  rewrite Z.eqb_refl in H. discriminate.
Qed.

Lemma topic_order_sorted_witness :
  sorts_descending stable_argsort_desc /\
  _input_check round_py3 (named example_inputs) = None /\
  Qsum (topic_mass (named example_inputs)) <> 0%Qc /\
  let r := reorder stable_argsort_desc (named example_inputs) in
  Permutation (topic_order r) (seq 0 2) /\
  descending (values (topic_proportion r)).
Proof.
  assert (Hval : _input_check round_py3 (named example_inputs) = None)
    by (vm_compute; reflexivity).
  assert (Hmass : Qsum (topic_mass (named example_inputs)) <> 0%Qc)
    by (apply Qc_neq_by_compute; vm_compute; reflexivity).
  split; [apply stable_argsort_desc_sorts|].
  split; [exact Hval|]. split; [exact Hmass|].
  pose proof (@topic_order_sorted round_py3 stable_argsort_desc example_inputs
                stable_argsort_desc_sorts Hval) as H.
  cbv zeta in H. destruct H as (Hp & _ & _ & Hd & _).
  split; [exact Hp|exact (Hd Hmass)].
Defined.

(** C5 (as stated, refuted).  [massless_inputs] passes the validation, and
    whatever the sort does with equal keys the proportions along
    [topic_order] are [nan, nan]: not a descending sequence, since [nan >=
    nan] is false. *)
Lemma topic_order_not_sorted :
  _input_check round_py3 (named massless_inputs) = None /\
  forall order_desc : list fnum -> list nat,
    sorts_descending order_desc ->
    values (topic_proportion (reorder order_desc (named massless_inputs))) = [NaN; NaN] /\
    ~ descending (values (topic_proportion (reorder order_desc (named massless_inputs)))).
Proof.
  split; [vm_compute; reflexivity|].
  intros order_desc [Hperm _].
  assert (E : normalize (topic_mass (named massless_inputs)) = [NaN; NaN])
    by (vm_compute; reflexivity).
  assert (Hv : values (topic_proportion (reorder order_desc (named massless_inputs)))
               = [NaN; NaN]).
  { simpl. rewrite E. specialize (Hperm [NaN; NaN]).
    apply Permutation_length in Hperm. simpl in Hperm.
    destruct (order_desc [NaN; NaN]) as [|a [|b [|c l]]]; try discriminate.
    simpl. f_equal; [|f_equal].
    - unfold at_. now destruct a as [|[|[|a]]].
    - unfold at_. now destruct b as [|[|[|b]]]. }
  split; [exact Hv|].
  rewrite Hv. intros Hd. inversion Hd as [|x l _ Hall]; subst.
  inversion Hall as [|y l' Hge _]; subst. discriminate Hge.
Qed.

(** ** The corrected term-topic frequencies *)

Lemma fsum_finite (l : list Qc) : fsum (map Fin l) = Fin (Qsum l).
Proof. induction l as [|x l IH]; simpl; [reflexivity|]. now rewrite IH. Qed.

Lemma Qsum_scale {A : Type} (f : A -> Qc) (c : Qc) (l : list A) :
  Qsum (map (fun a => f a * c) l) = Qsum (map f l) * c.
Proof.
  induction l as [|a l IH]; simpl; [ring|]. rewrite IH. ring.
Qed.

Lemma nth_map_seq {A : Type} (f : nat -> A) (d : A) (n j : nat) :
  (j < n)%nat -> nth j (map f (seq 0 n)) d = f j.
Proof.
  intros Hj. rewrite (nth_indep _ d (f 0%nat)) by now rewrite length_map, length_seq.
  rewrite (map_nth f (seq 0 n) 0%nat j). now rewrite seq_nth.
Qed.

Lemma term_topic_freq_cell (ttd : frame Qc) (topic_freq tf : list Qc) (k w : nat) :
  (w < ncols ttd)%nat ->
  cell (_term_topic_freq ttd topic_freq tf) k w
  = fmul (Fin (cell (weight_rows ttd topic_freq) k w))
         (fdiv (Fin (at_ 0 tf w)) (Fin (Qsum (column (weight_rows ttd topic_freq) w)))).
Proof.
  intros Hw. unfold _term_topic_freq. cbn [cell]. f_equal.
  unfold at_ at 1. cbn [ncols weight_rows]. rewrite nth_map_seq by trivial.
  do 2 f_equal. unfold at_, column_sums. cbn [ncols weight_rows].
  now rewrite nth_map_seq.
Qed.

(** C1 (amended).  For a term [w] whose raw estimates (the rows of
    [topic_term_dists] scaled by the masses of their topics) do not sum to
    zero over the topics, [_term_topic_freq] rescales each of them by
    [term_frequency[w]] over this sum, and the corrected estimates sum to
    [term_frequency[w]] over the topics, exactly. *)
Theorem term_topic_freq_sums (ttd : frame Qc) (topic_freq tf : list Qc) (w : nat) :
  let raw := weight_rows ttd topic_freq in
  let total := Qsum (column raw w) in
  (w < ncols ttd)%nat ->
  total <> 0 ->
  (forall k, cell raw k w = cell ttd k w * at_ 0 topic_freq k) /\
  (forall k, cell (_term_topic_freq ttd topic_freq tf) k w
             = Fin (cell raw k w * (at_ 0 tf w / total))) /\
  fsum (column (_term_topic_freq ttd topic_freq tf) w) = Fin (at_ 0 tf w).
Proof.
  intros raw total Hw Htotal.
  assert (Hcell : forall k, cell (_term_topic_freq ttd topic_freq tf) k w
                            = Fin (cell raw k w * (at_ 0 tf w / total))).
  { intros k. rewrite term_topic_freq_cell by trivial.
    fold raw. fold total. now rewrite fdiv_finite. }
  split; [reflexivity|]. split; [exact Hcell|].
  unfold column at 1.
  rewrite (map_ext _ (fun k => Fin (cell raw k w * (at_ 0 tf w / total)))) by exact Hcell.
  change (nrows (_term_topic_freq ttd topic_freq tf)) with (nrows raw).
  rewrite <- (map_map (fun k => cell raw k w * (at_ 0 tf w / total)) Fin).
  rewrite fsum_finite. f_equal.
  rewrite (Qsum_scale (fun k => cell raw k w)).
  change (Qsum (map (fun k => cell raw k w) (seq 0 (nrows raw)))) with total.
  field. exact Htotal.
Qed.

Lemma term_topic_freq_sums_witness :
  let ttd := table 3 [[qc 1 10; qc 3 10; qc 6 10]; [qc 7 10; qc 2 10; qc 1 10]] in
  let topic_freq := [qc 17 1; qc 13 1] in
  let tf := [qc 5 1; qc 10 1; qc 15 1] in
  (0 < ncols ttd)%nat /\
  Qsum (column (weight_rows ttd topic_freq) 0) <> 0 /\
  fsum (column (_term_topic_freq ttd topic_freq tf) 0) = Fin (qc 5 1).
Proof.
  cbv zeta. split; [vm_compute; lia|].
  assert (H : Qsum (column (weight_rows
                  (table 3 [[qc 1 10; qc 3 10; qc 6 10]; [qc 7 10; qc 2 10; qc 1 10]])
                  [qc 17 1; qc 13 1]) 0) <> 0)
    by (apply Qc_neq_by_compute; vm_compute; reflexivity).
  split; [exact H|].
  refine (proj2 (proj2 (@term_topic_freq_sums _ _ [qc 5 1; qc 10 1; qc 15 1] 0%nat _ H))).
  vm_compute; lia.
Defined.

Lemma reorder_with (order_desc : list fnum -> list nat) (i : inputs) (l : list nat) :
  order_desc (normalize (topic_mass i)) = l ->
  reorder order_desc i = reorder (fun _ => l) i.
Proof. unfold reorder, order. now intros ->. Qed.

Lemma sorts_singleton (sort : list fnum -> list nat) (l : list fnum) :
  sorts_descending sort -> length l = 1%nat -> sort l = [0%nat].
Proof.
  intros [Hperm _] Hl. specialize (Hperm l). rewrite Hl in Hperm.
  apply Permutation_sym, Permutation_length_1_inv in Hperm. exact Hperm.
Qed.

(** C1 (as stated, refuted).  [zero_term_inputs] passes the validation; its
    term 1 has a raw estimate of zero in the only topic, the ratio of the
    correction is [3 / 0 = inf], and the corrected estimate [0 * inf] is
    [nan]: summed over the topics it is not the term's frequency 3. *)
Lemma term_topic_freq_zero_column :
  _input_check round_py3 (named zero_term_inputs) = None /\
  forall order_desc : list fnum -> list nat,
    sorts_descending order_desc ->
    let r := reorder order_desc (named zero_term_inputs) in
    let corrected :=
      _term_topic_freq (topic_term_dists' r) (topic_freq r)
                       (term_frequency zero_term_inputs) in
    cell corrected 0 1 = NaN /\
    fsum (column corrected 1) = NaN /\
    fsum (column corrected 1) <> Fin (at_ 0 (term_frequency zero_term_inputs) 1).
Proof.
  split; [vm_compute; reflexivity|].
  intros order_desc Hsort r corrected. subst corrected r.
  rewrite (@reorder_with order_desc _ [0%nat])
    by (apply sorts_singleton; [exact Hsort|reflexivity]).
  split; [vm_compute; reflexivity|].
  assert (E : fsum (column (_term_topic_freq
                 (topic_term_dists' (reorder (fun _ => [0%nat]) (named zero_term_inputs)))
                 (topic_freq (reorder (fun _ => [0%nat]) (named zero_term_inputs)))
                 (term_frequency zero_term_inputs)) 1) = NaN)
    by (vm_compute; reflexivity).
  split; [exact E|]. rewrite E. discriminate.
Qed.

(** ** The table of coordinates *)

(** C9.  [_topic_coordinates] raises [AssertionError] when the strategy
    [mds] returns an array whose shape is not [(K, 2)]; when the shape is
    [(K, 2)] it builds, for the [K] proportions of the topics, one row for
    each topic: the two coordinates of the topic, its 1-based number, the
    cluster 1 and the proportion times 100.  (A series of proportions that
    has not [K] entries, which [prepare] never passes, makes pandas raise
    [ValueError].) *)
Theorem topic_coordinates_shape (mds : frame Qc -> frame fnum)
    (topic_term_dists : frame Qc) (topic_proportion : series fnum) :
  let K := nrows topic_term_dists in
  let mds_res := mds topic_term_dists in
  (shape mds_res <> (K, 2%nat) ->
   _topic_coordinates mds topic_term_dists topic_proportion = Raise AssertionError) /\
  (shape mds_res = (K, 2%nat) ->
   length (values topic_proportion) = K ->
   exists rows,
     _topic_coordinates mds topic_term_dists topic_proportion = Ok rows /\
     length rows = K /\
     forall k, (k < K)%nat ->
       nth_error rows k
       = Some (Coord.Row (at_ 0%nat (index topic_proportion) k)
                         (cell mds_res k 0) (cell mds_res k 1)
                         (k + 1) 1
                         (fmul (at_ NaN (values topic_proportion) k)
                               (Fin (Q2Qc (inject_Z 100)))))) /\
  (shape mds_res = (K, 2%nat) ->
   length (values topic_proportion) <> K ->
   _topic_coordinates mds topic_term_dists topic_proportion = Raise ValueError).
Proof.
  cbv zeta. unfold _topic_coordinates, shape. cbn [fst snd]. split; [|split].
  - intros Hshape.
    destruct (Nat.eqb_spec (nrows (mds topic_term_dists)) (nrows topic_term_dists))
      as [E1|]; trivial.
    destruct (Nat.eqb_spec (ncols (mds topic_term_dists)) 2) as [E2|]; trivial.
    exfalso. apply Hshape. now rewrite E1, E2.
  - intros Hshape Hlen.
    assert (E1 : nrows (mds topic_term_dists) = nrows topic_term_dists) by congruence.
    assert (E2 : ncols (mds topic_term_dists) = 2%nat) by congruence.
    rewrite E1, E2, Hlen, !Nat.eqb_refl. cbn [andb].
    eexists. split; [reflexivity|]. split.
    + now rewrite length_map, length_seq.
    + intros k Hk.
      rewrite nth_error_map, nth_error_nth' with (d := 0%nat)
        by now rewrite length_seq.
      rewrite seq_nth by trivial. reflexivity.
  - intros Hshape Hlen.
    assert (E1 : nrows (mds topic_term_dists) = nrows topic_term_dists) by congruence.
    assert (E2 : ncols (mds topic_term_dists) = 2%nat) by congruence.
    rewrite E1, E2, !Nat.eqb_refl. cbn [andb].
    destruct (Nat.eqb_spec (length (values topic_proportion)) (nrows topic_term_dists));
      [contradiction|reflexivity].
Qed.

(** A strategy that returns [K] rows of three columns fails the
    assertion; one that returns two columns passes it. *)
Example topic_coordinates_wrong_shape :
  let r := reorder stable_argsort_desc (named example_inputs) in
  _topic_coordinates (fun f => Frame (nrows f) 3 (frame_index f) (fun k c => Fin (cell f k c)))
                     (topic_term_dists' r) (topic_proportion r)
  = Raise AssertionError /\
  exists rows,
    _topic_coordinates first_two_columns (topic_term_dists' r) (topic_proportion r)
    = Ok rows /\
    map Coord.topics rows = [1; 2]%nat /\ map Coord.cluster rows = [1; 1]%nat.
Proof.
  cbv zeta. split; [vm_compute; reflexivity|].
  destruct (_topic_coordinates first_two_columns _ _) as [rows|e] eqn:H;
    [|vm_compute in H; discriminate H].
  exists rows. split; [reflexivity|].
  vm_compute in H. inversion H. split; reflexivity.
Qed.

(** ** The topic numbers of the client *)

Lemma position_lt (x : nat) (l : list nat) : In x l -> (position x l < length l)%nat.
Proof.
  induction l as [|y l IH]; simpl; [contradiction|].
  intros [E|Hin]; destruct (Nat.eqb_spec x y); try lia.
  specialize (IH Hin). lia.
Qed.

Lemma nth_position (x d : nat) (l : list nat) : In x l -> nth (position x l) l d = x.
Proof.
  induction l as [|y l IH]; simpl; [contradiction|].
  intros Hin. destruct (Nat.eqb_spec x y) as [E|N]; [now subst|].
  destruct Hin as [E|Hin]; [congruence|auto].
Qed.

Lemma input_validate_ok (round : Qc -> Z -> Qc) (i : inputs) :
  _input_validate round i = Ok tt <-> _input_check round i = None.
Proof.
  rewrite input_validate_violated, input_check_violated.
  destruct (violated round i); split; trivial; discriminate.
Qed.

Section PrepareFacts.
Variable round : Qc -> Z -> Qc.
Variable cpu_count : Z.
Variable log : fnum -> fnum.
Variable nansum : list fnum -> fnum.
Variables order_desc sort_desc : list fnum -> list nat.
Variable sort_term_topic : list (string * nat) -> list nat.

(** What a run of [prepare] that returns has computed. *)
Lemma prepare_ok_inv (i : inputs) (R : nat) (lambda_step : Qc)
    (mds : frame Qc -> frame fnum) (plot_opts : list (string * value)) (n_jobs : Z)
    (pd : Prepared.PreparedData) :
  prepare round cpu_count log nansum order_desc sort_desc sort_term_topic
          i R lambda_step mds plot_opts n_jobs = Ok pd ->
  let r := reorder order_desc (named i) in
  let term_topic_freq :=
    _term_topic_freq (topic_term_dists' r) (topic_freq r) (term_frequency i) in
  _input_check round (named i) = None /\
  exists info coords,
    _topic_info cpu_count log nansum order_desc sort_desc (topic_term_dists' r)
                (topic_proportion r) (term_frequency i) term_topic_freq (vocab i)
                lambda_step R n_jobs = Ok info /\
    _topic_coordinates mds (topic_term_dists' r) (topic_proportion r) = Ok coords /\
    pd = Prepared.Make coords info
           (_token_table sort_term_topic info term_topic_freq (vocab i)
                         (term_frequency i))
           R lambda_step plot_opts (map (fun x => x + 1)%nat (topic_order r)).
Proof.
  unfold prepare. cbv zeta.
  destruct (_input_validate round (named i)) as [[]|e] eqn:Hval; [|discriminate].
  apply input_validate_ok in Hval. cbn [bind].
  change (term_frequency (named i)) with (term_frequency i).
  change (vocab (named i)) with (vocab i).
  destruct (_topic_info _ _ _ _ _ _ _ _ _ _ _ _ _) as [info|e] eqn:Hinfo;
    [|discriminate].
  cbn [bind].
  destruct (_topic_coordinates _ _ _) as [coords|e] eqn:Hcoords; [|discriminate].
  cbn [bind]. intros E. inversion E; subst pd.
  split; [exact Hval|]. exists info, coords. auto.
Qed.

End PrepareFacts.

Lemma topic_coordinates_ok_inv (mds : frame Qc -> frame fnum) (ttd : frame Qc)
    (tp : series fnum) (coords : list Coord.row) :
  _topic_coordinates mds ttd tp = Ok coords ->
  length (values tp) = nrows ttd /\
  coords = map (fun k => Coord.Row (at_ 0%nat (index tp) k)
                                   (cell (mds ttd) k 0) (cell (mds ttd) k 1)
                                   (one_based k) 1
                                   (fmul (at_ NaN (values tp) k)
                                         (Fin (Q2Qc (inject_Z 100)))))
               (seq 0 (nrows ttd)).
Proof.
  unfold _topic_coordinates, shape. cbn [fst snd].
  destruct (_ && _)%bool; [|discriminate].
  destruct (Nat.eqb_spec (length (values tp)) (nrows ttd)) as [E|]; [|discriminate].
  intros H. inversion H. auto.
Qed.

(** ** The terms of a topic across the sweep *)

Lemma seq_offset (n m : nat) : seq n m = map (Nat.add n) (seq 0 m).
Proof.
  induction n as [|n IH]; simpl.
  - now rewrite map_id.
  - rewrite <- seq_shift, IH, map_map. reflexivity.
Qed.

Lemma column_vstack {A : Type} (f g : frame A) (k : nat) :
  column (vstack f g) k = column f k ++ column g k.
Proof.
  unfold column, vstack. cbn [nrows cell].
  rewrite seq_app, map_app. f_equal.
  - apply map_ext_in. intros r Hr. apply in_seq in Hr.
    destruct (Nat.ltb_spec r (nrows f)); [reflexivity|lia].
  - cbn [Nat.add]. rewrite (seq_offset (nrows f)), map_map.
    apply map_ext. intros r.
    destruct (Nat.ltb_spec (nrows f + r) (nrows f)); [lia|].
    f_equal. lia.
Qed.

Lemma column_vstack_all {A : Type} (f : frame A) (fs : list (frame A)) (k : nat) :
  column (vstack_all f fs) k = concat (map (fun g => column g k) (f :: fs)).
Proof.
  revert f. induction fs as [|g fs IH]; intros f; simpl.
  - now rewrite app_nil_r.
  - rewrite column_vstack, IH. reflexivity.
Qed.

Lemma ncols_vstack_all {A : Type} (f : frame A) (fs : list (frame A)) :
  ncols (vstack_all f fs) = ncols f.
Proof. destruct fs; reflexivity. Qed.

Lemma concat_frames_ok {A : Type} (fs : list (frame A)) (t : frame A) :
  concat_frames fs = Ok t ->
  fs <> [] /\
  ncols t = ncols (hd t fs) /\
  forall k, column t k = concat (map (fun g => column g k) fs).
Proof.
  destruct fs as [|f fs]; simpl; [discriminate|].
  intros H. inversion H; subst t. split; [discriminate|]. split.
  - apply ncols_vstack_all.
  - intros k. apply column_vstack_all.
Qed.

Lemma map_outcome_ok {A B : Type} (f : A -> outcome B) (l : list A) (rs : list B) :
  map_outcome f l = Ok rs -> Forall2 (fun a r => f a = Ok r) l rs.
Proof.
  revert rs. induction l as [|a l IH]; simpl; intros rs H.
  - inversion H. constructor.
  - destruct (f a) as [b|] eqn:Ea; [|discriminate]. cbn [bind] in H.
    destruct (map_outcome f l) as [bs|]; [|discriminate]. cbn [bind] in H.
    inversion H; subst rs. constructor; auto.
Qed.

Lemma firstn_by_positions {A : Type} (d : A) (n : nat) (l : list A) :
  map (fun r => nth r l d) (seq 0 (Nat.min n (length l))) = firstn n l.
Proof.
  revert n. induction l as [|x l IH]; intros n; simpl.
  - rewrite Nat.min_0_r. now rewrite firstn_nil.
  - destruct n as [|n]; simpl; [reflexivity|].
    f_equal. rewrite <- seq_shift, map_map. apply IH.
Qed.

Lemma in_unique (x : nat) (l : list nat) : In x (unique l) <-> In x l.
Proof.
  induction l as [|y l IH]; simpl; [tauto|].
  rewrite filter_In, IH, negb_true_iff, Nat.eqb_neq.
  destruct (Nat.eq_dec y x); intuition congruence.
Qed.

Lemma decimal_inj (n m : nat) : decimal n = decimal m -> n = m.
Proof.
  unfold decimal. intros H.
  apply DecimalNat.Unsigned.to_uint_inj.
  apply (f_equal NilEmpty.uint_of_string) in H.
  rewrite !NilEmpty.usu in H. now inversion H.
Qed.

Lemma topic_category_inj (n m : nat) :
  ("Topic" ++ decimal n)%string = ("Topic" ++ decimal m)%string -> n = m.
Proof. simpl. intros H. inversion H. now apply decimal_inj. Qed.

Section TopicInfoFacts.
Variable cpu_count : Z.
Variable log : fnum -> fnum.
Variable nansum : list fnum -> fnum.
Variables order_desc sort_desc : list fnum -> list nat.

(** What a run of [_topic_info] that returns has computed. *)
Lemma topic_info_ok_inv (ttd : frame Qc) (tp : series fnum) (tf : list Qc)
    (ttf : frame fnum) (vocab : list string) (lambda_step : Qc) (R : nat) (n_jobs : Z)
    (info : list Info.row) :
  _topic_info cpu_count log nansum order_desc sort_desc ttd tp tf ttf vocab lambda_step R n_jobs
  = Ok info ->
  let log_ttd := log_ttd_of log ttd in
  let log_lift := log_lift_of log ttd tf in
  exists default_term_info lambda_seq chunks results top_terms,
    Forall (fun r => Info.Category r = "Default") default_term_info /\
    arange 0 (1 + lambda_step)%Qc lambda_step = Ok lambda_seq /\
    _job_chunks cpu_count lambda_seq n_jobs = Ok chunks /\
    map_outcome (_find_relevance_chunks order_desc log_ttd log_lift R) chunks = Ok results /\
    concat_frames results = Ok top_terms /\
    info = default_term_info
           ++ concat (map (topic_top_term_df vocab tf ttf log_ttd log_lift)
                          (enumerate1 (iterrows_T (frame_index ttd) top_terms))).
Proof.
  unfold _topic_info. cbv zeta.
  fold (log_ttd_of log ttd). fold (log_lift_of log ttd tf).
  match goal with
  | |- context [if ?c then Ok ?rows else _] =>
      destruct c; [set (default_term_info := rows)|discriminate]
  end.
  cbn [bind].
  destruct (arange 0 (1 + lambda_step)%Qc lambda_step) as [lambda_seq|] eqn:Hseq;
    [|discriminate]. cbn [bind].
  destruct (_job_chunks cpu_count lambda_seq n_jobs) as [chunks|] eqn:Hchunks;
    [|discriminate]. cbn [bind].
  destruct (map_outcome _ chunks) as [results|] eqn:Hres; [|discriminate]. cbn [bind].
  destruct (concat_frames results) as [top_terms|] eqn:Htop; [|discriminate]. cbn [bind].
  intros H. inversion H; subst info.
  exists default_term_info, lambda_seq, chunks, results, top_terms.
  repeat split; trivial.
  subst default_term_info. rewrite Forall_map.
  apply Forall_forall. now intros [j w] _.
Qed.

End TopicInfoFacts.

Lemma chunks_negative {A : Type} (l : list A) (n : Z) :
  (n < 0)%Z -> _chunks l n = Ok [].
Proof.
  intros Hn. unfold _chunks, Py.range, Py.range_len, Py.len.
  destruct (Z.eqb_spec n 0); [lia|].
  destruct (Z.ltb_spec 0 n); [lia|].
  destruct (Z.ltb_spec (Z.of_nat (length l)) 0); [lia|]. reflexivity.
Qed.

Lemma chunks_of_nothing {A : Type} (cpu_count n_jobs : Z) (chunks : list (list A)) :
  _job_chunks cpu_count [] n_jobs = Ok chunks -> chunks = [].
Proof.
  unfold _job_chunks, _chunks, Py.range, Py.range_len, Py.len. cbv zeta. cbn [length].
  destruct (_ =? 0)%Z; [discriminate|]. cbn [bind].
  destruct (0 <? _)%Z; cbn; intros H; now inversion H.
Qed.

Lemma job_chunks_cover {A : Type} (cpu_count : Z) (l : list A) (n_jobs : Z)
    (chunks : list (list A)) :
  _job_chunks cpu_count l n_jobs = Ok chunks -> chunks <> [] -> concat chunks = l.
Proof.
  unfold _job_chunks. cbv zeta.
  set (n := if (n_jobs <? 0)%Z then (cpu_count + 1 - n_jobs)%Z else n_jobs).
  intros Hc Hne. destruct (Z.lt_trichotomy n 0) as [Hn|[Hn|Hn]].
  - rewrite chunks_negative in Hc by trivial. inversion Hc; subst. contradiction.
  - rewrite Hn in Hc. discriminate.
  - pose proof (@_chunks_pos A l (Z.to_nat n) ltac:(lia)) as E.
    rewrite Z2Nat.id in E by lia. rewrite E in Hc. inversion Hc; subst chunks.
    rewrite concat_chunks_from; [reflexivity|lia|].
    apply cover_bound. lia.
Qed.

Lemma concat_map_concat {A B : Type} (g : A -> list B) (ls : list (list A)) :
  concat (map (fun l => concat (map g l)) ls) = concat (map g (concat ls)).
Proof.
  induction ls as [|l ls IH]; simpl; [reflexivity|].
  now rewrite map_app, concat_app, IH.
Qed.

Lemma in_enumerate1 {A : Type} (l : list A) (n : nat) (x : A) :
  In (n, x) (enumerate1 l) <-> exists j, n = (j + 1)%nat /\ nth_error l j = Some x.
Proof.
  unfold enumerate1.
  assert (G : forall s, In (n, x) (combine (seq s (length l)) l)
                        <-> exists j, n = (j + s)%nat /\ nth_error l j = Some x).
  { induction l as [|y l IH]; intros s; simpl.
    - split; [contradiction|]. intros (j & _ & H). now destruct j.
    - rewrite IH. split.
      + intros [E|(j & -> & Hj)].
        * inversion E; subst. exists 0%nat. auto.
        * exists (S j). split; [lia|exact Hj].
      + intros ([|j] & -> & Hj).
        * left. inversion Hj. reflexivity.
        * right. exists j. split; [lia|exact Hj]. }
  apply G.
Qed.

Section RankingFacts.
Variable log : fnum -> fnum.
Variable order_desc : list fnum -> list nat.
Hypothesis order_desc_length : forall l, length (order_desc l) = length l.

Lemma column_find_relevance (ttd : frame Qc) (tf : list Qc) (R : nat) (lambda_ : Qc)
    (k : nat) :
  column (_find_relevance order_desc (log_ttd_of log ttd) (log_lift_of log ttd tf)
                          R lambda_) k
  = top_terms_of log order_desc ttd tf R lambda_ k.
Proof.
  unfold _find_relevance, top_terms_of, head, column. cbn [nrows ncols cell].
  cbn [relevance log_ttd_of log_lift_of nrows ncols].
  set (scores := row (relevance (log_ttd_of log ttd) (log_lift_of log ttd tf) lambda_) k).
  change (map (relevance_of log ttd tf lambda_ k) (seq 0 (ncols ttd))) with scores.
  unfold order, at_. cbn [index].
  replace (ncols ttd) with (length (order_desc scores)).
  - apply firstn_by_positions.
  - rewrite order_desc_length. subst scores. unfold row.
    now rewrite length_map, length_seq.
Qed.

Lemma find_relevance_chunks_ok (ttd : frame Qc) (tf : list Qc) (R : nat)
    (chunk : list Qc) (res : frame nat) :
  _find_relevance_chunks order_desc (log_ttd_of log ttd) (log_lift_of log ttd tf) R chunk
  = Ok res ->
  ncols res = nrows ttd /\
  forall k, column res k
            = concat (map (fun l => top_terms_of log order_desc ttd tf R l k) chunk).
Proof.
  unfold _find_relevance_chunks. intros H.
  apply concat_frames_ok in H. destruct H as (Hne & Hcols & Hcol). split.
  - rewrite Hcols. destruct chunk as [|l chunk]; [now elim Hne|]. reflexivity.
  - intros k. rewrite Hcol, map_map. f_equal.
    apply map_ext. intros l. apply column_find_relevance.
Qed.

Lemma top_terms_columns (ttd : frame Qc) (tf : list Qc) (R : nat)
    (chunks : list (list Qc)) (results : list (frame nat)) (top_terms : frame nat) :
  map_outcome (_find_relevance_chunks order_desc (log_ttd_of log ttd)
                                      (log_lift_of log ttd tf) R) chunks
  = Ok results ->
  concat_frames results = Ok top_terms ->
  chunks <> [] /\
  ncols top_terms = nrows ttd /\
  forall k, column top_terms k
            = concat (map (fun l => top_terms_of log order_desc ttd tf R l k)
                          (concat chunks)).
Proof.
  intros Hres Htop. apply map_outcome_ok in Hres.
  apply concat_frames_ok in Htop. destruct Htop as (Hne & Hcols & Hcol).
  split; [|split].
  - intros ->. inversion Hres; subst. now elim Hne.
  - rewrite Hcols. destruct Hres as [|chunk res chunks results Hr _]; [now elim Hne|].
    apply find_relevance_chunks_ok in Hr. apply Hr.
  - intros k. rewrite Hcol, <- concat_map_concat. f_equal.
    clear Hne Hcols Hcol.
    induction Hres as [|chunk res chunks results Hr _ IH]; simpl; [reflexivity|].
    apply find_relevance_chunks_ok in Hr. destruct Hr as [_ Hr].
    now rewrite Hr, IH.
Qed.

End RankingFacts.

Lemma nth_error_map_seq {A : Type} (f : nat -> A) (n j : nat) (y : A) :
  nth_error (map f (seq 0 n)) j = Some y <-> (j < n)%nat /\ y = f j.
Proof.
  rewrite nth_error_map. split.
  - intros H. destruct (nth_error (seq 0 n) j) as [i|] eqn:E; [|discriminate].
    assert (Hj : (j < length (seq 0 n))%nat) by (apply nth_error_Some; congruence).
    rewrite length_seq in Hj.
    rewrite nth_error_nth' with (d := 0%nat) in E by now rewrite length_seq.
    rewrite seq_nth in E by trivial. inversion E; subst i.
    inversion H. auto.
  - intros [Hj ->].
    rewrite nth_error_nth' with (d := 0%nat) by now rewrite length_seq.
    now rewrite seq_nth.
Qed.

Lemma topic_terms_of_info (vocab : list string) (tf : list Qc)
    (ttf log_ttd log_lift : frame fnum) (labels : list nat) (top_terms : frame nat)
    (default_term_info : list Info.row) (k t : nat) :
  Forall (fun r => Info.Category r = "Default") default_term_info ->
  (k < ncols top_terms)%nat ->
  In t (topic_terms
          (default_term_info
           ++ concat (map (topic_top_term_df vocab tf ttf log_ttd log_lift)
                          (enumerate1 (iterrows_T labels top_terms))))
          (k + 1))
  <-> In t (column top_terms k).
Proof.
  intros Hdefault Hk. unfold topic_terms.
  rewrite in_map_iff. split.
  - intros (r & Hix & Hr). apply filter_In in Hr as [Hr Hcat].
    apply String.eqb_eq in Hcat. apply in_app_or in Hr as [Hr|Hr].
    + rewrite Forall_forall in Hdefault. rewrite (Hdefault r Hr) in Hcat.
      discriminate Hcat.
    + apply in_concat in Hr as (df & Hdf & Hr).
      apply in_map_iff in Hdf as ([n [label terms]] & <- & Hn).
      apply in_enumerate1 in Hn as (j & -> & Hj).
      unfold iterrows_T in Hj. apply nth_error_map_seq in Hj as [Hj E].
      inversion E; subst label terms.
      unfold topic_top_term_df in Hr.
      apply in_map_iff in Hr as (t' & <- & Ht').
      cbn [Info.Category Info.ix] in *. subst t'.
      apply topic_category_inj in Hcat.
      assert (j = k) by lia. subst j.
      now apply in_unique.
  - intros Ht.
    exists (Info.Row t (at_ "" vocab t)
                     (loc ttf (at_ 0%nat labels k) t)
                     (at_ 0%Qc tf t)
                     (fround_to 4 (loc log_ttd (at_ 0%nat labels k) t))
                     (fround_to 4 (loc log_lift (at_ 0%nat labels k) t))
                     ("Topic" ++ decimal (k + 1))%string).
    split; [reflexivity|]. apply filter_In. split.
    + apply in_or_app. right. apply in_concat.
      exists (topic_top_term_df vocab tf ttf log_ttd log_lift
                ((k + 1)%nat, (at_ 0%nat labels k, column top_terms k))).
      split.
      * apply in_map. apply in_enumerate1. exists k. split; [reflexivity|].
        unfold iterrows_T. now apply nth_error_map_seq.
      * unfold topic_top_term_df. apply in_map_iff. exists t.
        split; [reflexivity|]. now apply in_unique.
    + cbn [Info.Category]. apply String.eqb_refl.
Qed.

(** The sweep of a step that divides 1. *)
Lemma inject_this (z : Z) : (this (Q2Qc (inject_Z z)) == inject_Z z)%Q.
Proof. unfold Q2Qc. cbn [this]. apply Qred_correct. Qed.

Lemma arange_unit_sweep (step : Qc) (n : positive) :
  (step * Q2Qc (inject_Z (Zpos n)) = 1)%Qc ->
  arange 0 (1 + step)%Qc step = Ok (sweep step (Pos.to_nat n)).
Proof.
  intros Hn. set (N := Q2Qc (inject_Z (Zpos n))) in *.
  assert (Hstep : step <> 0%Qc).
  { intros ->. rewrite Qcmult_0_l in Hn. discriminate Hn. }
  unfold arange, sweep.
  destruct (Qc_eq_bool step 0) eqn:E; [apply Qc_eq_bool_iff in E; contradiction|].
  do 3 f_equal.
  assert (Hq : ((1 + step - 0) / step = N + 1)%Qc).
  { assert (Hinv : (/ step = N)%Qc).
    { transitivity (/ step * (step * N))%Qc; [rewrite Hn; ring|].
      rewrite Qcmult_assoc, Qcmult_inv_l by exact Hstep. ring. }
    unfold Qcdiv. rewrite Hinv.
    replace ((1 + step - 0) * N)%Qc with (N + step * N)%Qc by ring.
    now rewrite Hn. }
  rewrite Hq.
  assert (Hc : (this (N + 1)%Qc == inject_Z (Zpos n + 1))%Q).
  { unfold Qcplus, Q2Qc at 1. cbn [this]. rewrite Qred_correct.
    unfold N. rewrite inject_this. rewrite inject_Z_plus. reflexivity. }
  rewrite Hc, Qceiling_Z. lia.
Qed.

Lemma in_concat_map {A B : Type} (g : A -> list B) (l : list A) (y : B) :
  In y (concat (map g l)) <-> exists x, In x l /\ In y (g x).
Proof.
  rewrite in_concat. split.
  - intros (ys & Hys & Hy). apply in_map_iff in Hys as (x & <- & Hx). eauto.
  - intros (x & Hx & Hy). exists (g x). split; [now apply in_map|exact Hy].
Qed.

Lemma sorts_descending_length (sort : list fnum -> list nat) :
  sorts_descending sort -> forall l, length (sort l) = length l.
Proof.
  intros [Hperm _] l. now rewrite (Permutation_length (Hperm l)), length_seq.
Qed.

Lemma sweep_ends (step : Qc) (n : positive) :
  (step * Q2Qc (inject_Z (Zpos n)) = 1)%Qc ->
  In 0%Qc (sweep step (Pos.to_nat n)) /\ In 1%Qc (sweep step (Pos.to_nat n)).
Proof.
  intros Hn. unfold sweep. split; apply in_map_iff.
  - exists 0%nat. split; [|apply in_seq; lia].
    change (Q2Qc (inject_Z (Z.of_nat 0))) with 0%Qc. ring.
  - exists (Pos.to_nat n). split; [|apply in_seq; lia].
    rewrite positive_nat_Z, Qcmult_comm, Hn. ring.
Qed.

(** The values of [arange(0, stop, step)] are the multiples of [step], from
    0 on. *)
Lemma arange_multiples (stop step : Qc) (l : list Qc) :
  arange 0 stop step = Ok l ->
  l = map (fun k => Q2Qc (inject_Z (Z.of_nat k)) * step) (seq 0 (length l)).
Proof.
  unfold arange. destruct (Qc_eq_bool step 0); [discriminate|].
  intros H. inversion H as [E]. rewrite length_map, length_seq.
  apply map_ext. intros k. ring.
Qed.

Lemma arange_holds_one (stop step : Qc) (l : list Qc) :
  arange 0 stop step = Ok l -> In 1 l ->
  exists n : positive, step * Q2Qc (inject_Z (Zpos n)) = 1.
Proof.
  intros Hl H1. rewrite (arange_multiples _ _ Hl) in H1.
  apply in_map_iff in H1 as (k & Hk & _).
  destruct k as [|k].
  - exfalso. change (Q2Qc (inject_Z (Z.of_nat 0))) with 0 in Hk.
    rewrite Qcmult_0_l in Hk. discriminate Hk.
  - exists (Pos.of_succ_nat k). rewrite Qcmult_comm.
    now rewrite Zpos_P_of_succ_nat, <- Nat2Z.inj_succ.
Qed.

(** C2 (amended).  When [_topic_info] returns, the terms it emits for a
    topic are those that are among the top [R] terms of the topic, ranked
    descending by relevance, for some value of the sweep
    [arange(0, 1 + lambda_step, lambda_step)].  The sweep starts at 0, so
    that the emitted terms include the top [R] terms at 0.  In exact
    arithmetic the sweep holds 1 only when [lambda_step] divides 1; then it
    is [0, lambda_step, ..., 1], and the emitted terms include the top [R]
    terms at 1 as well.  At 0 and at 1 the relevance of a term whose
    logarithms are finite is its log-lift and its log-probability. *)
Theorem topic_terms_union (cpu_count : Z) (log : fnum -> fnum)
    (nansum : list fnum -> fnum) (order_desc sort_desc : list fnum -> list nat)
    (ttd : frame Qc) (tp : series fnum) (tf : list Qc) (ttf : frame fnum)
    (vocab : list string) (lambda_step : Qc) (R : nat) (n_jobs : Z)
    (info : list Info.row) :
  sorts_descending order_desc ->
  _topic_info cpu_count log nansum order_desc sort_desc ttd tp tf ttf vocab lambda_step R n_jobs
  = Ok info ->
  exists lambda_seq,
    arange 0 (1 + lambda_step)%Qc lambda_step = Ok lambda_seq /\
    (forall k t, (k < nrows ttd)%nat ->
       (In t (topic_terms info (k + 1))
        <-> exists l, In l lambda_seq /\
                      In t (top_terms_of log order_desc ttd tf R l k))) /\
    (exists rest, lambda_seq = 0%Qc :: rest) /\
    (forall k, (k < nrows ttd)%nat ->
       incl (top_terms_of log order_desc ttd tf R 0%Qc k) (topic_terms info (k + 1))) /\
    (In 1%Qc lambda_seq
     <-> exists n : positive, (lambda_step * Q2Qc (inject_Z (Zpos n)) = 1)%Qc) /\
    (forall n : positive,
       (lambda_step * Q2Qc (inject_Z (Zpos n)) = 1)%Qc ->
       lambda_seq = sweep lambda_step (Pos.to_nat n) /\
       forall k, (k < nrows ttd)%nat ->
         incl (top_terms_of log order_desc ttd tf R 0%Qc k) (topic_terms info (k + 1)) /\
         incl (top_terms_of log order_desc ttd tf R 1%Qc k) (topic_terms info (k + 1))) /\
    (forall k w a b,
       log (Fin (cell ttd k w)) = Fin a ->
       log (fdiv (Fin (cell ttd k w)) (at_ NaN (normalize tf) w)) = Fin b ->
       relevance_of log ttd tf 0%Qc k w = Fin b /\
       relevance_of log ttd tf 1%Qc k w = Fin a).
Proof.
  intros Hsort Hinfo.
  apply topic_info_ok_inv in Hinfo. cbv zeta in Hinfo.
  destruct Hinfo as (default & lambda_seq & chunks & results & top_terms
                     & Hdefault & Hseq & Hchunks & Hres & Htop & ->).
  pose proof (sorts_descending_length Hsort) as Hlen.
  destruct (@top_terms_columns log order_desc Hlen ttd tf R chunks results top_terms
                               Hres Htop) as (Hne & Hcols & Hcol).
  assert (Hsweep : exists rest, lambda_seq = 0%Qc :: rest).
  { destruct lambda_seq as [|l0 rest] eqn:El.
    - apply chunks_of_nothing in Hchunks. contradiction.
    - exists rest. pose proof (arange_multiples _ _ Hseq) as E.
      cbn [length seq map] in E. injection E as E0 _. rewrite E0.
      f_equal. change (Q2Qc (inject_Z 0)) with 0%Qc. ring. }
  apply job_chunks_cover in Hchunks; [|exact Hne].
  rewrite Hchunks in Hcol.
  assert (Hterms : forall k t, (k < nrows ttd)%nat ->
            (In t (topic_terms
                     (default ++ concat (map (topic_top_term_df vocab tf ttf
                         (log_ttd_of log ttd) (log_lift_of log ttd tf))
                         (enumerate1 (iterrows_T (frame_index ttd) top_terms))))
                     (k + 1))
             <-> exists l, In l lambda_seq /\
                           In t (top_terms_of log order_desc ttd tf R l k))).
  { intros k t Hk.
    rewrite topic_terms_of_info by (trivial; now rewrite Hcols).
    rewrite Hcol. apply in_concat_map. }
  exists lambda_seq. split; [exact Hseq|]. split; [exact Hterms|].
  split; [exact Hsweep|]. split; [|split; [|split]].
  - intros k Hk t Ht. apply Hterms; trivial.
    exists 0%Qc. split; [|exact Ht].
    destruct Hsweep as [rest ->]. now left.
  - split.
    + apply (arange_holds_one _ _ Hseq).
    + intros [n Hn]. pose proof (arange_unit_sweep Hn) as Hs.
      rewrite Hseq in Hs. inversion Hs as [E].
      apply (sweep_ends Hn).
  - intros n Hn.
    pose proof (arange_unit_sweep Hn) as Hs.
    rewrite Hseq in Hs. inversion Hs as [E].
    split; [reflexivity|].
    destruct (sweep_ends Hn) as [H0 H1]. rewrite <- E in H0, H1.
    intros k Hk. split; intros t Ht; apply Hterms; eauto.
  - intros k w a b Ha Hb. unfold relevance_of. cbv zeta.
    rewrite Ha, Hb. cbn [fmul fadd]. split; f_equal; ring.
Qed.

Lemma topic_terms_union_witness :
  let ttd := topic_term_dists' (reorder stable_argsort_desc (named example_inputs)) in
  let tf := term_frequency example_inputs in
  sorts_descending stable_argsort_desc /\
  exists info,
    example_topic_info = Ok info /\
    (exists lambda_seq,
       arange 0 (1 + qc 1 4)%Qc (qc 1 4) = Ok lambda_seq /\
       forall k t, (k < nrows ttd)%nat ->
         (In t (topic_terms info (k + 1))
          <-> exists l, In l lambda_seq /\
                        In t (top_terms_of log_lower stable_argsort_desc ttd tf 2 l k))) /\
    topic_terms info 1 = [2; 1]%nat /\
    topic_terms info 2 = [0; 1]%nat.
Proof.
  cbv zeta. split; [apply stable_argsort_desc_sorts|].
  destruct example_topic_info as [info|e] eqn:Hinfo;
    [|vm_compute in Hinfo; discriminate Hinfo].
  exists info. split; [reflexivity|].
  unfold example_topic_info in Hinfo. cbv zeta in Hinfo.
  destruct (@topic_terms_union 4 log_lower nansum_zero stable_argsort_desc
              stable_argsort_desc
              (topic_term_dists' (reorder stable_argsort_desc (named example_inputs)))
              (topic_proportion (reorder stable_argsort_desc (named example_inputs)))
              (term_frequency example_inputs)
              (_term_topic_freq
                 (topic_term_dists' (reorder stable_argsort_desc (named example_inputs)))
                 (topic_freq (reorder stable_argsort_desc (named example_inputs)))
                 (term_frequency example_inputs))
              (vocab example_inputs) (qc 1 4) 2%nat (-1)%Z info
              stable_argsort_desc_sorts Hinfo)
    as (lambda_seq & Hseq & Hterms & _).
  split; [exists lambda_seq; split; [exact Hseq|exact Hterms]|].
  vm_compute in Hinfo. inversion Hinfo. split; reflexivity.
Defined.

(** C2 (as stated, refuted).  [skewed_inputs] passes the validation.  With
    the step 2/3 the sweep is [0, 2/3, 4/3]: it does not hold 1.  The scores
    of the four terms in the topic, as binary logarithms, are listed for
    the three values of the sweep and for 1: the term 1 is first at 0 and
    at 2/3, the term 2 at 4/3, and the term 0, the most probable one, at 1.
    With one term to show for each topic, [prepare] emits the terms 1 and 2
    for the topic: the term ranked first by relevance at 1, by its
    log-probability, is not among them. *)
Lemma sweep_misses_one :
  let ttd := topic_term_dists' (reorder stable_argsort_desc (named skewed_inputs)) in
  let tf := term_frequency skewed_inputs in
  let scores := fun l => map (relevance_of log_binary ttd tf l 0) [0; 1; 2; 3]%nat in
  _input_check round_py3 (named skewed_inputs) = None /\
  arange 0 (1 + qc 2 3) (qc 2 3) = Ok [qc 0 1; qc 2 3; qc 4 3] /\
  ~ In 1 [qc 0 1; qc 2 3; qc 4 3] /\
  scores (qc 0 1) = [Fin (qc 4 1); Fin (qc 7 1); Fin (qc (-1) 1); NaN] /\
  scores (qc 2 3) = [Fin (qc 2 3); Fin (qc 1 1); Fin (qc (-5) 3); NInf] /\
  scores (qc 4 3) = [Fin (qc (-8) 3); Fin (qc (-5) 1); Fin (qc (-7) 3); NaN] /\
  scores (qc 1 1) = [Fin (qc (-1) 1); Fin (qc (-2) 1); Fin (qc (-2) 1); NaN] /\
  top_terms_of log_binary stable_argsort_desc ttd tf 1 (qc 1 1) 0 = [0]%nat /\
  exists pd,
    skewed_run = Ok pd /\
    Prepared.R pd = 1%nat /\
    topic_terms (Prepared.topic_info pd) 1 = [1; 2]%nat /\
    ~ incl (top_terms_of log_binary stable_argsort_desc ttd tf 1 (qc 1 1) 0)
           (topic_terms (Prepared.topic_info pd) 1).
Proof.
  cbv zeta.
  split; [vm_compute; reflexivity|].
  split.
  { destruct (arange 0 (1 + qc 2 3) (qc 2 3)) as [l|e] eqn:E;
      [|vm_compute in E; discriminate E].
    f_equal. apply Qc_list_eq.
    apply (f_equal (fun o => match o with Ok l => map this l | Raise _ => [] end)) in E.
    rewrite <- E. vm_compute. reflexivity. }
  split.
  { cbn [In]. intros [H|[H|[H|[]]]];
      apply (f_equal this) in H; vm_compute in H; discriminate H. }
  do 4 (split; [apply fnums_eq; repeat constructor; vm_compute; reflexivity|]).
  assert (Htop : top_terms_of log_binary stable_argsort_desc
                   (topic_term_dists' (reorder stable_argsort_desc (named skewed_inputs)))
                   (term_frequency skewed_inputs) 1 (qc 1 1) 0 = [0]%nat)
    by (vm_compute; reflexivity).
  split; [exact Htop|].
  destruct skewed_run as [pd|e] eqn:Hpd; [|vm_compute in Hpd; discriminate Hpd].
  exists pd. split; [reflexivity|].
  assert (Hterms : Prepared.R pd = 1%nat
                   /\ topic_terms (Prepared.topic_info pd) 1 = [1; 2]%nat).
  { vm_compute in Hpd. inversion Hpd. split; reflexivity. }
  destruct Hterms as [HR Hterms].
  split; [exact HR|]. split; [exact Hterms|].
  rewrite Htop, Hterms. intros H.
  specialize (H 0%nat (or_introl eq_refl)). cbn [In] in H.
  destruct H as [H|[H|[]]]; discriminate H.
Qed.

(** *** When [_topic_info] and [prepare] return *)

Lemma chunks_from_nonempty {A : Type} (l : list A) (n count start : nat) :
  (0 < n)%nat -> ((start + count - 1) * n < length l)%nat ->
  Forall (fun c => c <> []) (chunks_from l n start count).
Proof.
  intros Hn. revert start. induction count as [|c IH]; intros start Hlen; simpl;
    constructor.
  - intros E. apply (f_equal (@length A)) in E.
    rewrite length_firstn, length_skipn in E. simpl in E. nia.
  - apply IH. replace (S start + c - 1)%nat with (start + S c - 1)%nat by lia.
    exact Hlen.
Qed.

Lemma job_chunks_returns {A : Type} (cpu_count : Z) (l : list A) (n_jobs : Z) :
  l <> [] ->
  (0 < n_jobs \/ (n_jobs < 0 /\ 0 < cpu_count + 1 - n_jobs))%Z ->
  exists chunks,
    _job_chunks cpu_count l n_jobs = Ok chunks /\
    chunks <> [] /\ Forall (fun c => c <> []) chunks.
Proof.
  intros Hl Hjobs. unfold _job_chunks. cbv zeta.
  set (n := if (n_jobs <? 0)%Z then (cpu_count + 1 - n_jobs)%Z else n_jobs).
  assert (Hn : (0 < n)%Z).
  { subst n. destruct (Z.ltb_spec n_jobs 0); lia. }
  pose proof (@_chunks_pos A l (Z.to_nat n) ltac:(lia)) as E.
  rewrite Z2Nat.id in E by lia. rewrite E. eexists. split; [reflexivity|].
  assert (Hlen : (0 < length l)%nat) by (destruct l; [contradiction|simpl; lia]).
  set (m := Z.to_nat n) in *. assert (Hm : (0 < m)%nat) by lia.
  assert (Hcount : (0 < (length l + m - 1) / m)%nat).
  { apply Nat.div_str_pos. lia. }
  split.
  - intros Hnil. apply (f_equal (@length (list A))) in Hnil.
    rewrite length_chunks_from in Hnil. simpl in Hnil. lia.
  - apply chunks_from_nonempty; [exact Hm|].
    pose proof (Nat.div_mod_eq (length l + m - 1) m) as Hd.
    pose proof (Nat.mod_upper_bound (length l + m - 1) m ltac:(lia)) as Hb.
    nia.
Qed.

Lemma arange_returns (step : Qc) :
  (0 < step)%Qc ->
  exists lambda_seq, arange 0 (1 + step)%Qc step = Ok lambda_seq /\ lambda_seq <> [].
Proof.
  intros Hstep. unfold arange.
  destruct (Qc_eq_bool step 0) eqn:E.
  - apply Qc_eq_bool_iff in E. subst step. now apply Qclt_not_eq in Hstep.
  - eexists. split; [reflexivity|].
    set (x := ((1 + step - 0) / step)%Qc).
    assert (Hx : (0 < x)%Qc).
    { subst x. unfold Qcdiv.
      assert (H1 : (0 < 1 + step - 0)%Qc).
      { replace (1 + step - 0)%Qc with (step + 1)%Qc by ring.
        apply Qclt_trans with step; [exact Hstep|].
        rewrite <- (Qcplus_0_r step) at 1.
        apply Qclt_minus_iff. replace (step + 1 + - (step + 0))%Qc with 1%Qc by ring.
        reflexivity. }
      assert (H2 : (0 < / step)%Qc).
      { change (0 < Qred (/ this step))%Q. rewrite Qred_correct.
        now apply Qinv_lt_0_compat. }
      rewrite <- (Qcmult_0_l (/ step)). now apply Qcmult_lt_compat_r. }
    assert (Hc : (0 < Qceiling x)%Z).
    { rewrite Zlt_Qlt. eapply Qlt_le_trans; [exact Hx|apply Qle_ceiling]. }
    destruct (Z.to_nat (Qceiling x)) as [|n] eqn:En; [lia|]. discriminate.
Qed.

Section Totality.
Variable cpu_count : Z.
Variable log : fnum -> fnum.
Variable nansum : list fnum -> fnum.
Variables order_desc sort_desc : list fnum -> list nat.
Hypothesis sort_desc_length : forall l, length (sort_desc l) = length l.

Lemma find_relevance_chunks_returns (log_ttd log_lift : frame fnum) (R : nat)
    (chunks : list (list Qc)) :
  chunks <> [] ->
  Forall (fun c => c <> []) chunks ->
  exists results,
    map_outcome (_find_relevance_chunks order_desc log_ttd log_lift R) chunks = Ok results /\
    results <> [].
Proof.
  intros Hne Hall. induction Hall as [|c chunks Hc Hall IH]; [contradiction|].
  simpl. destruct c as [|l c]; [contradiction|].
  unfold _find_relevance_chunks at 1. cbn [map concat_frames bind].
  destruct chunks as [|c' chunks].
  - simpl. eexists. split; [reflexivity|discriminate].
  - destruct IH as (results & -> & _); [discriminate|].
    cbn [bind]. eexists. split; [reflexivity|discriminate].
Qed.

(** [_topic_info] returns when [topic_term_dists] has at least [R] columns,
    the step of the sweep is positive and [n_jobs] gives a positive size of
    chunk. *)
Lemma topic_info_returns (ttd : frame Qc) (tp : series fnum) (tf : list Qc)
    (ttf : frame fnum) (vocab : list string) (lambda_step : Qc) (R : nat) (n_jobs : Z) :
  (R <= ncols ttd)%nat ->
  (0 < lambda_step)%Qc ->
  (0 < n_jobs \/ (n_jobs < 0 /\ 0 < cpu_count + 1 - n_jobs))%Z ->
  exists info,
    _topic_info cpu_count log nansum order_desc sort_desc ttd tp tf ttf vocab
                lambda_step R n_jobs = Ok info.
Proof.
  intros HR Hstep Hjobs. unfold _topic_info. cbv zeta.
  match goal with
  | |- context [(length (firstn R (sort_desc ?s)) =? R)%nat] =>
      replace (length (firstn R (sort_desc s)) =? R)%nat with true
  end.
  2: { symmetry. apply Nat.eqb_eq. rewrite length_firstn, sort_desc_length.
       rewrite length_map, length_seq. lia. }
  cbn [bind].
  destruct (arange_returns Hstep) as (lambda_seq & -> & Hseq). cbn [bind].
  destruct (job_chunks_returns cpu_count Hseq Hjobs) as (chunks & -> & Hne & Hall).
  cbn [bind].
  destruct (@find_relevance_chunks_returns
              (log_ttd_of log ttd) (log_lift_of log ttd tf) R chunks Hne Hall)
    as (results & Hres & Hresults).
  unfold log_ttd_of, log_lift_of in Hres. rewrite Hres. cbn [bind].
  destruct results as [|f results]; [contradiction|].
  cbn [concat_frames bind]. eexists. reflexivity.
Qed.

End Totality.

(** [prepare] returns on a validated input when [_topic_info] does and the
    strategy [mds] returns an array of shape [(K, 2)]. *)
Lemma prepare_returns (round : Qc -> Z -> Qc) (cpu_count : Z) (log : fnum -> fnum)
    (nansum : list fnum -> fnum) (order_desc sort_desc : list fnum -> list nat)
    (sort_term_topic : list (string * nat) -> list nat)
    (i : inputs) (R : nat) (lambda_step : Qc) (mds : frame Qc -> frame fnum)
    (plot_opts : list (string * value)) (n_jobs : Z) :
  sorts_descending order_desc ->
  sorts_descending sort_desc ->
  _input_check round (named i) = None ->
  (R <= length (vocab i))%nat ->
  (0 < lambda_step)%Qc ->
  (0 < n_jobs \/ (n_jobs < 0 /\ 0 < cpu_count + 1 - n_jobs))%Z ->
  shape (mds (topic_term_dists' (reorder order_desc (named i))))
  = (nrows (topic_term_dists i), 2%nat) ->
  exists pd,
    prepare round cpu_count log nansum order_desc sort_desc sort_term_topic
            i R lambda_step mds plot_opts n_jobs = Ok pd.
Proof.
  intros Hdesc Hsort Hval HR Hstep Hjobs Hshape.
  pose proof (@topic_order_perm round order_desc i Hdesc Hval) as Hperm.
  pose proof (validated_shapes _ _ Hval) as (_ & _ & HW & _). cbn in HW.
  set (r := reorder order_desc (named i)) in *.
  assert (HK : nrows (topic_term_dists' r) = nrows (topic_term_dists i)).
  { change (nrows (topic_term_dists' r)) with (length (topic_order r)).
    now rewrite (Permutation_length Hperm), length_seq. }
  assert (Hcols : ncols (topic_term_dists' r) = ncols (topic_term_dists i))
    by reflexivity.
  unfold prepare. cbv zeta. fold r.
  apply input_validate_ok in Hval. rewrite Hval. cbn [bind].
  destruct (@topic_info_returns cpu_count log nansum order_desc sort_desc
              (sorts_descending_length Hsort)
              (topic_term_dists' r) (topic_proportion r) (term_frequency (named i))
              (_term_topic_freq (topic_term_dists' r) (topic_freq r)
                                (term_frequency (named i)))
              (vocab (named i)) lambda_step R n_jobs)
    as [info Hinfo]; trivial.
  { rewrite Hcols, HW. exact HR. }
  rewrite Hinfo. cbn [bind].
  assert (Hlen : length (values (topic_proportion r)) = nrows (topic_term_dists' r)).
  { change (values (topic_proportion r))
      with (map (at_ NaN (normalize (topic_mass (named i)))) (topic_order r)).
    now rewrite length_map. }
  unfold _topic_coordinates. rewrite Hshape. cbn [fst snd shape].
  rewrite HK, Nat.eqb_refl. cbn [andb Nat.eqb].
  rewrite Hlen, HK, Nat.eqb_refl. cbn [bind]. eexists. reflexivity.
Qed.

(** ** The token table *)

Lemma token_table_unfold (sort_term_topic : list (string * nat) -> list nat)
    (info : list Info.row) (ttf : frame fnum) (vocab : list string) (tf : list Qc) :
  _token_table sort_term_topic info ttf vocab tf
  = map (at_ (Token.Row 0 0 NaN "") (token_rows info ttf vocab tf))
        (sort_term_topic (map (fun r => (Token.Term r, Token.Topic r))
                              (token_rows info ttf vocab tf))).
Proof. reflexivity. Qed.

Lemma map_positions {A : Type} (d : A) (l : list A) :
  map (fun i => nth i l d) (seq 0 (length l)) = l.
Proof.
  induction l as [|x l IH]; simpl; [reflexivity|].
  f_equal. rewrite <- seq_shift, map_map. exact IH.
Qed.

Lemma in_sorted_nats (x : nat) (l : list nat) : In x (isort Nat.leb l) <-> In x l.
Proof.
  split; apply Permutation_in; [|symmetry]; apply isort_perm.
Qed.

Lemma in_by_position (x : nat) (l : list nat) :
  In x l <-> exists c, (c < length l)%nat /\ x = at_ 0%nat l c.
Proof.
  split.
  - intros H. apply (In_nth _ _ 0%nat) in H as (c & Hc & E). eauto.
  - intros (c & Hc & ->). now apply nth_In.
Qed.

Lemma in_token_rows (info : list Info.row) (ttf : frame fnum) (vocab : list string)
    (tf : list Qc) (r : Token.row) :
  In r (token_rows info ttf vocab tf) <->
  exists t k,
    In t (map Info.ix info) /\ (k < nrows ttf)%nat /\
    fge (cell ttf k t) (Fin (Q2Qc (1 # 2))) = true /\
    r = Token.Row t (k + 1) (fdiv (fround (cell ttf k t)) (Fin (at_ 0%Qc tf t)))
                  (at_ "" vocab t).
Proof.
  unfold token_rows. cbv zeta.
  set (term_ix := isort Nat.leb (unique (map Info.ix info))).
  assert (Hix : forall t, In t (map Info.ix info)
                          <-> exists c, (c < length term_ix)%nat /\ t = at_ 0%nat term_ix c).
  { intros t. rewrite <- in_by_position. unfold term_ix.
    now rewrite in_sorted_nats, in_unique. }
  split.
  - intros H.
    apply in_map_iff in H as (r1 & <- & H).
    apply in_map_iff in H as ([[t n] x] & <- & H).
    apply in_map_iff in H as ([[t' n'] x'] & E & H). inversion E; subst t' n' x.
    apply filter_In in H as [H Hge].
    apply in_flat_map in H as (c & Hc & H). apply in_seq in Hc.
    apply in_map_iff in H as (k & E' & Hk). apply in_seq in Hk.
    inversion E'; subst t n x'. cbn [select_columns cell] in *.
    exists (at_ 0%nat term_ix c), k. split; [|split; [|split]].
    + apply Hix. exists c. split; [lia|reflexivity].
    + lia.
    + exact Hge.
    + reflexivity.
  - intros (t & k & Ht & Hk & Hge & ->).
    apply Hix in Ht as (c & Hc & ->).
    apply in_map_iff.
    exists (Token.Row (at_ 0%nat term_ix c) (k + 1)
                      (fround (cell ttf k (at_ 0%nat term_ix c)))
                      (at_ "" vocab (at_ 0%nat term_ix c))).
    split; [reflexivity|].
    apply in_map_iff.
    exists (at_ 0%nat term_ix c, (k + 1)%nat, fround (cell ttf k (at_ 0%nat term_ix c))).
    split; [reflexivity|].
    apply in_map_iff.
    exists (at_ 0%nat term_ix c, (k + 1)%nat, cell ttf k (at_ 0%nat term_ix c)).
    split; [reflexivity|].
    apply filter_In. split; [|exact Hge].
    apply in_flat_map. exists c. split; [apply in_seq; lia|].
    apply in_map_iff. exists k. split; [reflexivity|apply in_seq; lia].
Qed.

Section TokenTableFacts.
Variable sort_term_topic : list (string * nat) -> list nat.
Hypothesis sort_contract : sorts_by_term_topic sort_term_topic.

Lemma token_table_perm (info : list Info.row) (ttf : frame fnum)
    (vocab : list string) (tf : list Qc) :
  Permutation (_token_table sort_term_topic info ttf vocab tf)
              (token_rows info ttf vocab tf).
Proof.
  rewrite token_table_unfold.
  set (T := token_rows info ttf vocab tf).
  destruct sort_contract as [Hperm _].
  specialize (Hperm (map (fun r => (Token.Term r, Token.Topic r)) T)).
  rewrite length_map in Hperm.
  apply Permutation_trans
    with (map (at_ (Token.Row 0 0 NaN "") T) (seq 0 (length T))).
  - apply Permutation_map. exact Hperm.
  - unfold at_. now rewrite map_positions.
Qed.

Lemma token_table_sorted (info : list Info.row) (ttf : frame fnum)
    (vocab : list string) (tf : list Qc) :
  StronglySorted (fun a b => term_topic_leb a b = true)
    (map (fun r => (Token.Term r, Token.Topic r))
         (_token_table sort_term_topic info ttf vocab tf)).
Proof.
  rewrite token_table_unfold.
  set (T := token_rows info ttf vocab tf).
  destruct sort_contract as [_ Hsorted].
  specialize (Hsorted (map (fun r => (Token.Term r, Token.Topic r)) T)).
  rewrite map_map.
  erewrite map_ext; [exact Hsorted|].
  intros i. unfold at_. symmetry.
  apply (map_nth (fun r => (Token.Term r, Token.Topic r)) T (Token.Row 0 0 NaN "") i).
Qed.

End TokenTableFacts.

(** *** Bounds of the normalized frequencies *)

Lemma Qcle_inject (a b : Z) :
  (Q2Qc (inject_Z a) <= Q2Qc (inject_Z b))%Qc <-> (a <= b)%Z.
Proof. unfold Qcle. rewrite !inject_this, <- Zle_Qle. reflexivity. Qed.

Lemma Qcmult_nonneg (a b : Qc) : (0 <= a -> 0 <= b -> 0 <= a * b)%Qc.
Proof.
  intros Ha Hb. rewrite <- (Qcmult_0_l b). now apply Qcmult_le_compat_r.
Qed.

Lemma Qcinv_nonneg (s : Qc) : (0 <= s -> 0 <= / s)%Qc.
Proof.
  intros Hs. change (0 <= this s)%Q in Hs.
  change (0 <= Qred (/ this s))%Q. rewrite Qred_correct.
  now apply Qinv_le_0_compat.
Qed.

Lemma Qsum_nonneg (l : list Qc) : Forall (fun x => 0 <= x)%Qc l -> (0 <= Qsum l)%Qc.
Proof.
  induction 1 as [|x l Hx _ IH]; simpl; [apply Qcle_refl|].
  rewrite <- (Qcplus_0_l 0). now apply Qcplus_le_compat.
Qed.

Lemma Qsum_bounds_element (l : list Qc) (x : Qc) :
  Forall (fun y => 0 <= y)%Qc l -> In x l -> (x <= Qsum l)%Qc.
Proof.
  induction 1 as [|y l Hy Hl IH]; simpl; [contradiction|].
  intros [->|Hin].
  - rewrite <- (Qcplus_0_r x) at 1.
    apply Qcplus_le_compat; [apply Qcle_refl|now apply Qsum_nonneg].
  - rewrite <- (Qcplus_0_l x).
    apply Qcplus_le_compat; [exact Hy|auto].
Qed.

Lemma rescaled_bounds (r s tf : Qc) :
  (0 <= r -> r <= s -> s <> 0 -> 0 <= tf ->
   0 <= r * (tf / s) /\ r * (tf / s) <= tf)%Qc.
Proof.
  intros Hr Hrs Hs Htf.
  assert (Hs0 : (0 <= s)%Qc) by exact (Qcle_trans _ _ _ Hr Hrs).
  assert (Hq : (0 <= tf / s)%Qc).
  { unfold Qcdiv. apply Qcmult_nonneg; [exact Htf|now apply Qcinv_nonneg]. }
  split.
  - now apply Qcmult_nonneg.
  - rewrite <- (Qcmult_div_r tf s Hs) at 2.
    now apply Qcmult_le_compat_r.
Qed.

Lemma Qfloor_inject (m : Z) : Qfloor (Q2Qc (inject_Z m)) = m.
Proof. rewrite inject_this. apply Qfloor_Z. Qed.

Lemma round_half_even_cases (x : Qc) :
  round_half_even x = Qfloor x \/ round_half_even x = (Qfloor x + 1)%Z.
Proof.
  unfold round_half_even. cbv zeta.
  destruct (Qccompare _ _); auto. destruct (Z.even _); auto.
Qed.

Lemma round_half_even_nonneg (x : Qc) : (0 <= x)%Qc -> (0 <= round_half_even x)%Z.
Proof.
  intros Hx.
  assert (H0 : (0 <= Qfloor x)%Z).
  { change 0%Z with (Qfloor 0). apply Qfloor_resp_le. exact Hx. }
  destruct (round_half_even_cases x) as [-> | ->]; lia.
Qed.

Lemma round_half_even_le (x : Qc) (m : Z) :
  (x <= Q2Qc (inject_Z m))%Qc -> (round_half_even x <= m)%Z.
Proof.
  intros Hx.
  assert (Hn : (Qfloor x <= m)%Z).
  { rewrite <- (Qfloor_inject m). apply Qfloor_resp_le. exact Hx. }
  destruct (Z.eq_dec (Qfloor x) m) as [E|N].
  - assert (Ex : x = Q2Qc (inject_Z m)).
    { apply Qcle_antisym; [exact Hx|].
      unfold Qcle. rewrite inject_this, <- E. apply Qfloor_le. }
    subst x. unfold round_half_even. cbv zeta.
    rewrite Qfloor_inject.
    replace (Q2Qc (inject_Z m) - Q2Qc (inject_Z m))%Qc with 0%Qc by ring.
    change (Qccompare 0 (Q2Qc (1 # 2))) with Lt. cbv iota. lia.
  - destruct (round_half_even_cases x) as [-> | ->]; lia.
Qed.

Lemma integer_ratio_bounds (m n : Z) :
  (0 <= m <= n)%Z -> (0 < n)%Z ->
  (0 <= Q2Qc (inject_Z m) / Q2Qc (inject_Z n) /\
   Q2Qc (inject_Z m) / Q2Qc (inject_Z n) <= 1)%Qc.
Proof.
  intros Hm Hn.
  assert (Hn0 : (0 <= Q2Qc (inject_Z n))%Qc)
    by (change 0%Qc with (Q2Qc (inject_Z 0)); apply Qcle_inject; lia).
  assert (Hne : Q2Qc (inject_Z n) <> 0%Qc).
  { intros E. apply (f_equal (fun q : Qc => Qfloor q)) in E.
    rewrite Qfloor_inject in E. change (Qfloor 0%Qc) with 0%Z in E. lia. }
  unfold Qcdiv. split.
  - apply Qcmult_nonneg; [|now apply Qcinv_nonneg].
    change 0%Qc with (Q2Qc (inject_Z 0)). apply Qcle_inject. lia.
  - rewrite <- (Qcmult_inv_r _ Hne).
    apply Qcmult_le_compat_r; [apply Qcle_inject; lia|now apply Qcinv_nonneg].
Qed.

Lemma at_nonneg (l : list Qc) (i : nat) :
  Forall (fun x => 0 <= x)%Qc l -> (0 <= at_ 0%Qc l i)%Qc.
Proof.
  intros H. unfold at_. destruct (Nat.lt_ge_cases i (length l)) as [Hi|Hi].
  - rewrite Forall_forall in H. apply H. now apply nth_In.
  - rewrite nth_overflow by trivial. apply Qcle_refl.
Qed.

Lemma at_count (l : list Qc) (i : nat) : Forall is_count l -> is_count (at_ 0%Qc l i).
Proof.
  intros H. unfold at_. destruct (Nat.lt_ge_cases i (length l)) as [Hi|Hi].
  - rewrite Forall_forall in H. apply H. now apply nth_In.
  - rewrite nth_overflow by trivial. now exists 0%nat.
Qed.

Lemma term_topic_freq_outside (ttd : frame Qc) (topic_freq tf : list Qc) (k w : nat) :
  (ncols ttd <= w)%nat -> cell (_term_topic_freq ttd topic_freq tf) k w = NaN.
Proof.
  intros Hw. unfold _term_topic_freq. cbn [cell]. unfold at_ at 1.
  rewrite nth_overflow; [reflexivity|].
  now rewrite length_map, length_seq.
Qed.

Lemma retained_frequency_bounds (ttd : frame Qc) (topic_freq tf : list Qc) (k t : nat) :
  (forall j w, (j < nrows ttd)%nat -> (w < ncols ttd)%nat -> (0 <= cell ttd j w)%Qc) ->
  Forall (fun x => 0 <= x)%Qc topic_freq ->
  Forall is_count tf ->
  (k < nrows ttd)%nat ->
  fge (cell (_term_topic_freq ttd topic_freq tf) k t) (Fin (Q2Qc (1 # 2))) = true ->
  exists q,
    fdiv (fround (cell (_term_topic_freq ttd topic_freq tf) k t)) (Fin (at_ 0%Qc tf t))
    = Fin q /\ (0 <= q)%Qc /\ (q <= 1)%Qc.
Proof.
  intros Httd Hfreq Htf Hk Hge.
  destruct (Nat.lt_ge_cases t (ncols ttd)) as [Ht|Ht];
    [|rewrite term_topic_freq_outside in Hge by trivial; discriminate Hge].
  rewrite term_topic_freq_cell in * by trivial.
  set (raw := weight_rows ttd topic_freq) in *.
  set (s := Qsum (column raw t)) in *.
  assert (Hraw : forall j, (j < nrows ttd)%nat -> (0 <= cell raw j t)%Qc).
  { intros j Hj. subst raw. cbn [weight_rows cell].
    apply Qcmult_nonneg; [now apply Httd|now apply at_nonneg]. }
  assert (Hcol : Forall (fun x => 0 <= x)%Qc (column raw t)).
  { unfold column. rewrite Forall_map. apply Forall_forall.
    intros j Hj. apply in_seq in Hj. apply Hraw. subst raw. cbn [nrows weight_rows] in Hj. lia. }
  assert (Hrs : (cell raw k t <= s)%Qc).
  { apply Qsum_bounds_element; [exact Hcol|].
    unfold column. apply (in_map (fun j => cell raw j t)). apply in_seq.
    subst raw. cbn [nrows weight_rows]. lia. }
  destruct (at_count t Htf) as [n Hn]. rewrite Hn in *.
  destruct (Qc_eq_dec s 0) as [Hs|Hs].
  - exfalso. rewrite Hs in *.
    assert (Hr : cell raw k t = 0%Qc)
      by (apply Qcle_antisym; [exact Hrs|now apply Hraw]).
    rewrite Hr in Hge. cbn [fdiv] in Hge.
    change (Qc_eq_bool 0 0) with true in Hge. cbv iota in Hge.
    destruct (Q2Qc (inject_Z (Z.of_nat n)) ?= 0)%Qc; discriminate Hge.
  - rewrite fdiv_finite in * by exact Hs. cbn [fmul] in *.
    set (c := (cell raw k t * (Q2Qc (inject_Z (Z.of_nat n)) / s))%Qc) in *.
    assert (Hhalf : (Q2Qc (1 # 2) <= c)%Qc) by now apply Qc_leb_le.
    assert (Hn0 : (0 <= Q2Qc (inject_Z (Z.of_nat n)))%Qc)
      by (change 0%Qc with (Q2Qc (inject_Z 0)); apply Qcle_inject; lia).
    destruct (@rescaled_bounds (cell raw k t) s (Q2Qc (inject_Z (Z.of_nat n))))
      as [Hc0 Hcn]; trivial; [now apply Hraw|]. fold c in Hc0, Hcn.
    pose proof (round_half_even_nonneg Hc0) as Hm0.
    pose proof (@round_half_even_le c (Z.of_nat n) Hcn) as Hmn.
    assert (Hpos : (0 < Z.of_nat n)%Z).
    { destruct n as [|n]; [|lia]. exfalso.
      assert (Habs : (Q2Qc (1 # 2) <= 0)%Qc) by exact (Qcle_trans _ _ _ Hhalf Hcn).
      apply Qc_leb_le in Habs. discriminate Habs. }
    destruct (@integer_ratio_bounds (round_half_even c) (Z.of_nat n)) as [Hq0 Hq1];
      [lia|exact Hpos|].
    cbn [fround]. rewrite fdiv_finite.
    + eexists. split; [reflexivity|]. split; assumption.
    + intros E. apply (f_equal (fun q : Qc => Qfloor q)) in E.
      rewrite Qfloor_inject in E. change (Qfloor 0%Qc) with 0%Z in E. lia.
Qed.

(** *** The order of the terms and topics *)

Lemma ascii_compare_refl (a : ascii) : Ascii.compare a a = Eq.
Proof. unfold Ascii.compare. apply N.compare_refl. Qed.

Lemma ascii_compare_lt_trans (a b c : ascii) :
  Ascii.compare a b = Lt -> Ascii.compare b c = Lt -> Ascii.compare a c = Lt.
Proof. unfold Ascii.compare. rewrite !N.compare_lt_iff. lia. Qed.

Lemma string_compare_lt_trans (a b c : string) :
  String.compare a b = Lt -> String.compare b c = Lt -> String.compare a c = Lt.
Proof.
  revert b c. induction a as [|x a IH]; intros [|y b] [|z c]; simpl;
    try discriminate; trivial.
  destruct (Ascii.compare x y) eqn:Exy, (Ascii.compare y z) eqn:Eyz;
    try discriminate; intros H1 H2.
  - apply Ascii.compare_eq_iff in Exy, Eyz. subst y z.
    rewrite ascii_compare_refl. eauto.
  - apply Ascii.compare_eq_iff in Exy. subst y. now rewrite Eyz.
  - apply Ascii.compare_eq_iff in Eyz. subst z. now rewrite Exy.
  - now rewrite (ascii_compare_lt_trans _ _ _ Exy Eyz).
Qed.

Lemma string_ltb_lt (a b : string) : String.ltb a b = true <-> String.compare a b = Lt.
Proof. unfold String.ltb. destruct (String.compare a b); split; congruence. Qed.

Lemma term_topic_leb_total (a b : string * nat) :
  term_topic_leb a b = true \/ term_topic_leb b a = true.
Proof.
  destruct a as [s n], b as [s' n']. unfold term_topic_leb. cbn [fst snd].
  destruct (String.compare s s') eqn:E.
  - apply String.compare_eq_iff in E. subst s'.
    rewrite String.eqb_refl, !andb_true_l.
    destruct (Nat.leb_spec n n'); [left|right]; apply orb_true_iff; right; trivial.
    apply Nat.leb_le. lia.
  - left. apply orb_true_iff. left. now apply string_ltb_lt.
  - right. apply orb_true_iff. left. apply string_ltb_lt.
    rewrite String.compare_antisym, E. reflexivity.
Qed.

Lemma term_topic_leb_trans (a b c : string * nat) :
  term_topic_leb a b = true -> term_topic_leb b c = true -> term_topic_leb a c = true.
Proof.
  destruct a as [s n], b as [s' n'], c as [s'' n'']. unfold term_topic_leb.
  cbn [fst snd]. rewrite !orb_true_iff, !andb_true_iff, !string_ltb_lt,
    !String.eqb_eq, !Nat.leb_le.
  intros [H1|[-> H1]] [H2|[-> H2]].
  - left. eapply string_compare_lt_trans; eauto.
  - now left.
  - now left.
  - right. split; [reflexivity|lia].
Qed.

Lemma stable_sort_term_topic_sorts : sorts_by_term_topic stable_sort_term_topic.
Proof.
  split.
  - intros l. apply argsort_by_perm.
  - intros l. apply (argsort_by_sorted term_topic_leb (""%string, 0%nat) l).
    + apply term_topic_leb_total.
    + apply term_topic_leb_trans.
Qed.

(** C8 (amended).  A row of the token table is a term of the topic-info
    table and a topic whose corrected frequency is at least 0.5, and every
    such pair has its row: no entry below 0.5 appears.  The row carries the
    1-based number of the topic, the label of the term, and the frequency
    rounded to the nearest integer and divided by the term's frequency in
    the corpus.  The rows are sorted by term label, then by topic number.
    When the entries of [topic_term_dists] and the masses of the topics are
    not negative and the term frequencies are counts, the normalized
    frequency of every row is in [0, 1]. *)
Theorem token_table_rows (sort_term_topic : list (string * nat) -> list nat)
    (info : list Info.row) (ttd : frame Qc) (topic_freq tf : list Qc)
    (vocab : list string) :
  sorts_by_term_topic sort_term_topic ->
  let ttf := _term_topic_freq ttd topic_freq tf in
  let table := _token_table sort_term_topic info ttf vocab tf in
  (forall r, In r table <->
     exists t k,
       In t (map Info.ix info) /\ (k < nrows ttd)%nat /\
       fge (cell ttf k t) (Fin (Q2Qc (1 # 2))) = true /\
       r = Token.Row t (k + 1)
                     (fdiv (fround (cell ttf k t)) (Fin (at_ 0%Qc tf t)))
                     (at_ "" vocab t)) /\
  (forall r raw, In r table ->
     cell ttf (Token.Topic r - 1) (Token.term r) = Fin raw ->
     (Q2Qc (1 # 2) <= raw)%Qc) /\
  StronglySorted (fun a b => term_topic_leb a b = true)
    (map (fun r => (Token.Term r, Token.Topic r)) table) /\
  ((forall j w, (j < nrows ttd)%nat -> (w < ncols ttd)%nat -> (0 <= cell ttd j w)%Qc) ->
   Forall (fun x => 0 <= x)%Qc topic_freq ->
   Forall is_count tf ->
   forall r, In r table ->
     exists q, Token.Freq r = Fin q /\ (0 <= q)%Qc /\ (q <= 1)%Qc).
Proof.
  intros Hsort ttf table.
  assert (Hrows : forall r, In r table <->
     exists t k,
       In t (map Info.ix info) /\ (k < nrows ttd)%nat /\
       fge (cell ttf k t) (Fin (Q2Qc (1 # 2))) = true /\
       r = Token.Row t (k + 1)
                     (fdiv (fround (cell ttf k t)) (Fin (at_ 0%Qc tf t)))
                     (at_ "" vocab t)).
  { intros r. transitivity (In r (token_rows info ttf vocab tf)).
    - split; apply Permutation_in; [|symmetry]; now apply token_table_perm.
    - exact (in_token_rows info ttf vocab tf r). }
  split; [exact Hrows|]. split; [|split].
  - intros r raw Hr Hraw. apply Hrows in Hr as (t & k & _ & _ & Hge & ->).
    cbn [Token.Topic Token.term] in Hraw.
    replace (k + 1 - 1)%nat with k in Hraw by lia.
    rewrite Hraw in Hge. now apply Qc_leb_le.
  - now apply token_table_sorted.
  - intros Httd Hfreq Htf r Hr. apply Hrows in Hr as (t & k & _ & Hk & Hge & ->).
    cbn [Token.Freq]. now apply retained_frequency_bounds.
Qed.

Lemma token_table_rows_witness :
  let ttd := table 3 [[qc 1 10; qc 3 10; qc 6 10]; [qc 7 10; qc 2 10; qc 1 10]] in
  let topic_freq := [qc 17 1; qc 13 1] in
  let tf := [qc 5 1; qc 10 1; qc 15 1] in
  let table :=
    _token_table stable_sort_term_topic two_term_info
                 (_term_topic_freq ttd topic_freq tf) ["a"; "b"; "c"] tf in
  sorts_by_term_topic stable_sort_term_topic /\
  StronglySorted (fun a b => term_topic_leb a b = true)
    (map (fun r => (Token.Term r, Token.Topic r)) table) /\
  map (fun r => (Token.Term r, Token.Topic r)) table
  = [("a", 1); ("a", 2); ("c", 1); ("c", 2)]%nat.
Proof.
  cbv zeta. split; [apply stable_sort_term_topic_sorts|]. split.
  - apply (@token_table_rows stable_sort_term_topic two_term_info
             (table 3 [[qc 1 10; qc 3 10; qc 6 10]; [qc 7 10; qc 2 10; qc 1 10]])
             [qc 17 1; qc 13 1] [qc 5 1; qc 10 1; qc 15 1] ["a"; "b"; "c"]
             stable_sort_term_topic_sorts).
  - vm_compute. reflexivity.
Defined.

(** C8 (as stated, refuted).  [fractional_inputs] passes the validation; the
    corrected frequency of its term in its topic is 3/2, which rounds to 2,
    and 2 divided by the term frequency 3/2 is 4/3: the row of the token
    table has a normalized frequency above 1, whatever table of topic-info
    refers to the term and whatever the sorts do with equal keys.  So it is
    in the run of [prepare] on the instances of the examples. *)
Lemma token_frequency_above_one :
  _input_check round_py3 (named fractional_inputs) = None /\
  (forall (order_desc : list fnum -> list nat)
          (sort_term_topic : list (string * nat) -> list nat) (info : list Info.row),
     sorts_descending order_desc ->
     sorts_by_term_topic sort_term_topic ->
     In 0%nat (map Info.ix info) ->
     let r := reorder order_desc (named fractional_inputs) in
     let ttf := _term_topic_freq (topic_term_dists' r) (topic_freq r)
                                 (term_frequency fractional_inputs) in
     exists row,
       In row (_token_table sort_term_topic info ttf (vocab fractional_inputs)
                            (term_frequency fractional_inputs)) /\
       Token.Freq row = Fin (qc 4 3) /\ ~ (qc 4 3 <= 1)%Qc) /\
  exists pd,
    fractional_run = Ok pd /\
    map (fun r => fnum_eqb (Token.Freq r) (Fin (qc 4 3))) (Prepared.token_table pd)
    = [true].
Proof.
  split; [vm_compute; reflexivity|]. split.
  - intros order_desc sort_term_topic info Hdesc Hsort Hix r ttf. subst ttf r.
    rewrite (@reorder_with order_desc _ [0%nat])
      by (apply sorts_singleton; [exact Hdesc|reflexivity]).
    set (ttf := _term_topic_freq _ _ _).
    exists (Token.Row 0 (0 + 1)
                      (fdiv (fround (cell ttf 0 0))
                            (Fin (at_ 0%Qc (term_frequency fractional_inputs) 0)))
                      (at_ "" (vocab fractional_inputs) 0)).
    split; [|split].
    + eapply Permutation_in; [symmetry; now apply token_table_perm|].
      apply in_token_rows. exists 0%nat, 0%nat.
      split; [exact Hix|]. split; [vm_compute; lia|].
      split; [vm_compute; reflexivity|reflexivity].
    + cbn [Token.Freq]. apply fnum_eqb_eq. vm_compute. reflexivity.
    + intros H. apply Qc_leb_le in H. vm_compute in H. discriminate H.
  - destruct fractional_run as [pd|e] eqn:Hpd; [|vm_compute in Hpd; discriminate Hpd].
    exists pd. split; [reflexivity|].
    vm_compute in Hpd. inversion Hpd. vm_compute. reflexivity.
Qed.

(** ** The topic numbers of the client, in the three tables *)

Lemma topic_rows_of_info (vocab : list string) (tf : list Qc)
    (ttf log_ttd log_lift : frame fnum) (labels : list nat) (top_terms : frame nat)
    (default_term_info : list Info.row) (k : nat) (row : Info.row) :
  Forall (fun r => Info.Category r = "Default") default_term_info ->
  In row (default_term_info
          ++ concat (map (topic_top_term_df vocab tf ttf log_ttd log_lift)
                         (enumerate1 (iterrows_T labels top_terms)))) ->
  Info.Category row = ("Topic" ++ decimal (k + 1))%string ->
  Info.Freq row = loc ttf (at_ 0%nat labels k) (Info.ix row).
Proof.
  intros Hdefault Hrow Hcat. apply in_app_or in Hrow as [Hrow|Hrow].
  - rewrite Forall_forall in Hdefault. rewrite (Hdefault row Hrow) in Hcat.
    discriminate Hcat.
  - apply in_concat in Hrow as (df & Hdf & Hrow).
    apply in_map_iff in Hdf as ([n [label terms]] & <- & Hn).
    apply in_enumerate1 in Hn as (j & -> & Hj).
    unfold iterrows_T in Hj. apply nth_error_map_seq in Hj as [Hj E].
    inversion E; subst label terms.
    unfold topic_top_term_df in Hrow.
    apply in_map_iff in Hrow as (t & <- & Ht).
    cbn [Info.Category Info.ix Info.Freq] in *.
    apply topic_category_inj in Hcat.
    assert (j = k) by lia. now subst j.
Qed.

(** C6.  When [prepare] returns, its [topic_order], exported under
    ['topic.order'], lists the original topic numbers in display order, each
    plus one; and the topic whose original number is [t] is shown under the
    number [position t topic_order + 1] in the three tables: the row of the
    coordinates with the label [t] and the proportion of topic [t], the
    rows of the topic-info table with the frequencies of topic [t], and the
    rows of the token table with the frequencies of topic [t] carry this
    number. *)
Theorem client_topic_ids (round : Qc -> Z -> Qc) (cpu_count : Z) (log : fnum -> fnum)
    (nansum : list fnum -> fnum) (order_desc sort_desc : list fnum -> list nat)
    (sort_term_topic : list (string * nat) -> list nat)
    (i : inputs) (R : nat) (lambda_step : Qc) (mds : frame Qc -> frame fnum)
    (plot_opts : list (string * value)) (n_jobs : Z) (pd : Prepared.PreparedData) :
  sorts_descending order_desc ->
  sorts_by_term_topic sort_term_topic ->
  prepare round cpu_count log nansum order_desc sort_desc sort_term_topic
          i R lambda_step mds plot_opts n_jobs = Ok pd ->
  let r := reorder order_desc (named i) in
  let K := nrows (topic_term_dists i) in
  let proportion := normalize (topic_mass (named i)) in
  let ttf := _term_topic_freq (topic_term_dists' r) (topic_freq r) (term_frequency i) in
  lookup "topic.order" (to_dict pd) = Some (VList (map VNat (Prepared.topic_order pd))) /\
  Prepared.topic_order pd = map (fun t => t + 1)%nat (topic_order r) /\
  (forall j, (j < K)%nat ->
     nth_error (Prepared.topic_order pd) j = Some (at_ 0%nat (topic_order r) j + 1)%nat) /\
  map Coord.label (Prepared.topic_coordinates pd) = topic_order r /\
  (forall row, In row (Prepared.topic_coordinates pd) ->
     Coord.topics row = (position (Coord.label row) (topic_order r) + 1)%nat) /\
  (forall t, (t < K)%nat ->
     exists row, In row (Prepared.topic_coordinates pd) /\
       Coord.label row = t /\
       Coord.topics row = (position t (topic_order r) + 1)%nat /\
       Coord.Freq row = fmul (at_ NaN proportion t) (Fin (Q2Qc (inject_Z 100)))) /\
  (forall t row, (t < K)%nat ->
     In row (Prepared.topic_info pd) ->
     Info.Category row = ("Topic" ++ decimal (position t (topic_order r) + 1))%string ->
     Info.Freq row = loc ttf t (Info.ix row)) /\
  (forall row, In row (Prepared.token_table pd) ->
     exists t, (t < K)%nat /\
       Token.Topic row = (position t (topic_order r) + 1)%nat /\
       Token.Freq row = fdiv (fround (loc ttf t (Token.term row)))
                             (Fin (at_ 0%Qc (term_frequency i) (Token.term row)))).
Proof.
  intros Hsort Htokens Hpd r K proportion ttf.
  apply prepare_ok_inv in Hpd. cbv zeta in Hpd.
  destruct Hpd as (Hval & info & coords & Hinfo & Hcoords & ->).
  pose proof (@topic_order_perm round order_desc i Hsort Hval) as Hperm.
  fold r K in Hperm.
  assert (Hlen : length (topic_order r) = K)
    by now rewrite (Permutation_length Hperm), length_seq.
  assert (Hnd : NoDup (topic_order r)) by (eapply permutation_seq_NoDup; eauto).
  assert (Hin : forall t, (t < K)%nat -> In t (topic_order r)).
  { intros t Ht. eapply Permutation_in; [symmetry; exact Hperm|]. apply in_seq. lia. }
  apply topic_coordinates_ok_inv in Hcoords. destruct Hcoords as [_ Hcoords].
  fold r in Hcoords, Hinfo. fold ttf in Hinfo.
  assert (HK : nrows (topic_term_dists' r) = K) by exact Hlen.
  rewrite HK in Hcoords. subst coords.
  cbn [Prepared.topic_order Prepared.topic_coordinates Prepared.topic_info
       Prepared.token_table]. fold r. fold ttf.
  split; [reflexivity|]. split; [reflexivity|].
  split; [|split; [|split; [|split; [|split]]]].
  - intros j Hj. rewrite nth_error_map.
    rewrite nth_error_nth' with (d := 0%nat) by lia. reflexivity.
  - rewrite map_map. cbn [Coord.label].
    change (index (topic_proportion r)) with (topic_order r).
    rewrite <- Hlen. clear. induction (topic_order r) as [|x l IH]; [reflexivity|].
    simpl. f_equal. rewrite <- seq_shift, map_map. exact IH.
  - intros row Hrow.
    apply in_map_iff in Hrow as (k & <- & Hk). apply in_seq in Hk.
    cbn [Coord.topics Coord.label]. unfold one_based. f_equal.
    change (index (topic_proportion r)) with (topic_order r).
    symmetry. apply position_nth; trivial. lia.
  - intros t Ht. pose proof (position_lt _ _ (Hin t Ht)) as Hpos.
    eexists. split; [|split; [|split]].
    + apply in_map with (x := position t (topic_order r)).
      apply in_seq. lia.
    + cbn [Coord.label]. change (index (topic_proportion r)) with (topic_order r).
      apply nth_position. auto.
    + reflexivity.
    + cbn [Coord.Freq]. f_equal.
      change (values (topic_proportion r))
        with (map (at_ NaN proportion) (topic_order r)).
      unfold at_ at 1.
      rewrite nth_indep with (d' := at_ NaN proportion 0%nat)
        by now rewrite length_map.
      rewrite map_nth. f_equal. apply nth_position. auto.
  - intros t row Ht Hrow Hcat.
    apply topic_info_ok_inv in Hinfo. cbv zeta in Hinfo.
    destruct Hinfo as (default & lambda_seq & chunks & results & top_terms
                       & Hdefault & _ & _ & _ & _ & ->).
    rewrite (@topic_rows_of_info _ _ _ _ _ _ _ _ _ row Hdefault Hrow Hcat).
    f_equal. change (frame_index (topic_term_dists' r)) with (topic_order r).
    apply nth_position. auto.
  - intros row Hrow.
    eapply Permutation_in in Hrow; [|now apply token_table_perm].
    apply in_token_rows in Hrow as (w & k & _ & Hk & _ & ->).
    change (nrows ttf) with (length (topic_order r)) in Hk.
    exists (at_ 0%nat (topic_order r) k).
    assert (Epos : position (at_ 0%nat (topic_order r) k) (topic_order r) = k)
      by (apply position_nth; trivial).
    split; [|split].
    + apply in_seq with (start := 0%nat). cbn [Nat.add].
      eapply Permutation_in; [exact Hperm|]. now apply nth_In.
    + cbn [Token.Topic]. now rewrite Epos.
    + cbn [Token.Freq Token.term]. unfold loc.
      change (frame_index ttf) with (topic_order r). now rewrite Epos.
Qed.

Lemma client_topic_ids_witness :
  sorts_descending stable_argsort_desc /\
  sorts_by_term_topic stable_sort_term_topic /\
  exists pd,
    example_run = Ok pd /\
    lookup "topic.order" (to_dict pd) = Some (VList (map VNat (Prepared.topic_order pd))) /\
    Prepared.topic_order pd
    = map (fun t => t + 1)%nat
          (topic_order (reorder stable_argsort_desc (named example_inputs))) /\
    Prepared.topic_order pd = [2; 1]%nat /\
    map Coord.topics (Prepared.topic_coordinates pd) = [1; 2]%nat /\
    map Coord.label (Prepared.topic_coordinates pd) = [1; 0]%nat.
Proof.
  split; [apply stable_argsort_desc_sorts|].
  split; [apply stable_sort_term_topic_sorts|].
  destruct example_run as [pd|e] eqn:Hpd; [|vm_compute in Hpd; discriminate Hpd].
  exists pd. split; [reflexivity|].
  pose proof (@client_topic_ids _ _ _ _ _ _ _ _ _ _ _ _ _ pd
                stable_argsort_desc_sorts stable_sort_term_topic_sorts Hpd) as H.
  cbv zeta in H. destruct H as (H1 & H2 & _).
  split; [exact H1|]. split; [exact H2|].
  vm_compute in Hpd. inversion Hpd. repeat split; reflexivity.
Defined.

(** * Further properties of the code *)

(** ** More on the partition of the sweep *)

Lemma nth_chunks_from {A : Type} (l : list A) (n count start j : nat) :
  (j < count)%nat ->
  nth j (chunks_from l n start count) [] = firstn n (skipn ((start + j) * n) l).
Proof.
  revert start j. induction count as [|c IH]; intros start j Hj; [lia|].
  destruct j as [|j]; simpl.
  - now rewrite Nat.add_0_r.
  - rewrite IH by lia. do 3 f_equal. lia.
Qed.

Lemma ceil_div_last (m n : nat) :
  (0 < n)%nat -> (0 < m)%nat -> (((m + n - 1) / n - 1) * n < m)%nat.
Proof.
  intros Hn Hm.
  pose proof (Nat.div_mod_eq (m + n - 1) n) as E.
  pose proof (Nat.mod_upper_bound (m + n - 1) n ltac:(lia)) as B.
  assert (0 < (m + n - 1) / n)%nat by (apply Nat.div_str_pos; lia).
  nia.
Qed.

(** X1.  For a positive size [n], [_chunks l n] yields [ceil (len l / n)]
    chunks; no chunk is empty, none has more than [n] elements, and every
    chunk but the last has exactly [n]. *)
Theorem chunks_sizes (A : Type) (l : list A) (n : Z) :
  (0 < n)%Z ->
  exists cs,
    _chunks l n = Ok cs /\
    Z.of_nat (length cs) = ((Py.len l + n - 1) / n)%Z /\
    Forall (fun c => c <> [] /\ (Py.len c <= n)%Z) cs /\
    (forall j, (S j < length cs)%nat -> Py.len (nth j cs []) = n).
Proof.
  intros Hn.
  pose proof (@_chunks_pos A l (Z.to_nat n) ltac:(lia)) as E.
  rewrite Z2Nat.id in E by lia. rewrite E.
  set (m := Z.to_nat n). assert (Hm : (0 < m)%nat) by lia.
  set (count := ((length l + m - 1) / m)%nat).
  eexists. split; [reflexivity|]. split; [|split].
  - rewrite length_chunks_from. unfold Py.len, count.
    rewrite Nat2Z.inj_div. f_equal; lia.
  - destruct (Nat.eq_dec (length l) 0) as [E0|N0].
    + assert (Hc : count = 0%nat).
      { unfold count. rewrite E0. apply Nat.div_small. lia. }
      rewrite Hc. constructor.
    + pose proof (@chunks_from_nonempty A l m count 0 Hm) as Hne.
      pose proof (@chunks_from_sizes A l m count 0) as Hsz.
      assert (Hlast : ((0 + count - 1) * m < length l)%nat).
      { apply ceil_div_last; lia. }
      specialize (Hne Hlast).
      rewrite Forall_forall in *. intros c Hc. split; [auto|].
      specialize (Hsz c Hc). simpl in Hsz. unfold Py.len. lia.
  - intros j Hj. rewrite length_chunks_from in Hj.
    rewrite nth_chunks_from by lia. unfold Py.len.
    rewrite length_firstn, length_skipn. cbn [Nat.add].
    assert (Hlen : (0 < length l)%nat).
    { destruct (Nat.eq_dec (length l) 0) as [E0|]; [|lia].
      exfalso. unfold count in Hj. rewrite E0 in Hj.
      rewrite Nat.div_small in Hj; lia. }
    pose proof (@ceil_div_last (length l) m Hm Hlen) as Hlast. fold count in Hlast.
    nia.
Qed.

Lemma chunks_sizes_witness :
  (0 < 2)%Z /\
  exists cs,
    _chunks [1; 2; 3; 4; 5]%nat 2 = Ok cs /\
    Z.of_nat (length cs) = 3%Z /\
    Forall (fun c => c <> [] /\ (Py.len c <= 2)%Z) cs.
Proof.
  split; [lia|].
  destruct (@chunks_sizes nat [1; 2; 3; 4; 5]%nat 2 ltac:(lia)) as (cs & E & Hn & Hall & _).
  exists cs. split; [exact E|]. split; [exact Hn|exact Hall].
Defined.

(** X2.  [_chunks] with the size 0 raises [ValueError] (the step of its
    [range] is zero); with a negative size it yields no chunk at all, so the
    elements of a non-empty [l] are dropped without an error. *)
Theorem chunks_nonpositive (A : Type) (l : list A) (n : Z) :
  (n <= 0)%Z ->
  _chunks l n = (if (n =? 0)%Z then Raise ValueError else Ok []) /\
  (l <> [] -> forall cs, _chunks l n = Ok cs -> concat cs <> l).
Proof.
  intros Hn.
  assert (E : _chunks l n = if (n =? 0)%Z then Raise ValueError else Ok []).
  { destruct (Z.eqb_spec n 0) as [->|N].
    - reflexivity.
    - apply chunks_negative. lia. }
  split; [exact E|].
  intros Hl cs Hcs. rewrite E in Hcs.
  destruct (n =? 0)%Z; [discriminate|].
  inversion Hcs; subst cs. simpl. congruence.
Qed.

Lemma chunks_nonpositive_witness :
  (-2 <= 0)%Z /\
  _chunks [1; 2; 3]%nat (-2) = Ok [] /\ _chunks [1; 2; 3]%nat 0 = Raise ValueError.
Proof.
  split; [lia|]. split.
  - exact (proj1 (@chunks_nonpositive nat [1; 2; 3]%nat (-2) ltac:(lia))).
  - exact (proj1 (@chunks_nonpositive nat [1; 2; 3]%nat 0 ltac:(lia))).
Defined.

(** X3.  With at least one cpu, [_job_chunks] raises [ValueError] for
    [n_jobs = 0]; for every other [n_jobs] it returns chunks whose
    concatenation is [l], each of at most [n_jobs] elements, or of at most
    [cpu_count + 1 - n_jobs] elements when [n_jobs] is negative. *)
Theorem job_chunks_partition (A : Type) (cpu_count : Z) (l : list A) (n_jobs : Z) :
  (0 < cpu_count)%Z ->
  let size := if (n_jobs <? 0)%Z then (cpu_count + 1 - n_jobs)%Z else n_jobs in
  (n_jobs = 0%Z -> _job_chunks cpu_count l n_jobs = Raise ValueError) /\
  (n_jobs <> 0%Z ->
   exists cs, _job_chunks cpu_count l n_jobs = Ok cs /\
              concat cs = l /\
              Forall (fun c => c <> [] /\ (Py.len c <= size)%Z) cs).
Proof.
  intros Hcpu size. split.
  - intros ->. reflexivity.
  - intros Hjobs. unfold _job_chunks. cbv zeta. fold size.
    assert (Hsize : (0 < size)%Z).
    { subst size. destruct (Z.ltb_spec n_jobs 0); lia. }
    pose proof (@_chunks_pos A l (Z.to_nat size) ltac:(lia)) as E.
    rewrite Z2Nat.id in E by lia. rewrite E.
    set (m := Z.to_nat size) in *. assert (Hm : (0 < m)%nat) by lia.
    eexists. split; [reflexivity|]. split.
    + rewrite concat_chunks_from; [reflexivity|lia|].
      apply cover_bound. lia.
    + destruct (Nat.eq_dec (length l) 0) as [E0|N0].
      * rewrite E0. rewrite Nat.div_small by lia. constructor.
      * pose proof (@chunks_from_nonempty A l m ((length l + m - 1) / m) 0 Hm) as Hne.
        pose proof (@chunks_from_sizes A l m ((length l + m - 1) / m) 0) as Hsz.
        assert (Hlast : ((0 + (length l + m - 1) / m - 1) * m < length l)%nat).
        { apply ceil_div_last; lia. }
        specialize (Hne Hlast).
        rewrite Forall_forall in *. intros c Hc. split; [auto|].
        specialize (Hsz c Hc). simpl in Hsz. unfold Py.len. lia.
Qed.

Lemma job_chunks_partition_witness :
  (0 < 4)%Z /\
  _job_chunks 4 [1; 2; 3; 4; 5; 6; 7]%nat 0 = Raise ValueError /\
  exists cs, _job_chunks 4 [1; 2; 3; 4; 5; 6; 7]%nat (-1) = Ok cs /\
             concat cs = [1; 2; 3; 4; 5; 6; 7]%nat.
Proof.
  split; [lia|].
  pose proof (@job_chunks_partition nat 4 [1; 2; 3; 4; 5; 6; 7]%nat 0 ltac:(lia)) as H0.
  pose proof (@job_chunks_partition nat 4 [1; 2; 3; 4; 5; 6; 7]%nat (-1) ltac:(lia)) as H1.
  cbv zeta in H0, H1. split.
  - apply H0. reflexivity.
  - destruct (proj2 H1 ltac:(lia)) as (cs & E & Hc & _). eauto.
Defined.

(** ** More on the validation *)

Lemma Qclt_inject (a b : Z) :
  (Q2Qc (inject_Z a) < Q2Qc (inject_Z b))%Qc <-> (a < b)%Z.
Proof. unfold Qclt. rewrite !inject_this, <- Zlt_Qlt. reflexivity. Qed.

Lemma py_int_inject (n : Z) : py_int (Q2Qc (inject_Z n)) = n.
Proof.
  unfold py_int. destruct (Qc_leb 0 (Q2Qc (inject_Z n))).
  - apply Qfloor_inject.
  - rewrite inject_this. apply Qceiling_Z.
Qed.

Lemma py_int_positive (x : Qc) (n : Z) :
  (0 < n)%Z ->
  py_int x = n <-> (Q2Qc (inject_Z n) <= x /\ x < Q2Qc (inject_Z (n + 1)))%Qc.
Proof.
  intros Hn. unfold py_int, Qcle, Qclt. rewrite !inject_this.
  destruct (Qc_leb 0 x) eqn:E.
  - split.
    + intros <-. split; [apply Qfloor_le|apply Qlt_floor].
    + intros [Hlo Hhi].
      apply Qfloor_resp_le in Hlo. rewrite Qfloor_Z in Hlo.
      assert (Hup : (Qfloor x < n + 1)%Z).
      { rewrite Zlt_Qlt. eapply Qle_lt_trans; [apply Qfloor_le|exact Hhi]. }
      lia.
  - assert (Hneg : (x < 0)%Qc).
    { apply Qcnot_le_lt. intros H. apply Qc_leb_le in H. congruence. }
    assert (Hc : (Qceiling x <= 0)%Z).
    { change 0%Z with (Qceiling 0). apply Qceiling_resp_le.
      apply Qlt_le_weak. exact Hneg. }
    split; [lia|].
    intros [Hlo _]. exfalso.
    assert (H1 : (inject_Z n < 0)%Q) by (eapply Qle_lt_trans; [exact Hlo|exact Hneg]).
    change 0%Q with (inject_Z 0) in H1. rewrite <- Zlt_Qlt in H1. lia.
Qed.

(** X4.  The row check of [_input_check] looks at one number, the total of
    the rounded row sums: a matrix of [n > 0] rows passes exactly when this
    total is at least [n] and less than [n + 1], whatever the single rows
    sum to. *)
Theorem num_dist_rows_interval (round : Qc -> Z -> Qc) (m : frame Qc) :
  (0 < nrows m)%nat ->
  let total := Qsum (map (fun s => round s 2%Z) (row_sums m)) in
  __num_dist_rows__ round m 2 = Z.of_nat (nrows m)
  <-> (Q2Qc (inject_Z (Z.of_nat (nrows m))) <= total
       /\ total < Q2Qc (inject_Z (Z.of_nat (nrows m) + 1)))%Qc.
Proof.
  intros Hn total. unfold __num_dist_rows__. fold total.
  apply py_int_positive. lia.
Qed.

Lemma num_dist_rows_interval_witness :
  (0 < nrows (topic_term_dists example_inputs))%nat /\
  __num_dist_rows__ round_py3 (topic_term_dists example_inputs) 2 = 2%Z /\
  (Q2Qc (inject_Z 2)
   <= Qsum (map (fun s => round_py3 s 2) (row_sums (topic_term_dists example_inputs))))%Qc.
Proof.
  assert (Hn : (0 < nrows (topic_term_dists example_inputs))%nat) by (vm_compute; lia).
  split; [exact Hn|].
  assert (E : __num_dist_rows__ round_py3 (topic_term_dists example_inputs) 2 = 2%Z)
    by (vm_compute; reflexivity).
  split; [exact E|].
  pose proof (@num_dist_rows_interval round_py3 (topic_term_dists example_inputs) Hn) as H.
  cbv zeta in H. apply (proj1 H) in E. exact (proj1 E).
Defined.

Lemma Qsum_units {A : Type} (f : A -> Qc) (l : list A) :
  Forall (fun a => f a = 1) l ->
  Qsum (map f l) = Q2Qc (inject_Z (Z.of_nat (length l))).
Proof.
  induction 1 as [|a l Ha _ IH]; [reflexivity|].
  cbn [map Qsum fold_right length]. fold (Qsum (map f l)). rewrite Ha, IH.
  apply Qc_is_canon. unfold Qcplus, Q2Qc. cbn [this].
  rewrite !Qred_correct, Nat2Z.inj_succ, <- Z.add_1_l, inject_Z_plus.
  reflexivity.
Qed.

Lemma num_dist_rows_units (round : Qc -> Z -> Qc) (m : frame Qc) :
  Forall (fun s => round s 2%Z = 1) (row_sums m) ->
  __num_dist_rows__ round m 2 = Z.of_nat (nrows m).
Proof.
  intros H. unfold __num_dist_rows__. rewrite Qsum_units by exact H.
  rewrite py_int_inject. unfold row_sums. now rewrite length_map, length_seq.
Qed.

(** X5.  Inputs of matching shapes in which the sum of every row of
    [topic_term_dists] and of [doc_topic_dists] rounds to 1 pass the
    validation: [_input_check] returns [None] and [_input_validate]
    returns. *)
Theorem valid_inputs_accepted (round : Qc -> Z -> Qc) (i : inputs) :
  ncols (doc_topic_dists i) = nrows (topic_term_dists i) ->
  length (doc_lengths i) = nrows (doc_topic_dists i) ->
  ncols (topic_term_dists i) = length (vocab i) ->
  length (term_frequency i) = length (vocab i) ->
  Forall (fun s => round s 2%Z = 1) (row_sums (topic_term_dists i)) ->
  Forall (fun s => round s 2%Z = 1) (row_sums (doc_topic_dists i)) ->
  _input_check round i = None /\ _input_validate round i = Ok tt.
Proof.
  intros HK HD HW HT Httd Hdtd.
  assert (E : _input_check round i = None).
  { rewrite input_check_violated. unfold violated, violations. cbv zeta.
    rewrite HK, HD, HW, HT, !Nat.eqb_refl.
    rewrite (@num_dist_rows_units round _ Httd), (@num_dist_rows_units round _ Hdtd), !Z.eqb_refl.
    reflexivity. }
  split; [exact E|]. now apply input_validate_ok.
Qed.

Lemma valid_inputs_accepted_witness :
  Forall (fun s => round_py3 s 2%Z = 1) (row_sums (topic_term_dists example_inputs)) /\
  Forall (fun s => round_py3 s 2%Z = 1) (row_sums (doc_topic_dists example_inputs)) /\
  _input_validate round_py3 example_inputs = Ok tt.
Proof.
  assert (Httd : Forall (fun s => round_py3 s 2%Z = 1)
                        (row_sums (topic_term_dists example_inputs))).
  { repeat constructor; apply Qc_is_canon; vm_compute; reflexivity. }
  assert (Hdtd : Forall (fun s => round_py3 s 2%Z = 1)
                        (row_sums (doc_topic_dists example_inputs))).
  { repeat constructor; apply Qc_is_canon; vm_compute; reflexivity. }
  split; [exact Httd|]. split; [exact Hdtd|].
  apply (@valid_inputs_accepted round_py3 example_inputs); trivial.
Defined.

(** X6.  [prepare] validates before anything else: when a check of
    [_input_check] is violated, it raises the [ValidationError] with the
    messages of the violated checks, whatever [R], [lambda_step], [mds],
    [plot_opts] and [n_jobs] are. *)
Theorem prepare_rejects_invalid (round : Qc -> Z -> Qc) (cpu_count : Z)
    (log : fnum -> fnum) (nansum : list fnum -> fnum)
    (order_desc sort_desc : list fnum -> list nat)
    (sort_term_topic : list (string * nat) -> list nat)
    (i : inputs) (R : nat) (lambda_step : Qc) (mds : frame Qc -> frame fnum)
    (plot_opts : list (string * value)) (n_jobs : Z) :
  violated round i <> [] ->
  prepare round cpu_count log nansum order_desc sort_desc sort_term_topic
          i R lambda_step mds plot_opts n_jobs
  = Raise (ValidationError (bulleted (violated round i))).
Proof.
  intros Hv. unfold prepare. cbv zeta.
  rewrite input_validate_violated.
  change (violated round (named i)) with (violated round i).
  destruct (violated round i) as [|s res]; [contradiction|reflexivity].
Qed.

Lemma prepare_rejects_invalid_witness :
  violated round_py3 short_vocab_inputs = [msg_vocab; msg_term_frequency] /\
  prepare round_py3 4 log_lower nansum_zero stable_argsort_desc stable_argsort_desc
          stable_sort_term_topic short_vocab_inputs 2 (qc 1 4) first_two_columns [] (-1)
  = Raise (ValidationError (bulleted [msg_vocab; msg_term_frequency])).
Proof.
  assert (E : violated round_py3 short_vocab_inputs = [msg_vocab; msg_term_frequency])
    by (vm_compute; reflexivity).
  split; [exact E|]. rewrite <- E.
  apply prepare_rejects_invalid. rewrite E. discriminate.
Defined.

(** ** More on the rankings: [_find_relevance] and [_find_relevance_chunks] *)

Lemma StronglySorted_map_inv {A B : Type} (f : A -> B) (R : B -> B -> Prop) (l : list A) :
  StronglySorted R (map f l) -> StronglySorted (fun a b => R (f a) (f b)) l.
Proof.
  induction l as [|a l IH]; simpl; intros H; [constructor|].
  inversion H as [|? ? Hs Hall]; subst. constructor; [auto|].
  now rewrite Forall_map in Hall.
Qed.

Lemma StronglySorted_app_inv {A : Type} (R : A -> A -> Prop) (l1 l2 : list A) :
  StronglySorted R (l1 ++ l2) ->
  StronglySorted R l1 /\ forall x y, In x l1 -> In y l2 -> R x y.
Proof.
  induction l1 as [|a l1 IH]; simpl; intros H.
  - split; [constructor|contradiction].
  - inversion H as [|? ? Hs Hall]; subst.
    destruct (IH Hs) as [IH1 IH2]. rewrite Forall_app in Hall.
    destruct Hall as [Hall1 Hall2]. split.
    + now constructor.
    + intros x y [<-|Hx] Hy; [|auto].
      rewrite Forall_forall in Hall2. auto.
Qed.

Lemma in_firstn {A : Type} (n : nat) (l : list A) (x : A) : In x (firstn n l) -> In x l.
Proof.
  intros H. rewrite <- (firstn_skipn n l). apply in_or_app. now left.
Qed.

Lemma NoDup_prefix {A : Type} (n : nat) (l : list A) : NoDup l -> NoDup (firstn n l).
Proof.
  intros H. rewrite <- (firstn_skipn n l) in H. now apply NoDup_app_remove_r in H.
Qed.

Lemma length_row {A : Type} (f : frame A) (k : nat) : length (row f k) = ncols f.
Proof. unfold row. now rewrite length_map, length_seq. Qed.

Lemma column_find_relevance_rows (order_desc : list fnum -> list nat)
    (log_ttd log_lift : frame fnum) (R : nat) (lambda_ : Qc) (k : nat) :
  (forall l, length (order_desc l) = length l) ->
  column (_find_relevance order_desc log_ttd log_lift R lambda_) k
  = firstn R (order_desc (row (relevance log_ttd log_lift lambda_) k)).
Proof.
  intros Hlen. unfold _find_relevance, head, column. cbn [nrows ncols cell].
  cbn [relevance nrows ncols].
  set (scores := row (relevance log_ttd log_lift lambda_) k).
  unfold order, at_. cbn [index].
  replace (ncols log_ttd) with (length (order_desc scores)).
  - apply firstn_by_positions.
  - rewrite Hlen. subst scores. now rewrite length_row.
Qed.

(** X7.  [_find_relevance] returns a table of [min R W] rows and one column
    for each topic.  When the sort of pandas sorts, the column of a topic
    lists distinct terms, in descending order of their relevance for the
    topic ([nan] last), and every term left out ranks after every term
    listed: the column is a top-[R] ranking. *)
Theorem find_relevance_top (order_desc : list fnum -> list nat)
    (log_ttd log_lift : frame fnum) (R : nat) (lambda_ : Qc) (k : nat) :
  sorts_descending order_desc ->
  let W := ncols log_ttd in
  let res := _find_relevance order_desc log_ttd log_lift R lambda_ in
  let score := cell (relevance log_ttd log_lift lambda_) k in
  shape res = (Nat.min R W, nrows log_ttd) /\
  NoDup (column res k) /\
  (forall t, In t (column res k) -> (t < W)%nat) /\
  StronglySorted (fun t u => before_desc (score t) (score u) = true) (column res k) /\
  (forall t u, In t (column res k) -> (u < W)%nat -> ~ In u (column res k) ->
     before_desc (score t) (score u) = true).
Proof.
  intros Hsort W res score.
  pose proof (sorts_descending_length Hsort) as Hlen.
  destruct Hsort as [Hperm Hsorted].
  set (scores := row (relevance log_ttd log_lift lambda_) k).
  assert (HW : length scores = W) by apply length_row.
  assert (Hcol : column res k = firstn R (order_desc scores))
    by now apply column_find_relevance_rows.
  specialize (Hperm scores). specialize (Hsorted scores). rewrite HW in Hperm.
  assert (Hbound : forall t, In t (order_desc scores) -> (t < W)%nat).
  { intros t Ht. apply (Permutation_in _ Hperm) in Ht. apply in_seq in Ht. lia. }
  assert (Hscore : forall t, (t < W)%nat -> at_ NaN scores t = score t).
  { intros t Ht. unfold at_, scores, row. cbn [relevance ncols].
    now rewrite nth_map_seq. }
  apply StronglySorted_map_inv in Hsorted.
  apply StronglySorted_weaken
    with (R' := fun t u => before_desc (score t) (score u) = true) in Hsorted.
  2: { intros t u Ht Hu. now rewrite !Hscore by auto. }
  rewrite <- (firstn_skipn R (order_desc scores)) in Hsorted.
  apply StronglySorted_app_inv in Hsorted. destruct Hsorted as [Hfirst Hcross].
  rewrite Hcol. split; [reflexivity|]. split; [|split; [|split]].
  - apply NoDup_prefix. eapply permutation_seq_NoDup; eauto.
  - intros t Ht. apply Hbound. eapply in_firstn; eauto.
  - exact Hfirst.
  - intros t u Ht Hu Hout. apply Hcross; [exact Ht|].
    assert (Hin : In u (order_desc scores)).
    { eapply Permutation_in; [symmetry; exact Hperm|]. apply in_seq. lia. }
    rewrite <- (firstn_skipn R (order_desc scores)) in Hin.
    apply in_app_or in Hin. tauto.
Qed.

Lemma find_relevance_top_witness :
  let log_ttd := log_ttd_of log_lower (topic_term_dists example_inputs) in
  let log_lift :=
    log_lift_of log_lower (topic_term_dists example_inputs) (term_frequency example_inputs) in
  let res := _find_relevance stable_argsort_desc log_ttd log_lift 2 (qc 1 2) in
  sorts_descending stable_argsort_desc /\
  shape res = (2, 2)%nat /\
  NoDup (column res 0) /\
  column res 0 = [0; 1]%nat /\ column res 1 = [2; 1]%nat.
Proof.
  cbv zeta. split; [apply stable_argsort_desc_sorts|].
  pose proof (@find_relevance_top stable_argsort_desc
                (log_ttd_of log_lower (topic_term_dists example_inputs))
                (log_lift_of log_lower (topic_term_dists example_inputs)
                             (term_frequency example_inputs))
                2 (qc 1 2) 0 stable_argsort_desc_sorts) as H.
  cbv zeta in H. destruct H as (Hshape & Hnd & _).
  split; [exact Hshape|]. split; [exact Hnd|].
  split; vm_compute; reflexivity.
Defined.

Lemma nrows_vstack_all {A : Type} (f : frame A) (fs : list (frame A)) :
  nrows (vstack_all f fs) = (nrows f + list_sum (map (@nrows A) fs))%nat.
Proof.
  revert f. induction fs as [|g fs IH]; intros f; simpl; [lia|].
  now rewrite IH.
Qed.

Lemma list_sum_constant {A : Type} (f : A -> nat) (c : nat) (l : list A) :
  (forall a, f a = c) -> list_sum (map f l) = (length l * c)%nat.
Proof.
  intros H. induction l as [|a l IH]; simpl; [reflexivity|].
  now rewrite H, IH.
Qed.

(** X8.  [_find_relevance_chunks] raises [ValueError] on an empty sequence
    of values of lambda (pandas has nothing to concatenate); on a non-empty
    one it stacks the tables of [_find_relevance] in the order of the
    values: [min R W] rows for each value, and in the column of a topic the
    rankings of the topic one after the other. *)
Theorem find_relevance_chunks_stack (order_desc : list fnum -> list nat)
    (log_ttd log_lift : frame fnum) (R : nat) (lambda_seq : list Qc) :
  (lambda_seq = [] ->
   _find_relevance_chunks order_desc log_ttd log_lift R lambda_seq = Raise ValueError) /\
  (lambda_seq <> [] ->
   exists res,
     _find_relevance_chunks order_desc log_ttd log_lift R lambda_seq = Ok res /\
     shape res = (length lambda_seq * Nat.min R (ncols log_ttd), nrows log_ttd)%nat /\
     forall k,
       column res k
       = concat (map (fun l => column (_find_relevance order_desc log_ttd log_lift R l) k)
                     lambda_seq)).
Proof.
  split.
  - intros ->. reflexivity.
  - intros Hne. destruct lambda_seq as [|l ls]; [contradiction|].
    unfold _find_relevance_chunks. cbn [map concat_frames].
    eexists. split; [reflexivity|]. split.
    + unfold shape. f_equal.
      * rewrite nrows_vstack_all.
        rewrite map_map.
        rewrite (@list_sum_constant _ _ (Nat.min R (ncols log_ttd)) ls) by reflexivity.
        cbn [length]. reflexivity.
      * now rewrite ncols_vstack_all.
    + intros k. rewrite column_vstack_all. cbn [map]. now rewrite map_map.
Qed.

(** ** The result of [_topic_info] does not depend on [n_jobs] *)

Lemma stacked_columns {A : Type} (f : Qc -> frame A) (chunks : list (list Qc))
    (results : list (frame A)) (top : frame A) :
  map_outcome (fun c => concat_frames (map f c)) chunks = Ok results ->
  concat_frames results = Ok top ->
  ncols top = ncols (f (hd 0 (concat chunks))) /\
  forall k, column top k = concat (map (fun l => column (f l) k) (concat chunks)).
Proof.
  intros Hres Htop. apply map_outcome_ok in Hres.
  apply concat_frames_ok in Htop. destruct Htop as (Hne & Hcols & Hcol).
  assert (Hall : Forall2 (fun c r => c <> [] /\ ncols r = ncols (f (hd 0 c)) /\
                            forall k, column r k = concat (map (fun l => column (f l) k) c))
                         chunks results).
  { eapply Forall2_impl; [|exact Hres].
    intros c r Hr. simpl in Hr. apply concat_frames_ok in Hr.
    destruct Hr as (Hc & Hn & Hk).
    split; [intros ->; now apply Hc|]. split.
    - rewrite Hn. destruct c; [now elim Hc|reflexivity].
    - intros k. rewrite Hk. now rewrite map_map. }
  split.
  - rewrite Hcols. destruct Hall as [|c r chunks results (Hc & Hn & _) _]; [now elim Hne|].
    cbn [hd concat]. rewrite Hn. destruct c; [now elim Hc|reflexivity].
  - intros k. rewrite Hcol, <- concat_map_concat. f_equal.
    clear Hne Hcols Hcol Hres.
    induction Hall as [|c r chunks results (_ & _ & Hk) _ IH]; simpl; [reflexivity|].
    now rewrite Hk, IH.
Qed.

Lemma job_chunks_empty {A : Type} (cpu_count n_jobs : Z) :
  (0 < n_jobs \/ (n_jobs < 0 /\ 0 < cpu_count + 1 - n_jobs))%Z ->
  _job_chunks cpu_count (@nil A) n_jobs = Ok [].
Proof.
  intros Hjobs. unfold _job_chunks. cbv zeta.
  set (n := if (n_jobs <? 0)%Z then (cpu_count + 1 - n_jobs)%Z else n_jobs).
  assert (Hn : (0 < n)%Z) by (subst n; destruct (Z.ltb_spec n_jobs 0); lia).
  pose proof (@_chunks_pos A [] (Z.to_nat n) ltac:(lia)) as E.
  rewrite Z2Nat.id in E by lia. rewrite E. cbn [length Nat.add].
  rewrite Nat.div_small by lia. reflexivity.
Qed.

Section Sweep.
Context {A B : Type}.
Variable f : Qc -> frame A.
Variable finish : frame A -> B.
Hypothesis finish_columns :
  forall t t', ncols t = ncols t' -> (forall k, column t k = column t' k) ->
               finish t = finish t'.

(** The part of [_topic_info] that runs the sweep in chunks gives what a
    single chunk gives. *)
Lemma sweep_in_chunks (cpu_count n_jobs : Z) (lambda_seq : list Qc) :
  (0 < n_jobs \/ (n_jobs < 0 /\ 0 < cpu_count + 1 - n_jobs))%Z ->
  (chunks <- _job_chunks cpu_count lambda_seq n_jobs ;;
   results <- map_outcome (fun c => concat_frames (map f c)) chunks ;;
   top_terms <- concat_frames results ;;
   Ok (finish top_terms))
  = (top_terms <- concat_frames (map f lambda_seq) ;; Ok (finish top_terms)).
Proof.
  intros Hjobs. destruct lambda_seq as [|l ls].
  - now rewrite job_chunks_empty.
  - destruct (@job_chunks_returns Qc cpu_count (l :: ls) n_jobs ltac:(discriminate) Hjobs)
      as (chunks & Hchunks & Hne & Hall).
    pose proof (job_chunks_cover _ _ _ Hchunks Hne) as Hcover.
    rewrite Hchunks. cbn [bind].
    assert (Hres : exists results,
               map_outcome (fun c => concat_frames (map f c)) chunks = Ok results /\
               results <> []).
    { clear Hchunks Hcover. induction Hall as [|c chunks Hc Hall IH]; [contradiction|].
      simpl. destruct c as [|x c]; [contradiction|]. cbn [map concat_frames bind].
      destruct chunks as [|c' chunks].
      - simpl. eexists. split; [reflexivity|discriminate].
      - destruct IH as (results & -> & _); [discriminate|].
        cbn [bind]. eexists. split; [reflexivity|discriminate]. }
    destruct Hres as (results & Hres & Hresults). rewrite Hres. cbn [bind].
    destruct results as [|r results]; [contradiction|].
    cbn [concat_frames bind map]. f_equal.
    destruct (@stacked_columns A f chunks (r :: results) (vstack_all r results) Hres
                               eq_refl) as [Hcols Hcol].
    rewrite Hcover in Hcols, Hcol. cbn [hd] in Hcols.
    apply finish_columns.
    + rewrite Hcols. now rewrite ncols_vstack_all.
    + intros k. rewrite Hcol, column_vstack_all. cbn [map]. now rewrite map_map.
Qed.

End Sweep.

(** [_topic_info] gives the same result for every [n_jobs] other than 0. *)
Lemma topic_info_any_jobs (cpu_count cpu_count' : Z) (log : fnum -> fnum)
    (nansum : list fnum -> fnum) (order_desc sort_desc : list fnum -> list nat)
    (ttd : frame Qc) (tp : series fnum) (tf : list Qc) (ttf : frame fnum)
    (vocab : list string) (lambda_step : Qc) (R : nat) (n_jobs n_jobs' : Z) :
  (0 < cpu_count)%Z -> (0 < cpu_count')%Z -> n_jobs <> 0%Z -> n_jobs' <> 0%Z ->
  _topic_info cpu_count log nansum order_desc sort_desc ttd tp tf ttf vocab
              lambda_step R n_jobs
  = _topic_info cpu_count' log nansum order_desc sort_desc ttd tp tf ttf vocab
                lambda_step R n_jobs'.
Proof.
  intros Hcpu Hcpu' Hjobs Hjobs'. unfold _topic_info. cbv zeta.
  match goal with
  | |- bind ?d _ = bind ?d _ => destruct d as [default_term_info|e]; [|reflexivity]
  end.
  cbn [bind].
  destruct (arange 0 (1 + lambda_step) lambda_step) as [lambda_seq|e]; [|reflexivity].
  cbn [bind].
  pose (f := fun l => _find_relevance order_desc (log_ttd_of log ttd)
                                      (log_lift_of log ttd tf) R l).
  pose (finish := fun top_terms : frame nat =>
          default_term_info
          ++ concat (map (topic_top_term_df vocab tf ttf (log_ttd_of log ttd)
                                            (log_lift_of log ttd tf))
                         (enumerate1 (iterrows_T (frame_index ttd) top_terms)))).
  assert (Hfinish : forall t t', ncols t = ncols t' -> (forall k, column t k = column t' k) ->
                                 finish t = finish t').
  { intros t t' Hn Hk. unfold finish, iterrows_T. rewrite Hn.
    do 4 f_equal. apply map_ext. intros k. now rewrite Hk. }
  transitivity (top_terms <- concat_frames (map f lambda_seq) ;; Ok (finish top_terms)).
  - rewrite <- (@sweep_in_chunks _ _ f finish Hfinish cpu_count n_jobs lambda_seq) by lia.
    reflexivity.
  - rewrite <- (@sweep_in_chunks _ _ f finish Hfinish cpu_count' n_jobs' lambda_seq) by lia.
    reflexivity.
Qed.

(** X9.  With at least one cpu, [_topic_info] and [prepare] give the same
    result, or raise the same exception, for every [n_jobs] other than 0
    and every number of cpus: cutting the sweep into chunks changes
    nothing. *)
Theorem prepare_jobs_independent (round : Qc -> Z -> Qc) (cpu_count cpu_count' : Z)
    (log : fnum -> fnum) (nansum : list fnum -> fnum)
    (order_desc sort_desc : list fnum -> list nat)
    (sort_term_topic : list (string * nat) -> list nat)
    (i : inputs) (R : nat) (lambda_step : Qc) (mds : frame Qc -> frame fnum)
    (plot_opts : list (string * value)) (n_jobs n_jobs' : Z) :
  (0 < cpu_count)%Z -> (0 < cpu_count')%Z -> n_jobs <> 0%Z -> n_jobs' <> 0%Z ->
  (forall ttd tp tf ttf vocab,
     _topic_info cpu_count log nansum order_desc sort_desc ttd tp tf ttf vocab
                 lambda_step R n_jobs
     = _topic_info cpu_count' log nansum order_desc sort_desc ttd tp tf ttf vocab
                   lambda_step R n_jobs') /\
  prepare round cpu_count log nansum order_desc sort_desc sort_term_topic
          i R lambda_step mds plot_opts n_jobs
  = prepare round cpu_count' log nansum order_desc sort_desc sort_term_topic
            i R lambda_step mds plot_opts n_jobs'.
Proof.
  intros Hcpu Hcpu' Hjobs Hjobs'.
  assert (Hinfo : forall ttd tp tf ttf vocab,
     _topic_info cpu_count log nansum order_desc sort_desc ttd tp tf ttf vocab
                 lambda_step R n_jobs
     = _topic_info cpu_count' log nansum order_desc sort_desc ttd tp tf ttf vocab
                   lambda_step R n_jobs').
  { intros. now apply topic_info_any_jobs. }
  split; [exact Hinfo|].
  unfold prepare. cbv zeta. now rewrite Hinfo.
Qed.

Lemma prepare_jobs_independent_witness :
  (0 < 4)%Z /\ (0 < 1)%Z /\ (-1)%Z <> 0%Z /\ 3%Z <> 0%Z /\
  prepare round_py3 1 log_lower nansum_zero stable_argsort_desc stable_argsort_desc
          stable_sort_term_topic example_inputs 2 (qc 1 4) first_two_columns
          [("xlab", VStr "PC1"); ("ylab", VStr "PC2")] 3
  = example_run.
Proof.
  split; [lia|]. split; [lia|]. split; [lia|]. split; [lia|].
  unfold example_run. symmetry.
  apply (@prepare_jobs_independent round_py3 4 1 log_lower nansum_zero
           stable_argsort_desc stable_argsort_desc stable_sort_term_topic
           example_inputs 2 (qc 1 4) first_two_columns
           [("xlab", VStr "PC1"); ("ylab", VStr "PC2")] (-1) 3); lia.
Defined.

(** ** The table of [_topic_info] *)

Section TopicInfoTable.
Variable cpu_count : Z.
Variable log : fnum -> fnum.
Variable nansum : list fnum -> fnum.
Variables order_desc sort_desc : list fnum -> list nat.

Lemma topic_info_unfold (ttd : frame Qc) (tp : series fnum) (tf : list Qc)
    (ttf : frame fnum) (vocab : list string) (lambda_step : Qc) (R : nat) (n_jobs : Z) :
  _topic_info cpu_count log nansum order_desc sort_desc ttd tp tf ttf vocab lambda_step R n_jobs
  = (let terms := firstn R (sort_desc (saliency_of log nansum ttd tp tf)) in
     let log_ttd := log_ttd_of log ttd in
     let log_lift := log_lift_of log ttd tf in
     default_term_info <-
       (if (length terms =? R)%nat then Ok (default_rows vocab tf R terms)
        else Raise ValueError) ;;
     lambda_seq <- arange 0 (1 + lambda_step) lambda_step ;;
     chunks <- _job_chunks cpu_count lambda_seq n_jobs ;;
     results <- map_outcome (_find_relevance_chunks order_desc log_ttd log_lift R) chunks ;;
     top_terms <- concat_frames results ;;
     Ok (default_term_info
         ++ concat (map (topic_top_term_df vocab tf ttf log_ttd log_lift)
                        (enumerate1 (iterrows_T (frame_index ttd) top_terms))))).
Proof. reflexivity. Qed.

(** What a run of [_topic_info] that returns has computed, with the rows of
    the default view and the columns of the rankings. *)
Lemma topic_info_ok_rows (ttd : frame Qc) (tp : series fnum) (tf : list Qc)
    (ttf : frame fnum) (vocab : list string) (lambda_step : Qc) (R : nat) (n_jobs : Z)
    (info : list Info.row) :
  _topic_info cpu_count log nansum order_desc sort_desc ttd tp tf ttf vocab lambda_step R n_jobs
  = Ok info ->
  let terms := firstn R (sort_desc (saliency_of log nansum ttd tp tf)) in
  let log_ttd := log_ttd_of log ttd in
  let log_lift := log_lift_of log ttd tf in
  length terms = R /\
  exists lambda_seq top_terms,
    arange 0 (1 + lambda_step) lambda_step = Ok lambda_seq /\
    ncols top_terms = nrows ttd /\
    (forall k, column top_terms k
               = concat (map (fun l => column (_find_relevance order_desc log_ttd log_lift R l) k)
                             lambda_seq)) /\
    info = default_rows vocab tf R terms
           ++ concat (map (topic_top_term_df vocab tf ttf log_ttd log_lift)
                          (enumerate1 (iterrows_T (frame_index ttd) top_terms))).
Proof.
  rewrite topic_info_unfold. cbv zeta.
  destruct (Nat.eqb_spec (length (firstn R (sort_desc (saliency_of log nansum ttd tp tf)))) R)
    as [Hlen|]; [|discriminate].
  cbn [bind].
  destruct (arange 0 (1 + lambda_step) lambda_step) as [lambda_seq|] eqn:Hseq;
    [|discriminate]. cbn [bind].
  destruct (_job_chunks cpu_count lambda_seq n_jobs) as [chunks|] eqn:Hchunks;
    [|discriminate]. cbn [bind].
  destruct (map_outcome _ chunks) as [results|] eqn:Hres; [|discriminate]. cbn [bind].
  destruct (concat_frames results) as [top_terms|] eqn:Htop; [|discriminate]. cbn [bind].
  intros H. inversion H; subst info. split; [exact Hlen|].
  exists lambda_seq, top_terms. split; [reflexivity|].
  assert (Hne : chunks <> []).
  { intros ->. simpl in Hres. inversion Hres; subst results. discriminate Htop. }
  pose proof (job_chunks_cover _ _ _ Hchunks Hne) as Hcover.
  unfold _find_relevance_chunks in Hres.
  destruct (@stacked_columns nat _ chunks results top_terms Hres Htop) as [Hcols Hcol].
  rewrite Hcover in Hcol. split; [exact Hcols|]. split; [exact Hcol|reflexivity].
Qed.

End TopicInfoTable.

Lemma length_saliency_of (log : fnum -> fnum) (nansum : list fnum -> fnum)
    (ttd : frame Qc) (tp : series fnum) (tf : list Qc) :
  length (saliency_of log nansum ttd tp tf) = ncols ttd.
Proof. unfold saliency_of. cbv zeta. now rewrite length_map, length_seq. Qed.

Lemma nth_error_default_rows (vocab : list string) (tf : list Qc) (R : nat)
    (terms : list nat) (j : nat) :
  length terms = R -> (j < R)%nat ->
  nth_error (default_rows vocab tf R terms) j
  = Some (Info.Row (at_ 0%nat terms j) (at_ "" vocab (at_ 0%nat terms j))
                   (Fin (at_ 0%Qc tf (at_ 0%nat terms j)))
                   (at_ 0%Qc tf (at_ 0%nat terms j))
                   (Fin (Q2Qc (inject_Z (Z.of_nat (R - j)))))
                   (Fin (Q2Qc (inject_Z (Z.of_nat (R - j)))))
                   "Default").
Proof.
  intros Hlen Hj. unfold default_rows. rewrite nth_error_map.
  assert (E : nth_error (combine (seq 0 R) terms) j = Some (j, at_ 0%nat terms j)).
  { rewrite nth_error_nth' with (d := (0%nat, 0%nat))
      by (rewrite length_combine, length_seq; lia).
    rewrite combine_nth by (rewrite length_seq; lia).
    rewrite seq_nth by trivial. reflexivity. }
  rewrite E. reflexivity.
Qed.

Lemma length_default_rows (vocab : list string) (tf : list Qc) (R : nat)
    (terms : list nat) :
  length terms = R -> length (default_rows vocab tf R terms) = R.
Proof.
  intros H. unfold default_rows.
  rewrite length_map, length_combine, length_seq. lia.
Qed.

Lemma topic_rows_categories (vocab : list string) (tf : list Qc)
    (ttf log_ttd log_lift : frame fnum) (labels : list nat) (top_terms : frame nat)
    (row : Info.row) :
  In row (concat (map (topic_top_term_df vocab tf ttf log_ttd log_lift)
                      (enumerate1 (iterrows_T labels top_terms)))) ->
  exists k, (k < ncols top_terms)%nat /\
    Info.Category row = ("Topic" ++ decimal (k + 1))%string /\
    In (Info.ix row) (column top_terms k) /\
    Info.Term row = at_ "" vocab (Info.ix row) /\
    Info.Total row = at_ 0%Qc tf (Info.ix row).
Proof.
  intros Hrow. apply in_concat in Hrow as (df & Hdf & Hrow).
  apply in_map_iff in Hdf as ([n [label terms]] & <- & Hn).
  apply in_enumerate1 in Hn as (j & -> & Hj).
  unfold iterrows_T in Hj. apply nth_error_map_seq in Hj as [Hj E].
  inversion E; subst label terms.
  unfold topic_top_term_df in Hrow.
  apply in_map_iff in Hrow as (t & <- & Ht).
  exists j. cbn [Info.Category Info.ix Info.Term Info.Total].
  repeat split; trivial. now apply in_unique.
Qed.

(** X10.  When [_topic_info] returns, its first [R] rows are the default
    view: the [R] terms of highest saliency in descending order (the sort
    of pandas being a sort: every term left out ranks after every term
    listed), distinct, each with the category ['Default'], its frequency as
    [Freq] and [Total], and the ranks [R, R - 1, ..., 1] as [logprob] and
    [loglift].  All the rows after them belong to a topic and carry the
    category ['Topic<n>'] for a topic number [n] from 1 to [K]. *)
Theorem topic_info_default_rows (cpu_count : Z) (log : fnum -> fnum)
    (nansum : list fnum -> fnum) (order_desc sort_desc : list fnum -> list nat)
    (ttd : frame Qc) (tp : series fnum) (tf : list Qc) (ttf : frame fnum)
    (vocab : list string) (lambda_step : Qc) (R : nat) (n_jobs : Z)
    (info : list Info.row) :
  sorts_descending sort_desc ->
  _topic_info cpu_count log nansum order_desc sort_desc ttd tp tf ttf vocab lambda_step R n_jobs
  = Ok info ->
  let saliency := saliency_of log nansum ttd tp tf in
  let terms := firstn R (sort_desc saliency) in
  (R <= ncols ttd)%nat /\
  NoDup terms /\
  StronglySorted (fun t u => before_desc (at_ NaN saliency t) (at_ NaN saliency u) = true)
                 terms /\
  (forall t w, In t terms -> (w < ncols ttd)%nat -> ~ In w terms ->
     before_desc (at_ NaN saliency t) (at_ NaN saliency w) = true) /\
  (forall j, (j < R)%nat ->
     let w := at_ 0%nat terms j in
     let rank := Fin (Q2Qc (inject_Z (Z.of_nat (R - j)))) in
     nth_error info j
     = Some (Info.Row w (at_ "" vocab w) (Fin (at_ 0%Qc tf w)) (at_ 0%Qc tf w)
                      rank rank "Default")) /\
  Forall (fun r => exists n, (1 <= n <= nrows ttd)%nat /\
                             Info.Category r = ("Topic" ++ decimal n)%string)
         (skipn R info).
Proof.
  intros Hsort Hinfo saliency terms.
  apply topic_info_ok_rows in Hinfo. cbv zeta in Hinfo. fold saliency terms in Hinfo.
  destruct Hinfo as (Hlen & lambda_seq & top_terms & _ & Hcols & _ & ->).
  pose proof (sorts_descending_length Hsort saliency) as Hs.
  destruct Hsort as [Hperm Hsorted].
  specialize (Hperm saliency). specialize (Hsorted saliency).
  assert (HW : length saliency = ncols ttd) by apply length_saliency_of.
  apply StronglySorted_map_inv in Hsorted.
  rewrite <- (firstn_skipn R (sort_desc saliency)) in Hsorted.
  apply StronglySorted_app_inv in Hsorted. destruct Hsorted as [Hfirst Hcross].
  split; [|split; [|split; [|split; [|split]]]].
  - unfold terms in Hlen. rewrite length_firstn, Hs, HW in Hlen. lia.
  - apply NoDup_prefix. eapply permutation_seq_NoDup; eauto.
  - exact Hfirst.
  - intros t w Ht Hw Hout. apply Hcross; [exact Ht|].
    assert (Hin : In w (sort_desc saliency)).
    { eapply Permutation_in; [symmetry; exact Hperm|]. apply in_seq. lia. }
    rewrite <- (firstn_skipn R (sort_desc saliency)) in Hin.
    apply in_app_or in Hin. destruct Hin as [Hin|Hin]; [|exact Hin].
    now elim Hout.
  - intros j Hj. cbv zeta.
    rewrite nth_error_app1 by (rewrite length_default_rows; trivial).
    now apply nth_error_default_rows.
  - rewrite skipn_app, length_default_rows by trivial.
    rewrite skipn_all2 by (rewrite length_default_rows; trivial; lia).
    rewrite Nat.sub_diag. cbn [skipn app].
    apply Forall_forall. intros row Hrow.
    apply topic_rows_categories in Hrow as (k & Hk & Hcat & _).
    exists (k + 1)%nat. split; [lia|exact Hcat].
Qed.

Lemma topic_info_default_rows_witness :
  let r := reorder stable_argsort_desc (named exclusive_inputs) in
  let saliency :=
    saliency_of log_binary nansum_zero (topic_term_dists' r) (topic_proportion r)
                (term_frequency exclusive_inputs) in
  sorts_descending stable_argsort_desc /\
  saliency = [Fin (qc 1 4); Fin (qc 1 1); Fin (qc 1 2)] /\
  exists info,
    exclusive_topic_info = Ok info /\
    map Info.Category (firstn 2 info) = ["Default"; "Default"] /\
    map Info.ix (firstn 2 info) = [1; 2]%nat /\
    (forall t, In t [1; 2]%nat ->
       before_desc (at_ NaN saliency t) (at_ NaN saliency 0%nat) = true) /\
    Forall (fun r => exists n, (1 <= n <= 3)%nat /\ Info.Category r = ("Topic" ++ decimal n)%string)
           (skipn 2 info).
Proof.
  cbv zeta. split; [apply stable_argsort_desc_sorts|].
  split; [apply fnums_eq; repeat constructor; vm_compute; reflexivity|].
  destruct exclusive_topic_info as [info|e] eqn:Hinfo;
    [|vm_compute in Hinfo; discriminate Hinfo].
  exists info. split; [reflexivity|].
  unfold exclusive_topic_info in Hinfo. cbv zeta in Hinfo.
  pose proof (@topic_info_default_rows 4 log_binary nansum_zero stable_argsort_desc
                stable_argsort_desc
                (topic_term_dists' (reorder stable_argsort_desc (named exclusive_inputs)))
                (topic_proportion (reorder stable_argsort_desc (named exclusive_inputs)))
                (term_frequency exclusive_inputs)
                (_term_topic_freq
                   (topic_term_dists' (reorder stable_argsort_desc (named exclusive_inputs)))
                   (topic_freq (reorder stable_argsort_desc (named exclusive_inputs)))
                   (term_frequency exclusive_inputs))
                (vocab exclusive_inputs) (qc 1 4) 2%nat (-1)%Z info
                stable_argsort_desc_sorts Hinfo) as H.
  cbv zeta in H. destruct H as (_ & _ & _ & Hcross & _ & Hrest).
  assert (Hterms : firstn 2 (stable_argsort_desc
            (saliency_of log_binary nansum_zero
               (topic_term_dists' (reorder stable_argsort_desc (named exclusive_inputs)))
               (topic_proportion (reorder stable_argsort_desc (named exclusive_inputs)))
               (term_frequency exclusive_inputs))) = [1; 2]%nat)
    by (vm_compute; reflexivity).
  rewrite Hterms in Hcross.
  split; [|split; [|split; [|exact Hrest]]].
  - vm_compute in Hinfo. inversion Hinfo. reflexivity.
  - vm_compute in Hinfo. inversion Hinfo. reflexivity.
  - intros t Ht. apply Hcross; [exact Ht|vm_compute; lia|].
    cbn [In]. intros [E|[E|[]]]; discriminate E.
Defined.

Lemma in_default_rows (vocab : list string) (tf : list Qc) (R : nat)
    (terms : list nat) (row : Info.row) :
  In row (default_rows vocab tf R terms) ->
  In (Info.ix row) terms /\
  Info.Term row = at_ "" vocab (Info.ix row) /\
  Info.Total row = at_ 0%Qc tf (Info.ix row) /\
  Info.Freq row = Fin (Info.Total row) /\
  Info.Category row = "Default".
Proof.
  unfold default_rows. intros H.
  apply in_map_iff in H as ([j w] & <- & Hin).
  apply in_combine_r in Hin. cbn. auto.
Qed.

(** X11.  In every row of the table of [_topic_info], the default view and
    the topics alike, [Term] is the word of the vocabulary and [Total] the
    frequency in the corpus of the term the row is labelled with; and when
    the sorts of pandas are sorts, this label is the number of a column of
    [topic_term_dists]. *)
Theorem topic_info_rows_consistent (cpu_count : Z) (log : fnum -> fnum)
    (nansum : list fnum -> fnum) (order_desc sort_desc : list fnum -> list nat)
    (ttd : frame Qc) (tp : series fnum) (tf : list Qc) (ttf : frame fnum)
    (vocab : list string) (lambda_step : Qc) (R : nat) (n_jobs : Z)
    (info : list Info.row) :
  sorts_descending order_desc ->
  sorts_descending sort_desc ->
  _topic_info cpu_count log nansum order_desc sort_desc ttd tp tf ttf vocab lambda_step R n_jobs
  = Ok info ->
  forall row, In row info ->
    (Info.ix row < ncols ttd)%nat /\
    Info.Term row = at_ "" vocab (Info.ix row) /\
    Info.Total row = at_ 0%Qc tf (Info.ix row).
Proof.
  intros Horder Hsort Hinfo row Hrow.
  apply topic_info_ok_rows in Hinfo. cbv zeta in Hinfo.
  destruct Hinfo as (_ & lambda_seq & top_terms & _ & Hcols & Hcol & ->).
  apply in_app_or in Hrow as [Hrow|Hrow].
  - apply in_default_rows in Hrow as (Hix & HTerm & HTotal & _).
    split; [|split; trivial].
    apply in_firstn in Hix. destruct Hsort as [Hperm _].
    apply (Permutation_in _ (Hperm _)) in Hix. apply in_seq in Hix.
    rewrite length_saliency_of in Hix. lia.
  - apply topic_rows_categories in Hrow as (k & Hk & _ & Hix & HTerm & HTotal).
    split; [|split; trivial].
    rewrite Hcol in Hix. apply in_concat_map in Hix as (l & _ & Hix).
    rewrite column_find_relevance_rows in Hix
      by (apply sorts_descending_length; exact Horder).
    apply in_firstn in Hix. destruct Horder as [Hperm _].
    apply (Permutation_in _ (Hperm _)) in Hix. apply in_seq in Hix.
    rewrite length_row in Hix. cbn [relevance ncols log_ttd_of] in Hix. lia.
Qed.

Lemma topic_info_rows_consistent_witness :
  sorts_descending stable_argsort_desc /\
  exists info,
    example_topic_info = Ok info /\
    forall row, In row info ->
      (Info.ix row < 3)%nat /\
      Info.Term row = at_ "" (vocab example_inputs) (Info.ix row) /\
      Info.Total row = at_ 0%Qc (term_frequency example_inputs) (Info.ix row).
Proof.
  split; [apply stable_argsort_desc_sorts|].
  destruct example_topic_info as [info|e] eqn:Hinfo;
    [|vm_compute in Hinfo; discriminate Hinfo].
  exists info. split; [reflexivity|].
  unfold example_topic_info in Hinfo. cbv zeta in Hinfo.
  exact (@topic_info_rows_consistent 4 log_lower nansum_zero stable_argsort_desc
           stable_argsort_desc
           (topic_term_dists' (reorder stable_argsort_desc (named example_inputs)))
           (topic_proportion (reorder stable_argsort_desc (named example_inputs)))
           (term_frequency example_inputs)
           (_term_topic_freq
              (topic_term_dists' (reorder stable_argsort_desc (named example_inputs)))
              (topic_freq (reorder stable_argsort_desc (named example_inputs)))
              (term_frequency example_inputs))
           (vocab example_inputs) (qc 1 4) 2%nat (-1)%Z info
           stable_argsort_desc_sorts stable_argsort_desc_sorts Hinfo).
Defined.

(** *** The rows of a topic *)

Lemma NoDup_unique (l : list nat) : NoDup (unique l).
Proof.
  induction l as [|x l IH]; simpl; constructor.
  - intros H. apply filter_In in H as [_ H]. now rewrite Nat.eqb_refl in H.
  - now apply NoDup_filter.
Qed.

Lemma topic_terms_app (a b : list Info.row) (n : nat) :
  topic_terms (a ++ b) n = topic_terms a n ++ topic_terms b n.
Proof. unfold topic_terms. now rewrite filter_app, map_app. Qed.

Lemma topic_terms_default (rows : list Info.row) (n : nat) :
  Forall (fun r => Info.Category r = "Default") rows -> topic_terms rows n = [].
Proof.
  unfold topic_terms. induction 1 as [|r rows Hr _ IH]; simpl; [reflexivity|].
  rewrite Hr. exact IH.
Qed.

Lemma filter_map_constant {A B : Type} (g : A -> B) (p : B -> bool) (b : bool)
    (l : list A) :
  (forall a, p (g a) = b) -> filter p (map g l) = if b then map g l else [].
Proof.
  intros H. induction l as [|a l IH]; simpl.
  - now destruct b.
  - rewrite H, IH. now destruct b.
Qed.

Lemma topic_terms_df (vocab : list string) (tf : list Qc)
    (ttf log_ttd log_lift : frame fnum) (m n label : nat) (terms : list nat) :
  topic_terms (topic_top_term_df vocab tf ttf log_ttd log_lift (m, (label, terms))) n
  = if (m =? n)%nat then unique terms else [].
Proof.
  unfold topic_terms, topic_top_term_df.
  rewrite (@filter_map_constant _ _ _ _
             (String.eqb ("Topic" ++ decimal m) ("Topic" ++ decimal n))%string)
    by reflexivity.
  destruct (Nat.eqb_spec m n) as [->|N].
  - rewrite String.eqb_refl, map_map. cbn [Info.ix]. apply map_id.
  - destruct (String.eqb_spec ("Topic" ++ decimal m) ("Topic" ++ decimal n))%string
      as [E|_]; [|reflexivity].
    apply topic_category_inj in E. contradiction.
Qed.

Lemma topic_terms_enumerated (vocab : list string) (tf : list Qc)
    (ttf log_ttd log_lift : frame fnum) (rows : list (nat * list nat)) (s n : nat) :
  topic_terms (concat (map (topic_top_term_df vocab tf ttf log_ttd log_lift)
                           (combine (seq s (length rows)) rows))) n
  = if (s <=? n)%nat
    then match nth_error rows (n - s) with
         | Some (_, terms) => unique terms
         | None => []
         end
    else [].
Proof.
  revert s. induction rows as [|[label terms] rows IH]; intros s.
  - simpl. destruct (s <=? n)%nat; [|reflexivity]. now destruct (n - s)%nat.
  - cbn [length seq combine map concat]. rewrite topic_terms_app, topic_terms_df, IH.
    destruct (Nat.eqb_spec s n) as [->|N].
    + rewrite Nat.leb_refl, Nat.sub_diag. cbn [nth_error].
      destruct (Nat.leb_spec (S n) n); [lia|]. apply app_nil_r.
    + cbn [app]. destruct (Nat.leb_spec (S s) n), (Nat.leb_spec s n); try lia; trivial.
      replace (n - s)%nat with (S (n - S s)) by lia. reflexivity.
Qed.

Lemma topic_info_ok_sweep (cpu_count : Z) (log : fnum -> fnum)
    (nansum : list fnum -> fnum) (order_desc sort_desc : list fnum -> list nat)
    (ttd : frame Qc) (tp : series fnum) (tf : list Qc) (ttf : frame fnum)
    (vocab : list string) (lambda_step : Qc) (R : nat) (n_jobs : Z)
    (info : list Info.row) :
  _topic_info cpu_count log nansum order_desc sort_desc ttd tp tf ttf vocab lambda_step R n_jobs
  = Ok info ->
  exists lambda_seq,
    arange 0 (1 + lambda_step) lambda_step = Ok lambda_seq /\ lambda_seq <> [].
Proof.
  rewrite topic_info_unfold. cbv zeta.
  destruct (_ =? R)%nat; [|discriminate]. cbn [bind].
  destruct (arange 0 (1 + lambda_step) lambda_step) as [lambda_seq|] eqn:Hseq;
    [|discriminate]. cbn [bind].
  destruct (_job_chunks cpu_count lambda_seq n_jobs) as [chunks|] eqn:Hchunks;
    [|discriminate]. cbn [bind].
  destruct (map_outcome _ chunks) as [results|] eqn:Hres; [|discriminate]. cbn [bind].
  destruct (concat_frames results) as [top_terms|] eqn:Htop; [|discriminate].
  intros _. exists lambda_seq. split; [reflexivity|]. intros ->.
  apply chunks_of_nothing in Hchunks. subst chunks.
  simpl in Hres. inversion Hres; subst results. discriminate Htop.
Qed.

(** The terms of the rows of a topic number, from the rankings of the
    sweep. *)
Lemma topic_terms_of_topic (cpu_count : Z) (log : fnum -> fnum)
    (nansum : list fnum -> fnum) (order_desc sort_desc : list fnum -> list nat)
    (ttd : frame Qc) (tp : series fnum) (tf : list Qc) (ttf : frame fnum)
    (vocab : list string) (lambda_step : Qc) (R : nat) (n_jobs : Z)
    (info : list Info.row) :
  sorts_descending order_desc ->
  _topic_info cpu_count log nansum order_desc sort_desc ttd tp tf ttf vocab lambda_step R n_jobs
  = Ok info ->
  exists lambda_seq,
    arange 0 (1 + lambda_step) lambda_step = Ok lambda_seq /\
    lambda_seq <> [] /\
    forall n,
      topic_terms info n
      = if ((1 <=? n) && (n <=? nrows ttd))%nat
        then unique (concat (map (fun l => top_terms_of log order_desc ttd tf R l (n - 1))
                                 lambda_seq))
        else [].
Proof.
  intros Horder Hinfo.
  destruct (@topic_info_ok_sweep _ _ _ _ _ _ _ _ _ _ _ _ _ _ Hinfo) as (ls & Hls & Hne).
  apply topic_info_ok_rows in Hinfo. cbv zeta in Hinfo.
  destruct Hinfo as (_ & lambda_seq & top_terms & Hseq & Hcols & Hcol & ->).
  exists lambda_seq. split; [exact Hseq|]. split; [congruence|].
  intros n. rewrite topic_terms_app, topic_terms_default.
  2: { apply Forall_forall. intros row Hrow. now apply in_default_rows in Hrow. }
  unfold enumerate1. rewrite topic_terms_enumerated. cbn [app].
  destruct (Nat.leb_spec 1 n); [|reflexivity]. cbn [andb].
  destruct (Nat.leb_spec n (nrows ttd)).
  - assert (E : nth_error (iterrows_T (frame_index ttd) top_terms) (n - 1)
                = Some (at_ 0%nat (frame_index ttd) (n - 1), column top_terms (n - 1))).
    { unfold iterrows_T. apply nth_error_map_seq. split; [lia|reflexivity]. }
    rewrite E, Hcol. do 2 f_equal. apply map_ext. intros l.
    apply column_find_relevance. apply sorts_descending_length. exact Horder.
  - assert (E : nth_error (iterrows_T (frame_index ttd) top_terms) (n - 1) = None).
    { apply nth_error_None. unfold iterrows_T. rewrite length_map, length_seq. lia. }
    now rewrite E.
Qed.

(** X12.  When [_topic_info] returns, the rows of the topic shown as number
    [k + 1] are, in this order, the terms of the top-[R] rankings of the
    topic along the sweep, each at the place of its first occurrence: no
    term is listed twice for a topic.  No row carries a topic number other
    than [1, ..., K]. *)
Theorem topic_rows_in_order (cpu_count : Z) (log : fnum -> fnum)
    (nansum : list fnum -> fnum) (order_desc sort_desc : list fnum -> list nat)
    (ttd : frame Qc) (tp : series fnum) (tf : list Qc) (ttf : frame fnum)
    (vocab : list string) (lambda_step : Qc) (R : nat) (n_jobs : Z)
    (info : list Info.row) :
  sorts_descending order_desc ->
  _topic_info cpu_count log nansum order_desc sort_desc ttd tp tf ttf vocab lambda_step R n_jobs
  = Ok info ->
  exists lambda_seq,
    arange 0 (1 + lambda_step) lambda_step = Ok lambda_seq /\
    (forall k, (k < nrows ttd)%nat ->
       topic_terms info (k + 1)
       = unique (concat (map (fun l => top_terms_of log order_desc ttd tf R l k)
                             lambda_seq))) /\
    (forall n, NoDup (topic_terms info n)) /\
    (forall n, (n = 0 \/ nrows ttd < n)%nat -> topic_terms info n = []).
Proof.
  intros Horder Hinfo.
  destruct (@topic_terms_of_topic _ _ _ _ _ _ _ _ _ _ _ _ _ _ Horder Hinfo)
    as (lambda_seq & Hseq & _ & Hterms).
  exists lambda_seq. split; [exact Hseq|]. split; [|split].
  - intros k Hk. rewrite Hterms.
    destruct (Nat.leb_spec 1 (k + 1)); [|lia].
    destruct (Nat.leb_spec (k + 1) (nrows ttd)); [|lia].
    cbn [andb]. now replace (k + 1 - 1)%nat with k by lia.
  - intros n. rewrite Hterms.
    destruct (_ && _)%bool; [apply NoDup_unique|constructor].
  - intros n Hn. rewrite Hterms.
    destruct (Nat.leb_spec 1 n), (Nat.leb_spec n (nrows ttd)); trivial; lia.
Qed.

Lemma topic_rows_in_order_witness :
  sorts_descending stable_argsort_desc /\
  exists info,
    example_topic_info = Ok info /\
    NoDup (topic_terms info 1) /\ NoDup (topic_terms info 2) /\
    topic_terms info 0 = [] /\ topic_terms info 3 = [].
Proof.
  split; [apply stable_argsort_desc_sorts|].
  destruct example_topic_info as [info|e] eqn:Hinfo;
    [|vm_compute in Hinfo; discriminate Hinfo].
  exists info. split; [reflexivity|].
  unfold example_topic_info in Hinfo. cbv zeta in Hinfo.
  destruct (@topic_rows_in_order 4 log_lower nansum_zero stable_argsort_desc
              stable_argsort_desc
              (topic_term_dists' (reorder stable_argsort_desc (named example_inputs)))
              (topic_proportion (reorder stable_argsort_desc (named example_inputs)))
              (term_frequency example_inputs)
              (_term_topic_freq
                 (topic_term_dists' (reorder stable_argsort_desc (named example_inputs)))
                 (topic_freq (reorder stable_argsort_desc (named example_inputs)))
                 (term_frequency example_inputs))
              (vocab example_inputs) (qc 1 4) 2%nat (-1)%Z info
              stable_argsort_desc_sorts Hinfo)
    as (lambda_seq & _ & _ & Hnd & Hout).
  split; [apply Hnd|]. split; [apply Hnd|]. split; apply Hout.
  - now left.
  - right. vm_compute. lia.
Defined.

Lemma length_unique (l : list nat) : (length (unique l) <= length l)%nat.
Proof.
  induction l as [|x l IH]; simpl; [lia|].
  pose proof (filter_length_le (fun y => negb (y =? x)%nat) (unique l)). lia.
Qed.

Lemma length_rankings {A : Type} (f : A -> list nat) (R : nat) (l : list A) :
  (forall a, length (f a) <= R)%nat -> (length (concat (map f l)) <= R * length l)%nat.
Proof.
  intros H. induction l as [|a l IH]; simpl; [lia|].
  rewrite length_app. specialize (H a). lia.
Qed.

(** X13.  When [_topic_info] returns (the sorts of pandas being sorts), the
    sweep is not empty and every topic has at least [R] rows, at most one
    for each term of the vocabulary, and at most [R] for each value of the
    sweep. *)
Theorem topic_rows_count (cpu_count : Z) (log : fnum -> fnum)
    (nansum : list fnum -> fnum) (order_desc sort_desc : list fnum -> list nat)
    (ttd : frame Qc) (tp : series fnum) (tf : list Qc) (ttf : frame fnum)
    (vocab : list string) (lambda_step : Qc) (R : nat) (n_jobs : Z)
    (info : list Info.row) :
  sorts_descending order_desc ->
  sorts_descending sort_desc ->
  _topic_info cpu_count log nansum order_desc sort_desc ttd tp tf ttf vocab lambda_step R n_jobs
  = Ok info ->
  exists lambda_seq,
    arange 0 (1 + lambda_step) lambda_step = Ok lambda_seq /\
    lambda_seq <> [] /\
    forall k, (k < nrows ttd)%nat ->
      (R <= length (topic_terms info (k + 1)))%nat /\
      (length (topic_terms info (k + 1)) <= ncols ttd)%nat /\
      (length (topic_terms info (k + 1)) <= R * length lambda_seq)%nat.
Proof.
  intros Horder Hsort Hinfo.
  destruct (@topic_terms_of_topic _ _ _ _ _ _ _ _ _ _ _ _ _ _ Horder Hinfo)
    as (lambda_seq & Hseq & Hne & Hterms).
  assert (HR : (R <= ncols ttd)%nat).
  { apply topic_info_ok_rows in Hinfo. cbv zeta in Hinfo. destruct Hinfo as [Hlen _].
    rewrite length_firstn, (sorts_descending_length Hsort), length_saliency_of in Hlen.
    lia. }
  exists lambda_seq. split; [exact Hseq|]. split; [exact Hne|].
  intros k Hk. rewrite Hterms.
  destruct (Nat.leb_spec 1 (k + 1)); [|lia].
  destruct (Nat.leb_spec (k + 1) (nrows ttd)); [|lia].
  cbn [andb]. replace (k + 1 - 1)%nat with k by lia.
  set (ranking := fun l => top_terms_of log order_desc ttd tf R l k).
  assert (Hperm : forall l,
            Permutation (order_desc (map (relevance_of log ttd tf l k) (seq 0 (ncols ttd))))
                        (seq 0 (ncols ttd))).
  { intros l. destruct Horder as [Hperm _].
    specialize (Hperm (map (relevance_of log ttd tf l k) (seq 0 (ncols ttd)))).
    now rewrite length_map, length_seq in Hperm. }
  assert (Hlen : forall l, length (ranking l) = R).
  { intros l. unfold ranking, top_terms_of.
    rewrite length_firstn, (Permutation_length (Hperm l)), length_seq. lia. }
  split; [|split].
  - destruct lambda_seq as [|l ls]; [contradiction|].
    rewrite <- (Hlen l). apply NoDup_incl_length.
    + unfold ranking, top_terms_of. apply NoDup_prefix.
      eapply permutation_seq_NoDup. apply Hperm.
    + intros t Ht. apply in_unique. cbn [map concat]. apply in_or_app. now left.
  - apply Nat.le_trans with (length (seq 0 (ncols ttd))); [|now rewrite length_seq].
    apply NoDup_incl_length; [apply NoDup_unique|].
    intros t Ht. rewrite in_unique in Ht. apply in_concat_map in Ht as (l & _ & Ht).
    unfold ranking, top_terms_of in Ht. apply in_firstn in Ht.
    eapply Permutation_in; [apply Hperm|exact Ht].
  - etransitivity; [apply length_unique|].
    apply length_rankings. intros l. now rewrite Hlen.
Qed.

Lemma topic_rows_count_witness :
  sorts_descending stable_argsort_desc /\
  exists info,
    example_topic_info = Ok info /\
    (2 <= length (topic_terms info 1))%nat /\ (length (topic_terms info 1) <= 3)%nat.
Proof.
  split; [apply stable_argsort_desc_sorts|].
  destruct example_topic_info as [info|e] eqn:Hinfo;
    [|vm_compute in Hinfo; discriminate Hinfo].
  exists info. split; [reflexivity|].
  unfold example_topic_info in Hinfo. cbv zeta in Hinfo.
  destruct (@topic_rows_count 4 log_lower nansum_zero stable_argsort_desc
              stable_argsort_desc
              (topic_term_dists' (reorder stable_argsort_desc (named example_inputs)))
              (topic_proportion (reorder stable_argsort_desc (named example_inputs)))
              (term_frequency example_inputs)
              (_term_topic_freq
                 (topic_term_dists' (reorder stable_argsort_desc (named example_inputs)))
                 (topic_freq (reorder stable_argsort_desc (named example_inputs)))
                 (term_frequency example_inputs))
              (vocab example_inputs) (qc 1 4) 2%nat (-1)%Z info
              stable_argsort_desc_sorts stable_argsort_desc_sorts Hinfo)
    as (lambda_seq & _ & _ & Hcount).
  destruct (Hcount 0%nat ltac:(vm_compute; lia)) as (H1 & H2 & _).
  split; [exact H1|exact H2].
Defined.

(** ** When [_topic_info] and [prepare] raise *)

Section TopicInfoFailures.
Variable cpu_count : Z.
Variable log : fnum -> fnum.
Variable nansum : list fnum -> fnum.
Variables order_desc sort_desc : list fnum -> list nat.
Hypothesis sort_desc_length : forall l, length (sort_desc l) = length l.

Lemma topic_info_too_many_terms (ttd : frame Qc) (tp : series fnum) (tf : list Qc)
    (ttf : frame fnum) (vocab : list string) (lambda_step : Qc) (R : nat) (n_jobs : Z) :
  (ncols ttd < R)%nat ->
  _topic_info cpu_count log nansum order_desc sort_desc ttd tp tf ttf vocab
              lambda_step R n_jobs = Raise ValueError.
Proof.
  intros HR. rewrite topic_info_unfold. cbv zeta.
  destruct (Nat.eqb_spec (length (firstn R (sort_desc (saliency_of log nansum ttd tp tf)))) R)
    as [E|]; [|reflexivity].
  rewrite length_firstn, sort_desc_length, length_saliency_of in E. lia.
Qed.

Lemma topic_info_zero_jobs (ttd : frame Qc) (tp : series fnum) (tf : list Qc)
    (ttf : frame fnum) (vocab : list string) (lambda_step : Qc) (R : nat) :
  (R <= ncols ttd)%nat -> (0 < lambda_step)%Qc ->
  _topic_info cpu_count log nansum order_desc sort_desc ttd tp tf ttf vocab
              lambda_step R 0 = Raise ValueError.
Proof.
  intros HR Hstep. rewrite topic_info_unfold. cbv zeta.
  destruct (Nat.eqb_spec (length (firstn R (sort_desc (saliency_of log nansum ttd tp tf)))) R)
    as [_|N].
  - cbn [bind]. destruct (arange_returns Hstep) as (lambda_seq & -> & _).
    reflexivity.
  - exfalso. apply N.
    rewrite length_firstn, sort_desc_length, length_saliency_of. lia.
Qed.

End TopicInfoFailures.

(** X14.  On inputs that pass the validation, [prepare] raises [ValueError]
    when [R] exceeds the number of terms of the vocabulary (the [R] ranks do
    not fit the shorter default view), and when [n_jobs] is 0; and when
    [_topic_info] has returned, it raises [AssertionError] if the strategy
    [mds] returns an array of another shape than [(K, 2)]. *)
Theorem prepare_failures (round : Qc -> Z -> Qc) (cpu_count : Z) (log : fnum -> fnum)
    (nansum : list fnum -> fnum) (order_desc sort_desc : list fnum -> list nat)
    (sort_term_topic : list (string * nat) -> list nat)
    (i : inputs) (R : nat) (lambda_step : Qc) (mds : frame Qc -> frame fnum)
    (plot_opts : list (string * value)) (n_jobs : Z) :
  sorts_descending order_desc ->
  sorts_descending sort_desc ->
  _input_check round (named i) = None ->
  let run := prepare round cpu_count log nansum order_desc sort_desc sort_term_topic
                     i R lambda_step mds plot_opts n_jobs in
  ((length (vocab i) < R)%nat -> run = Raise ValueError) /\
  ((R <= length (vocab i))%nat -> (0 < lambda_step)%Qc -> n_jobs = 0%Z ->
   run = Raise ValueError) /\
  ((R <= length (vocab i))%nat -> (0 < lambda_step)%Qc ->
   (0 < cpu_count)%Z -> n_jobs <> 0%Z ->
   shape (mds (topic_term_dists' (reorder order_desc (named i))))
   <> (nrows (topic_term_dists i), 2%nat) ->
   run = Raise AssertionError).
Proof.
  intros Hdesc Hsort Hval run.
  pose proof (@topic_order_perm round order_desc i Hdesc Hval) as Hperm.
  pose proof (validated_shapes _ _ Hval) as (_ & _ & HW & _). cbn in HW.
  pose proof (sorts_descending_length Hsort) as Hlen.
  set (r := reorder order_desc (named i)) in *.
  assert (HK : nrows (topic_term_dists' r) = nrows (topic_term_dists i)).
  { change (nrows (topic_term_dists' r)) with (length (topic_order r)).
    now rewrite (Permutation_length Hperm), length_seq. }
  assert (Hcols : ncols (topic_term_dists' r) = length (vocab i)) by exact HW.
  assert (Hrun : run
    = (topic_info <- _topic_info cpu_count log nansum order_desc sort_desc
                       (topic_term_dists' r) (topic_proportion r) (term_frequency i)
                       (_term_topic_freq (topic_term_dists' r) (topic_freq r)
                                         (term_frequency i))
                       (vocab i) lambda_step R n_jobs ;;
       topic_coordinates <- _topic_coordinates mds (topic_term_dists' r)
                                               (topic_proportion r) ;;
       Ok (Prepared.Make topic_coordinates topic_info
             (_token_table sort_term_topic topic_info
                (_term_topic_freq (topic_term_dists' r) (topic_freq r) (term_frequency i))
                (vocab i) (term_frequency i))
             R lambda_step plot_opts (map (fun x => x + 1)%nat (topic_order r))))).
  { unfold run, prepare. cbv zeta.
    apply input_validate_ok in Hval. rewrite Hval. reflexivity. }
  rewrite Hrun. split; [|split].
  - intros HR. rewrite topic_info_too_many_terms; trivial. rewrite Hcols. exact HR.
  - intros HR Hstep ->. rewrite topic_info_zero_jobs; trivial. rewrite Hcols. exact HR.
  - intros HR Hstep Hcpu Hjobs Hshape.
    destruct (@topic_info_returns cpu_count log nansum order_desc sort_desc Hlen
                (topic_term_dists' r) (topic_proportion r) (term_frequency i)
                (_term_topic_freq (topic_term_dists' r) (topic_freq r) (term_frequency i))
                (vocab i) lambda_step R n_jobs)
      as [info Hinfo]; trivial; [rewrite Hcols; exact HR|lia|].
    rewrite Hinfo. cbn [bind].
    unfold _topic_coordinates, shape in *. cbn [fst snd]. rewrite HK.
    destruct (Nat.eqb_spec (nrows (mds (topic_term_dists' r))) (nrows (topic_term_dists i)))
      as [E1|]; [|reflexivity].
    destruct (Nat.eqb_spec (ncols (mds (topic_term_dists' r))) 2) as [E2|]; [|reflexivity].
    exfalso. apply Hshape. now rewrite E1, E2.
Qed.

Lemma prepare_failures_witness :
  sorts_descending stable_argsort_desc /\
  _input_check round_py3 (named example_inputs) = None /\
  (length (vocab example_inputs) < 30)%nat /\
  prepare round_py3 4 log_lower nansum_zero stable_argsort_desc stable_argsort_desc
          stable_sort_term_topic example_inputs 30 (qc 1 100) first_two_columns [] (-1)
  = Raise ValueError.
Proof.
  assert (Hval : _input_check round_py3 (named example_inputs) = None)
    by (vm_compute; reflexivity).
  assert (HR : (length (vocab example_inputs) < 30)%nat) by (vm_compute; lia).
  split; [apply stable_argsort_desc_sorts|]. split; [exact Hval|]. split; [exact HR|].
  pose proof (@prepare_failures round_py3 4 log_lower nansum_zero stable_argsort_desc
                stable_argsort_desc stable_sort_term_topic example_inputs 30 (qc 1 100)
                first_two_columns [] (-1)%Z
                stable_argsort_desc_sorts stable_argsort_desc_sorts Hval) as H.
  cbv zeta in H. exact (proj1 H HR).
Defined.

(** X15.  [prepare] returns on inputs that pass the validation when [R] is
    at most the number of terms, [lambda_step] is positive, [n_jobs] is not
    0 (with at least one cpu) and the strategy [mds] returns an array of
    shape [(K, 2)]; its result carries [R], [lambda_step] and [plot_opts]
    as they were passed, one row of coordinates for each topic, and [K]
    topic numbers in [topic_order]. *)
Theorem prepare_succeeds (round : Qc -> Z -> Qc) (cpu_count : Z) (log : fnum -> fnum)
    (nansum : list fnum -> fnum) (order_desc sort_desc : list fnum -> list nat)
    (sort_term_topic : list (string * nat) -> list nat)
    (i : inputs) (R : nat) (lambda_step : Qc) (mds : frame Qc -> frame fnum)
    (plot_opts : list (string * value)) (n_jobs : Z) :
  sorts_descending order_desc ->
  sorts_descending sort_desc ->
  _input_check round (named i) = None ->
  (R <= length (vocab i))%nat ->
  (0 < lambda_step)%Qc ->
  (0 < cpu_count)%Z -> n_jobs <> 0%Z ->
  shape (mds (topic_term_dists' (reorder order_desc (named i))))
  = (nrows (topic_term_dists i), 2%nat) ->
  exists pd,
    prepare round cpu_count log nansum order_desc sort_desc sort_term_topic
            i R lambda_step mds plot_opts n_jobs = Ok pd /\
    Prepared.R pd = R /\
    Prepared.lambda_step pd = lambda_step /\
    Prepared.plot_opts pd = plot_opts /\
    length (Prepared.topic_coordinates pd) = nrows (topic_term_dists i) /\
    length (Prepared.topic_order pd) = nrows (topic_term_dists i).
Proof.
  intros Hdesc Hsort Hval HR Hstep Hcpu Hjobs Hshape.
  destruct (@prepare_returns round cpu_count log nansum order_desc sort_desc
              sort_term_topic i R lambda_step mds plot_opts n_jobs)
    as [pd Hpd]; trivial; [lia|].
  exists pd. split; [exact Hpd|].
  pose proof (@topic_order_perm round order_desc i Hdesc Hval) as Hperm.
  apply prepare_ok_inv in Hpd. cbv zeta in Hpd.
  destruct Hpd as (_ & info & coords & _ & Hcoords & ->).
  cbn [Prepared.R Prepared.lambda_step Prepared.plot_opts Prepared.topic_coordinates
       Prepared.topic_order].
  repeat split.
  - apply topic_coordinates_ok_inv in Hcoords. destruct Hcoords as [_ ->].
    rewrite length_map, length_seq.
    change (nrows (topic_term_dists' (reorder order_desc (named i))))
      with (length (topic_order (reorder order_desc (named i)))).
    now rewrite (Permutation_length Hperm), length_seq.
  - now rewrite length_map, (Permutation_length Hperm), length_seq.
Qed.

Lemma prepare_succeeds_witness :
  sorts_descending stable_argsort_desc /\
  _input_check round_py3 (named example_inputs) = None /\
  exists pd,
    example_run = Ok pd /\
    Prepared.R pd = 2%nat /\
    length (Prepared.topic_coordinates pd) = 2%nat.
Proof.
  assert (Hval : _input_check round_py3 (named example_inputs) = None)
    by (vm_compute; reflexivity).
  split; [apply stable_argsort_desc_sorts|]. split; [exact Hval|].
  destruct (@prepare_succeeds round_py3 4 log_lower nansum_zero stable_argsort_desc
              stable_argsort_desc stable_sort_term_topic example_inputs 2 (qc 1 4)
              first_two_columns [("xlab", VStr "PC1"); ("ylab", VStr "PC2")] (-1)%Z
              stable_argsort_desc_sorts stable_argsort_desc_sorts Hval)
    as (pd & Hpd & HR & _ & _ & Hcoords & _).
  - vm_compute. lia.
  - reflexivity.
  - lia.
  - lia.
  - vm_compute. reflexivity.
  - exists pd. split; [exact Hpd|]. split; [exact HR|exact Hcoords].
Defined.

(** ** More on the corrected term-topic frequencies *)

Lemma corrected_estimate_bounds (ttd : frame Qc) (topic_freq tf : list Qc) (k w : nat) :
  Forall (fun x => 0 <= x) (column (weight_rows ttd topic_freq) w) ->
  0 <= at_ 0 tf w ->
  (k < nrows ttd)%nat -> (w < ncols ttd)%nat ->
  Qsum (column (weight_rows ttd topic_freq) w) <> 0 ->
  exists q, cell (_term_topic_freq ttd topic_freq tf) k w = Fin q /\
            0 <= q /\ q <= at_ 0 tf w.
Proof.
  intros Hcol Htf Hk Hw Hs.
  rewrite term_topic_freq_cell by trivial.
  set (raw := weight_rows ttd topic_freq) in *.
  assert (Hin : In (cell raw k w) (column raw w)).
  { unfold column. apply (in_map (fun j => cell raw j w)). apply in_seq.
    subst raw. cbn [nrows weight_rows]. lia. }
  rewrite fdiv_finite by exact Hs. cbn [fmul].
  eexists. split; [reflexivity|].
  apply rescaled_bounds; trivial.
  - rewrite Forall_forall in Hcol. now apply Hcol.
  - now apply Qsum_bounds_element.
Qed.

(** X16.  In exact arithmetic: when the entries of [topic_term_dists] for a
    term, the masses of the topics and the frequency of the term are not
    negative, and the raw estimates of the term do not sum to zero, every
    corrected estimate of [_term_topic_freq] for the term is a number
    between 0 and the frequency of the term.  (The product the code forms
    in float64 can pass the frequency in its last place.) *)
Theorem term_topic_freq_bounds (ttd : frame Qc) (topic_freq tf : list Qc) (k w : nat) :
  (forall j, (j < nrows ttd)%nat -> 0 <= cell ttd j w) ->
  Forall (fun x => 0 <= x) topic_freq ->
  0 <= at_ 0 tf w ->
  (k < nrows ttd)%nat -> (w < ncols ttd)%nat ->
  Qsum (column (weight_rows ttd topic_freq) w) <> 0 ->
  exists q, cell (_term_topic_freq ttd topic_freq tf) k w = Fin q /\
            0 <= q /\ q <= at_ 0 tf w.
Proof.
  intros Httd Hfreq Htf Hk Hw Hs.
  apply corrected_estimate_bounds; trivial.
  unfold column. rewrite Forall_map. apply Forall_forall.
  intros j Hj. apply in_seq in Hj. cbn [nrows weight_rows cell] in *.
  apply Qcmult_nonneg; [apply Httd; lia|now apply at_nonneg].
Qed.

Lemma term_topic_freq_bounds_witness :
  let ttd := table 3 [[qc 1 10; qc 3 10; qc 6 10]; [qc 7 10; qc 2 10; qc 1 10]] in
  let topic_freq := [qc 17 1; qc 13 1] in
  let tf := [qc 5 1; qc 10 1; qc 15 1] in
  Forall (fun x => 0 <= x) topic_freq /\
  Qsum (column (weight_rows ttd topic_freq) 2) <> 0 /\
  exists q, cell (_term_topic_freq ttd topic_freq tf) 1 2 = Fin q /\
            0 <= q /\ q <= qc 15 1.
Proof.
  cbv zeta.
  assert (Hfreq : Forall (fun x => 0 <= x) [qc 17 1; qc 13 1]).
  { repeat constructor; apply Qc_leb_le; vm_compute; reflexivity. }
  assert (Hs : Qsum (column (weight_rows
                  (table 3 [[qc 1 10; qc 3 10; qc 6 10]; [qc 7 10; qc 2 10; qc 1 10]])
                  [qc 17 1; qc 13 1]) 2) <> 0)
    by (apply Qc_neq_by_compute; vm_compute; reflexivity).
  split; [exact Hfreq|]. split; [exact Hs|].
  apply (@term_topic_freq_bounds
           (table 3 [[qc 1 10; qc 3 10; qc 6 10]; [qc 7 10; qc 2 10; qc 1 10]])
           [qc 17 1; qc 13 1] [qc 5 1; qc 10 1; qc 15 1] 1 2); trivial.
  - intros [|[|j]] Hj; try (apply Qc_leb_le; vm_compute; reflexivity).
    vm_compute in Hj. lia.
  - apply Qc_leb_le. vm_compute. reflexivity.
  - vm_compute. lia.
  - vm_compute. lia.
Defined.

Lemma Qccompare_scale (r c : Qc) : 0 < c -> (r * c ?= 0) = (r ?= 0).
Proof.
  intros Hc. destruct (r ?= 0) eqn:E.
  - apply Qceq_alt in E. subst r. apply Qceq_alt. ring.
  - apply Qclt_alt in E. apply Qclt_alt.
    replace 0 with (0 * c) by ring. now apply Qcmult_lt_compat_r.
  - apply Qcgt_alt in E. apply Qcgt_alt.
    change (0 < r * c). replace 0 with (0 * c) by ring.
    now apply Qcmult_lt_compat_r.
Qed.

Lemma at_scaled (c : Qc) (l : list Qc) (k : nat) :
  at_ 0 (map (Qcmult c) l) k = c * at_ 0 l k.
Proof.
  unfold at_. destruct (Nat.lt_ge_cases k (length l)) as [Hk|Hk].
  - rewrite nth_indep with (d' := c * 0) by now rewrite length_map.
    apply map_nth.
  - rewrite !nth_overflow by (try rewrite length_map; trivial). ring.
Qed.

(** X17.  [_term_topic_freq] depends on the masses of the topics only up to
    a positive factor: multiplying every mass by [c > 0] leaves every
    corrected estimate as it is. *)
Theorem term_topic_freq_scale (ttd : frame Qc) (topic_freq tf : list Qc) (c : Qc)
    (k w : nat) :
  0 < c -> (w < ncols ttd)%nat ->
  cell (_term_topic_freq ttd (map (Qcmult c) topic_freq) tf) k w
  = cell (_term_topic_freq ttd topic_freq tf) k w.
Proof.
  intros Hc Hw. rewrite !term_topic_freq_cell by trivial.
  assert (Hcell : forall j, cell (weight_rows ttd (map (Qcmult c) topic_freq)) j w
                            = cell (weight_rows ttd topic_freq) j w * c).
  { intros j. cbn [weight_rows cell]. rewrite at_scaled. ring. }
  assert (Hsum : Qsum (column (weight_rows ttd (map (Qcmult c) topic_freq)) w)
                 = Qsum (column (weight_rows ttd topic_freq) w) * c).
  { unfold column. cbn [nrows weight_rows].
    rewrite <- (Qsum_scale (fun j => cell (weight_rows ttd topic_freq) j w)).
    f_equal. apply map_ext. intros j. apply Hcell. }
  rewrite Hcell, Hsum.
  set (r := cell (weight_rows ttd topic_freq) k w).
  set (s := Qsum (column (weight_rows ttd topic_freq) w)).
  assert (Hc0 : c <> 0) by (intros ->; now apply Qclt_not_eq in Hc).
  destruct (Qc_eq_dec s 0) as [Hs|Hs].
  - rewrite Hs. replace (0 * c) with 0 by ring.
    cbn [fdiv]. change (Qc_eq_bool 0 0) with true. cbv iota.
    destruct (at_ 0 tf w ?= 0); cbn [fmul]; trivial;
      unfold scale_inf; now rewrite Qccompare_scale.
  - assert (Hsc : s * c <> 0).
    { intros E. apply Qcmult_integral in E. tauto. }
    rewrite !fdiv_finite by trivial. cbn [fmul]. f_equal. now field.
Qed.

Lemma term_topic_freq_scale_witness :
  let ttd := table 3 [[qc 1 10; qc 3 10; qc 6 10]; [qc 7 10; qc 2 10; qc 1 10]] in
  let tf := [qc 5 1; qc 10 1; qc 15 1] in
  0 < qc 3 1 /\ (0 < ncols ttd)%nat /\
  cell (_term_topic_freq ttd (map (Qcmult (qc 3 1)) [qc 17 1; qc 13 1]) tf) 1 0
  = cell (_term_topic_freq ttd [qc 17 1; qc 13 1] tf) 1 0.
Proof.
  cbv zeta. split; [reflexivity|]. split; [vm_compute; lia|].
  apply term_topic_freq_scale; [reflexivity|vm_compute; lia].
Defined.

(** ** The proportions of the topics *)

Lemma Qsum_perm (l l' : list Qc) : Permutation l l' -> Qsum l = Qsum l'.
Proof.
  induction 1 as [|x l l' _ IH|x y l|l l' l'' _ IH1 _ IH2]; simpl.
  - reflexivity.
  - now rewrite IH.
  - ring.
  - congruence.
Qed.

Lemma at_normalize (s : list Qc) (t : nat) :
  (t < length s)%nat -> Qsum s <> 0 ->
  at_ NaN (normalize s) t = Fin (at_ 0 s t / Qsum s).
Proof.
  intros Ht Hs. unfold at_, normalize.
  rewrite nth_indep with (d' := fdiv (Fin 0) (Fin (Qsum s))) by now rewrite length_map.
  rewrite (map_nth (fun x => fdiv (Fin x) (Fin (Qsum s)))).
  now apply fdiv_finite.
Qed.

(** X18.  When [prepare] returns and the total mass of the topics is not
    zero, the column [Freq] of the coordinates holds the percentages of the
    topics: finite numbers that sum to 100. *)
Theorem coordinates_percentages (round : Qc -> Z -> Qc) (cpu_count : Z)
    (log : fnum -> fnum) (nansum : list fnum -> fnum)
    (order_desc sort_desc : list fnum -> list nat)
    (sort_term_topic : list (string * nat) -> list nat)
    (i : inputs) (R : nat) (lambda_step : Qc) (mds : frame Qc -> frame fnum)
    (plot_opts : list (string * value)) (n_jobs : Z) (pd : Prepared.PreparedData) :
  sorts_descending order_desc ->
  prepare round cpu_count log nansum order_desc sort_desc sort_term_topic
          i R lambda_step mds plot_opts n_jobs = Ok pd ->
  Qsum (topic_mass (named i)) <> 0 ->
  Forall (fun r => exists q, Coord.Freq r = Fin q) (Prepared.topic_coordinates pd) /\
  fsum (map Coord.Freq (Prepared.topic_coordinates pd)) = Fin (Q2Qc (inject_Z 100)).
Proof.
  intros Hsort Hpd Hmass.
  apply prepare_ok_inv in Hpd. cbv zeta in Hpd.
  destruct Hpd as (Hval & info & coords & _ & Hcoords & ->).
  pose proof (@topic_order_perm round order_desc i Hsort Hval) as Hperm.
  pose proof (validated_shapes _ _ Hval) as (HK & _). cbn in HK.
  set (r := reorder order_desc (named i)) in *.
  set (mass := topic_mass (named i)) in *.
  assert (Hmlen : length mass = nrows (topic_term_dists i)).
  { unfold mass. now rewrite length_topic_mass. }
  apply topic_coordinates_ok_inv in Hcoords. destruct Hcoords as [_ Hcoords].
  cbn [Prepared.topic_coordinates].
  assert (Hfreq : map Coord.Freq coords
                  = map (fun t => Fin (at_ 0 mass t * (/ Qsum mass * Q2Qc (inject_Z 100))))
                        (topic_order r)).
  { rewrite Hcoords, map_map. cbn [Coord.Freq].
    change (nrows (topic_term_dists' r)) with (length (topic_order r)).
    change (values (topic_proportion r))
      with (map (at_ NaN (normalize mass)) (topic_order r)).
    transitivity
      (map (fun t => Fin (at_ 0 mass t * (/ Qsum mass * Q2Qc (inject_Z 100))))
           (map (fun j => nth j (topic_order r) 0%nat)
                (seq 0 (length (topic_order r)))));
      [|now rewrite map_positions].
    rewrite map_map. apply map_ext_in. intros j Hj. apply in_seq in Hj.
    unfold at_ at 1.
    rewrite nth_indep with (d' := at_ NaN (normalize mass) 0%nat)
      by (rewrite length_map; lia).
    rewrite map_nth.
    assert (Ht : (nth j (topic_order r) 0 < length mass)%nat).
    { rewrite Hmlen. eapply permutation_seq_bound; [exact Hperm|].
      rewrite (Permutation_length Hperm), length_seq in Hj. lia. }
    rewrite at_normalize by trivial. cbn [fmul]. f_equal.
    unfold Qcdiv. ring. }
  split.
  - apply Forall_forall. intros row Hrow.
    apply (in_map Coord.Freq) in Hrow. rewrite Hfreq in Hrow.
    apply in_map_iff in Hrow as (t & <- & _). eauto.
  - rewrite Hfreq.
    rewrite <- (map_map (fun t => at_ 0 mass t * (/ Qsum mass * Q2Qc (inject_Z 100))) Fin).
    rewrite fsum_finite. f_equal.
    rewrite (Qsum_perm (Permutation_map _ Hperm)).
    rewrite (Qsum_scale (fun t => at_ 0 mass t)).
    rewrite <- Hmlen. unfold at_. rewrite map_positions.
    field. exact Hmass.
Qed.

Lemma coordinates_percentages_witness :
  sorts_descending stable_argsort_desc /\
  Qsum (topic_mass (named example_inputs)) <> 0 /\
  exists pd,
    example_run = Ok pd /\
    fsum (map Coord.Freq (Prepared.topic_coordinates pd)) = Fin (Q2Qc (inject_Z 100)).
Proof.
  assert (Hmass : Qsum (topic_mass (named example_inputs)) <> 0)
    by (apply Qc_neq_by_compute; vm_compute; reflexivity).
  split; [apply stable_argsort_desc_sorts|]. split; [exact Hmass|].
  destruct example_run as [pd|e] eqn:Hpd; [|vm_compute in Hpd; discriminate Hpd].
  exists pd. split; [reflexivity|].
  exact (proj2 (@coordinates_percentages _ _ _ _ _ _ _ _ _ _ _ _ _ pd
                  stable_argsort_desc_sorts Hpd Hmass)).
Defined.

(** ** More on the token table *)

Lemma flat_map_positions {A B : Type} (g : A -> list B) (d : A) (l : list A) :
  flat_map (fun c => g (nth c l d)) (seq 0 (length l)) = flat_map g l.
Proof.
  rewrite !flat_map_concat_map.
  rewrite <- (map_map (fun c => nth c l d) g). now rewrite map_positions.
Qed.

Lemma token_rows_keys (info : list Info.row) (ttf : frame fnum) (vocab : list string)
    (tf : list Qc) :
  map (fun r => (Token.term r, Token.Topic r)) (token_rows info ttf vocab tf)
  = map (fun e : nat * nat * fnum => fst e)
        (filter (fun e : nat * nat * fnum => fge (snd e) (Fin (Q2Qc (1 # 2))))
           (flat_map (fun t => map (fun k => (t, one_based k, cell ttf k t))
                                   (seq 0 (nrows ttf)))
                     (isort Nat.leb (unique (map Info.ix info))))).
Proof.
  unfold token_rows. cbv zeta. rewrite !map_map.
  set (term_ix := isort Nat.leb (unique (map Info.ix info))).
  pose (g := fun t => map (fun k => (t, one_based k, cell ttf k t)) (seq 0 (nrows ttf))).
  change (flat_map _ (seq 0 (length term_ix)))
    with (flat_map (fun c => g (nth c term_ix 0%nat)) (seq 0 (length term_ix))).
  rewrite flat_map_positions. fold g.
  rewrite (filter_ext (fun e : nat * nat * fnum => fge (snd e) (Fin (Q2Qc (1 # 2))))
                      (fun '(term, Topic, Freq) => fge Freq (Fin (Q2Qc (1 # 2)))))
    by (intros [[t n] x]; reflexivity).
  apply map_ext. intros [[t n] x]. reflexivity.
Qed.

Lemma filter_flags {A B : Type} (key : A -> B) (p : A -> bool) (l : list A) :
  filter fst (map (fun a => (p a, key a)) l) = map (fun a => (p a, key a)) (filter p l).
Proof.
  induction l as [|a l IH]; simpl; [reflexivity|].
  destruct (p a) eqn:E; simpl; rewrite IH; [now rewrite E|reflexivity].
Qed.

Lemma kept_keys_NoDup {A B : Type} (key : A -> B) (p : A -> bool) (l : list A) :
  NoDup (map key l) -> NoDup (map key (filter p l)).
Proof.
  intros H.
  pose proof (@flagged_NoDup B (map (fun a => (p a, key a)) l)) as F.
  rewrite map_map, filter_flags, map_map in F. cbn [snd] in F. auto.
Qed.

Lemma pair_keys (K : nat) (value : nat -> nat -> fnum) (L : list nat) :
  map (fun e : nat * nat * fnum => fst e)
      (flat_map (fun t => map (fun k => (t, one_based k, value k t)) (seq 0 K)) L)
  = flat_map (fun t => map (fun k => (t, one_based k)) (seq 0 K)) L.
Proof.
  induction L as [|t L IH]; simpl; [reflexivity|].
  now rewrite map_app, IH, map_map.
Qed.

Lemma pair_keys_NoDup (K : nat) (L : list nat) :
  NoDup L -> NoDup (flat_map (fun t => map (fun k => (t, one_based k)) (seq 0 K)) L).
Proof.
  induction 1 as [|t L Ht _ IH]; simpl; [constructor|].
  apply NoDup_app; [|exact IH|].
  - apply NoDup_map_NoDup_ForallPairs; [|apply seq_NoDup].
    intros j k _ _ E. inversion E. unfold one_based in *. lia.
  - intros [t' n] H1 H2. apply in_map_iff in H1 as (k & E & _).
    inversion E; subst t' n.
    apply in_flat_map in H2 as (u & Hu & H2).
    apply in_map_iff in H2 as (k' & E' & _). inversion E'; subst u. contradiction.
Qed.

(** X19.  When the sort of pandas sorts, the token table has at most one
    row for a term and a topic; the term of each row is a term of the
    topic-info table, its topic number lies between 1 and [K], and its
    [Term] is the word of the vocabulary for the term. *)
Theorem token_table_keys (sort_term_topic : list (string * nat) -> list nat)
    (info : list Info.row) (ttf : frame fnum) (vocab : list string) (tf : list Qc) :
  sorts_by_term_topic sort_term_topic ->
  let table := _token_table sort_term_topic info ttf vocab tf in
  NoDup (map (fun r => (Token.term r, Token.Topic r)) table) /\
  (forall r, In r table ->
     In (Token.term r) (map Info.ix info) /\
     (1 <= Token.Topic r <= nrows ttf)%nat /\
     Token.Term r = at_ "" vocab (Token.term r)).
Proof.
  intros Hsort table.
  pose proof (token_table_perm Hsort info ttf vocab tf) as Hperm. fold table in Hperm.
  split.
  - eapply Permutation_NoDup.
    + symmetry. apply Permutation_map. exact Hperm.
    + rewrite token_rows_keys. apply kept_keys_NoDup.
      rewrite pair_keys. apply pair_keys_NoDup.
      eapply Permutation_NoDup; [symmetry; apply isort_perm|apply NoDup_unique].
  - intros r Hr. apply (Permutation_in _ Hperm) in Hr.
    apply in_token_rows in Hr as (t & k & Ht & Hk & _ & ->).
    cbn [Token.term Token.Topic Token.Term]. split; [exact Ht|]. split; [lia|reflexivity].
Qed.

Lemma token_table_keys_witness :
  let ttf := _term_topic_freq
               (table 3 [[qc 1 10; qc 3 10; qc 6 10]; [qc 7 10; qc 2 10; qc 1 10]])
               [qc 17 1; qc 13 1] [qc 5 1; qc 10 1; qc 15 1] in
  let table := _token_table stable_sort_term_topic two_term_info ttf ["a"; "b"; "c"]
                            [qc 5 1; qc 10 1; qc 15 1] in
  sorts_by_term_topic stable_sort_term_topic /\
  NoDup (map (fun r => (Token.term r, Token.Topic r)) table) /\
  map (fun r => (Token.term r, Token.Topic r)) table = [(0, 1); (0, 2); (2, 1); (2, 2)]%nat.
Proof.
  cbv zeta. split; [apply stable_sort_term_topic_sorts|]. split.
  - apply (@token_table_keys stable_sort_term_topic two_term_info
             (_term_topic_freq
                (table 3 [[qc 1 10; qc 3 10; qc 6 10]; [qc 7 10; qc 2 10; qc 1 10]])
                [qc 17 1; qc 13 1] [qc 5 1; qc 10 1; qc 15 1])
             ["a"; "b"; "c"] [qc 5 1; qc 10 1; qc 15 1] stable_sort_term_topic_sorts).
  - vm_compute. reflexivity.
Defined.

(** ** One numbering of the topics in every table *)

Lemma one_based_seq (n : nat) : map one_based (seq 0 n) = seq 1 n.
Proof.
  rewrite <- seq_shift. apply map_ext. intros k. unfold one_based. lia.
Qed.

(** X20.  When [prepare] returns, the topics are numbered [1, ..., K] in all
    its tables: the coordinates list the numbers [1, ..., K] in this order,
    all in the cluster 1; [topic_order] is a permutation of them; every row
    of the token table carries one of them; and every row of the topic-info
    table is of the category ['Default'] or ['Topic<n>'] for one of them. *)
Theorem client_topics_enumerated (round : Qc -> Z -> Qc) (cpu_count : Z)
    (log : fnum -> fnum) (nansum : list fnum -> fnum)
    (order_desc sort_desc : list fnum -> list nat)
    (sort_term_topic : list (string * nat) -> list nat)
    (i : inputs) (R : nat) (lambda_step : Qc) (mds : frame Qc -> frame fnum)
    (plot_opts : list (string * value)) (n_jobs : Z) (pd : Prepared.PreparedData) :
  sorts_descending order_desc ->
  sorts_by_term_topic sort_term_topic ->
  prepare round cpu_count log nansum order_desc sort_desc sort_term_topic
          i R lambda_step mds plot_opts n_jobs = Ok pd ->
  let K := nrows (topic_term_dists i) in
  map Coord.topics (Prepared.topic_coordinates pd) = seq 1 K /\
  Forall (fun r => Coord.cluster r = 1%nat) (Prepared.topic_coordinates pd) /\
  Permutation (Prepared.topic_order pd) (seq 1 K) /\
  (forall row, In row (Prepared.token_table pd) -> In (Token.Topic row) (seq 1 K)) /\
  (forall row, In row (Prepared.topic_info pd) ->
     Info.Category row = "Default" \/
     exists n, In n (seq 1 K) /\ Info.Category row = ("Topic" ++ decimal n)%string).
Proof.
  intros Hsort Htokens Hpd K.
  apply prepare_ok_inv in Hpd. cbv zeta in Hpd.
  destruct Hpd as (Hval & info & coords & Hinfo & Hcoords & ->).
  pose proof (@topic_order_perm round order_desc i Hsort Hval) as Hperm. fold K in Hperm.
  set (r := reorder order_desc (named i)) in *.
  assert (HK : nrows (topic_term_dists' r) = K).
  { change (nrows (topic_term_dists' r)) with (length (topic_order r)).
    now rewrite (Permutation_length Hperm), length_seq. }
  apply topic_coordinates_ok_inv in Hcoords. destruct Hcoords as [_ Hcoords].
  rewrite HK in Hcoords.
  cbn [Prepared.topic_order Prepared.topic_coordinates Prepared.topic_info
       Prepared.token_table].
  split; [|split; [|split; [|split]]].
  - rewrite Hcoords, map_map. cbn [Coord.topics]. apply one_based_seq.
  - rewrite Hcoords. rewrite Forall_map. apply Forall_forall. reflexivity.
  - rewrite <- one_based_seq.
    rewrite (map_ext (fun x => x + 1)%nat one_based) by reflexivity.
    now apply Permutation_map.
  - intros row Hrow.
    eapply Permutation_in in Hrow; [|now apply token_table_perm].
    apply in_token_rows in Hrow as (w & k & _ & Hk & _ & ->).
    change (nrows (_term_topic_freq (topic_term_dists' r) (topic_freq r) (term_frequency i)))
      with (nrows (topic_term_dists' r)) in Hk.
    cbn [Token.Topic]. apply in_seq. lia.
  - intros row Hrow.
    apply topic_info_ok_rows in Hinfo. cbv zeta in Hinfo.
    destruct Hinfo as (_ & lambda_seq & top_terms & _ & Hcols & _ & ->).
    apply in_app_or in Hrow as [Hrow|Hrow].
    + left. now apply in_default_rows in Hrow.
    + right. apply topic_rows_categories in Hrow as (k & Hk & Hcat & _).
      exists (k + 1)%nat. split; [apply in_seq; lia|exact Hcat].
Qed.

Lemma client_topics_enumerated_witness :
  sorts_descending stable_argsort_desc /\
  sorts_by_term_topic stable_sort_term_topic /\
  exists pd,
    example_run = Ok pd /\
    map Coord.topics (Prepared.topic_coordinates pd) = [1; 2]%nat /\
    Permutation (Prepared.topic_order pd) [1; 2]%nat.
Proof.
  split; [apply stable_argsort_desc_sorts|].
  split; [apply stable_sort_term_topic_sorts|].
  destruct example_run as [pd|e] eqn:Hpd; [|vm_compute in Hpd; discriminate Hpd].
  exists pd. split; [reflexivity|].
  pose proof (@client_topics_enumerated _ _ _ _ _ _ _ _ _ _ _ _ _ pd
                stable_argsort_desc_sorts stable_sort_term_topic_sorts Hpd) as H.
  cbv zeta in H. destruct H as (H1 & _ & H2 & _).
  split; [exact H1|exact H2].
Defined.

(** ** The distance [jensen_shannon] *)

Lemma fadd_comm (x y : fnum) : fadd x y = fadd y x.
Proof. destruct x, y; simpl; trivial. f_equal. ring. Qed.

Lemma combine_swap (a b : list fnum) :
  map (fun '(x, y) => fadd x y) (combine a b)
  = map (fun '(x, y) => fadd x y) (combine b a).
Proof.
  revert b. induction a as [|x a IH]; intros [|y b]; simpl; trivial.
  now rewrite IH, fadd_comm.
Qed.

Lemma array_add_comm (a b : list fnum) : array_add a b = array_add b a.
Proof.
  unfold array_add. rewrite (Nat.eqb_sym (length b) (length a)).
  destruct (Nat.eqb_spec (length a) (length b)) as [E|N].
  - now rewrite combine_swap.
  - destruct a as [|x [|x' a]], b as [|y [|y' b]]; simpl in *; try congruence;
      try (f_equal; f_equal; apply fadd_comm);
      try (do 2 f_equal; [apply fadd_comm|f_equal; [apply fadd_comm|]];
           apply map_ext; intros; apply fadd_comm).
Qed.

(** X22.  [jensen_shannon] is symmetric: when it returns a distance for
    [P] and [Q], it returns the same distance for [Q] and [P], whatever
    [scipy.stats.entropy] computes. *)
Theorem jensen_shannon_symmetric (entropy : list fnum -> list fnum -> outcome fnum)
    (P Q : list fnum) (v : fnum) :
  jensen_shannon entropy P Q = Ok v -> jensen_shannon entropy Q P = Ok v.
Proof.
  unfold jensen_shannon. rewrite (array_add_comm Q P).
  destruct (array_add P Q) as [s|]; [|discriminate]. cbn [bind].
  destruct (entropy P _) as [a|]; [|discriminate]. cbn [bind].
  destruct (entropy Q _) as [b|]; [|discriminate]. cbn [bind].
  intros H. inversion H. now rewrite (fadd_comm b a).
Qed.

Lemma jensen_shannon_symmetric_witness :
  let P := [Fin (qc 1 2); Fin (qc 1 2)] in
  let Q := [Fin (qc 1 4); Fin (qc 3 4)] in
  exists v, jensen_shannon entropy_lower P Q = Ok v /\
            jensen_shannon entropy_lower Q P = Ok v.
Proof.
  cbv zeta.
  destruct (jensen_shannon entropy_lower [Fin (qc 1 2); Fin (qc 1 2)]
                           [Fin (qc 1 4); Fin (qc 3 4)]) as [v|e] eqn:H;
    [|vm_compute in H; discriminate H].
  exists v. split; [reflexivity|].
  apply jensen_shannon_symmetric. exact H.
Defined.

Lemma half_of_double (x : fnum) : fmul (Fin (Q2Qc (1 # 2))) (fadd x x) = x.
Proof.
  destruct x as [q| | |]; try reflexivity.
  cbn [fadd fmul]. f_equal.
  apply Qc_is_canon. unfold Qcmult, Qcplus, Q2Qc. cbn [this].
  rewrite !Qred_correct. field.
Qed.

Lemma combine_diagonal (a : list fnum) :
  map (fmul (Fin (Q2Qc (1 # 2)))) (map (fun '(x, y) => fadd x y) (combine a a)) = a.
Proof.
  induction a as [|x a IH]; [reflexivity|].
  cbn [combine map]. now rewrite half_of_double, IH.
Qed.

(** X23.  The distance of [jensen_shannon] from an array to itself is what
    [scipy.stats.entropy] gives for the array against itself (0 for a
    distribution): the midpoint [0.5 * (P + P)] is [P]. *)
Theorem jensen_shannon_self (entropy : list fnum -> list fnum -> outcome fnum)
    (P : list fnum) :
  jensen_shannon entropy P P = entropy P P.
Proof.
  unfold jensen_shannon, array_add. rewrite Nat.eqb_refl. cbn [bind].
  rewrite combine_diagonal.
  destruct (entropy P P) as [a|e]; cbn [bind]; [|reflexivity].
  now rewrite half_of_double.
Qed.

(** ** The bars of the topic-info table *)

Lemma topic_rows_freq (vocab : list string) (tf : list Qc)
    (ttf log_ttd log_lift : frame fnum) (labels : list nat) (top_terms : frame nat)
    (row : Info.row) :
  In row (concat (map (topic_top_term_df vocab tf ttf log_ttd log_lift)
                      (enumerate1 (iterrows_T labels top_terms)))) ->
  exists k, (k < ncols top_terms)%nat /\
    In (Info.ix row) (column top_terms k) /\
    Info.Freq row = loc ttf (at_ 0%nat labels k) (Info.ix row) /\
    Info.Total row = at_ 0 tf (Info.ix row).
Proof.
  intros Hrow. apply in_concat in Hrow as (df & Hdf & Hrow).
  apply in_map_iff in Hdf as ([n [label terms]] & <- & Hn).
  apply in_enumerate1 in Hn as (j & -> & Hj).
  unfold iterrows_T in Hj. apply nth_error_map_seq in Hj as [Hj E].
  inversion E; subst label terms.
  unfold topic_top_term_df in Hrow.
  apply in_map_iff in Hrow as (t & <- & Ht).
  exists j. cbn [Info.Freq Info.ix Info.Total].
  repeat split; trivial. now apply in_unique.
Qed.

Lemma topic_mass_nonneg (i : inputs) :
  (forall d k, 0 <= cell (doc_topic_dists i) d k) ->
  Forall (fun x => 0 <= x) (doc_lengths i) ->
  Forall (fun x => 0 <= x) (topic_mass i).
Proof.
  intros Hdtd Hlen. unfold topic_mass, column_sums.
  rewrite Forall_map. apply Forall_forall. intros j _.
  apply Qsum_nonneg. unfold column. rewrite Forall_map.
  apply Forall_forall. intros d _. cbn [weight_rows cell].
  apply Qcmult_nonneg; [apply Hdtd|now apply at_nonneg].
Qed.

(** X25.  In exact arithmetic: when [prepare] returns on inputs without a
    negative entry, and the raw estimates of no term sum to zero over the
    topics, every row of the topic-info table has a frequency between 0 and
    its total: the bar of a term within a topic is not longer than the bar
    of the term in the corpus.  (In float64 the frequency of a row can pass
    its total in the last place.) *)
Theorem topic_info_freq_bounds (round : Qc -> Z -> Qc) (cpu_count : Z)
    (log : fnum -> fnum) (nansum : list fnum -> fnum)
    (order_desc sort_desc : list fnum -> list nat)
    (sort_term_topic : list (string * nat) -> list nat)
    (i : inputs) (R : nat) (lambda_step : Qc) (mds : frame Qc -> frame fnum)
    (plot_opts : list (string * value)) (n_jobs : Z) (pd : Prepared.PreparedData) :
  sorts_descending order_desc ->
  prepare round cpu_count log nansum order_desc sort_desc sort_term_topic
          i R lambda_step mds plot_opts n_jobs = Ok pd ->
  (forall k w, 0 <= cell (topic_term_dists i) k w) ->
  (forall d k, 0 <= cell (doc_topic_dists i) d k) ->
  Forall (fun x => 0 <= x) (doc_lengths i) ->
  Forall (fun x => 0 <= x) (term_frequency i) ->
  let r := reorder order_desc (named i) in
  (forall w, (w < ncols (topic_term_dists i))%nat ->
     Qsum (column (weight_rows (topic_term_dists' r) (topic_freq r)) w) <> 0) ->
  forall row, In row (Prepared.topic_info pd) ->
    exists q, Info.Freq row = Fin q /\ 0 <= q /\ q <= Info.Total row.
Proof.
  intros Horder Hpd Httd Hdtd Hlen Htf r Hsums row Hrow.
  apply prepare_ok_inv in Hpd. cbv zeta in Hpd. fold r in Hpd.
  destruct Hpd as (Hval & info & coords & Hinfo & _ & ->).
  cbn [Prepared.topic_info] in Hrow.
  pose proof (@topic_order_perm round order_desc i Horder Hval) as Hperm. fold r in Hperm.
  assert (Hnd : NoDup (topic_order r)) by (eapply permutation_seq_NoDup; eauto).
  apply topic_info_ok_rows in Hinfo. cbv zeta in Hinfo.
  destruct Hinfo as (_ & lambda_seq & top_terms & _ & Hcols & Hcol & ->).
  apply in_app_or in Hrow as [Hrow|Hrow].
  - apply in_default_rows in Hrow as (_ & _ & HTotal & HFreq & _).
    exists (Info.Total row). split; [exact HFreq|]. split; [|apply Qcle_refl].
    rewrite HTotal. now apply at_nonneg.
  - apply topic_rows_freq in Hrow as (k & Hk & Hix & HFreq & HTotal).
    rewrite Hcols in Hk.
    change (nrows (topic_term_dists' r)) with (length (topic_order r)) in Hk.
    assert (Hw : (Info.ix row < ncols (topic_term_dists i))%nat).
    { rewrite Hcol in Hix. apply in_concat_map in Hix as (l & _ & Hix).
      rewrite column_find_relevance_rows in Hix
        by (apply sorts_descending_length; exact Horder).
      apply in_firstn in Hix. destruct Horder as [Hp _].
      apply (Permutation_in _ (Hp _)) in Hix. apply in_seq in Hix.
      rewrite length_row in Hix. cbn [relevance ncols log_ttd_of] in Hix.
      change (ncols (topic_term_dists' r)) with (ncols (topic_term_dists i)) in Hix.
      lia. }
    rewrite HFreq, HTotal. unfold loc.
    change (frame_index (_term_topic_freq (topic_term_dists' r) (topic_freq r)
                                          (term_frequency i)))
      with (topic_order r).
    change (frame_index (topic_term_dists' r)) with (topic_order r).
    change (at_ 0%nat (topic_order r) k) with (nth k (topic_order r) 0%nat).
    rewrite position_nth by trivial.
    apply corrected_estimate_bounds; trivial.
    + unfold column. rewrite Forall_map. apply Forall_forall. intros j _.
      cbn [weight_rows cell]. apply Qcmult_nonneg.
      * cbn [topic_term_dists' reorder select_rows cell]. unfold loc.
        cbn [named topic_term_dists _df_with_names cell]. apply Httd.
      * apply at_nonneg.
        change (topic_freq r)
          with (map (at_ 0 (topic_mass (named i))) (topic_order r)).
        rewrite Forall_map. apply Forall_forall. intros t _.
        apply at_nonneg. now apply (topic_mass_nonneg (named i)).
    + now apply at_nonneg.
    + now apply Hsums.
Qed.

Lemma table_nonneg (w : nat) (rows : list (list Qc)) :
  Forall (Forall (fun x => 0 <= x)) rows ->
  forall k j, 0 <= cell (table w rows) k j.
Proof.
  intros H k j. unfold table, frame_of_rows. cbn [cell].
  apply (@at_nonneg (nth k rows []) j).
  destruct (Nat.lt_ge_cases k (length rows)) as [Hk|Hk].
  - rewrite Forall_forall in H. apply H. now apply nth_In.
  - rewrite nth_overflow by trivial. constructor.
Qed.

Lemma topic_info_freq_bounds_witness :
  sorts_descending stable_argsort_desc /\
  Forall (fun x => 0 <= x) (term_frequency example_inputs) /\
  exists pd,
    example_run = Ok pd /\
    forall row, In row (Prepared.topic_info pd) ->
      exists q, Info.Freq row = Fin q /\ 0 <= q /\ q <= Info.Total row.
Proof.
  assert (Htf : Forall (fun x => 0 <= x) (term_frequency example_inputs)).
  { repeat constructor; apply Qc_leb_le; vm_compute; reflexivity. }
  split; [apply stable_argsort_desc_sorts|]. split; [exact Htf|].
  destruct example_run as [pd|e] eqn:Hpd; [|vm_compute in Hpd; discriminate Hpd].
  exists pd. split; [reflexivity|].
  apply (@topic_info_freq_bounds round_py3 4 log_lower nansum_zero stable_argsort_desc
           stable_argsort_desc stable_sort_term_topic example_inputs 2 (qc 1 4)
           first_two_columns [("xlab", VStr "PC1"); ("ylab", VStr "PC2")] (-1)%Z pd
           stable_argsort_desc_sorts Hpd); trivial.
  - apply table_nonneg. repeat constructor; apply Qc_leb_le; vm_compute; reflexivity.
  - apply table_nonneg. repeat constructor; apply Qc_leb_le; vm_compute; reflexivity.
  - repeat constructor; apply Qc_leb_le; vm_compute; reflexivity.
  - intros [|[|[|w]]] Hw; try (apply Qc_neq_by_compute; vm_compute; reflexivity).
    vm_compute in Hw. lia.
Defined.
